(** * Graph construction for segmentation: a shallow embedding of Graph.cpp

    The two builders of [gc::Graph] are embedded as functions over an explicit
    builder state, the vector helpers [Dot3] and [Add3] beside them.
    Floating-point data follows IEEE 754 through the Standard
    Library's [SpecFloat]: [float] is binary32, [double] is binary64.  Reads
    past the end of a vector are undefined behaviour in the source and are an
    explicit outcome here. *)

From Stdlib Require Import ZArith NArith List Bool Lia SpecFloat Sorted.
From Stdlib Require Import Strings.Byte.
Import ListNotations.
Local Open Scope Z_scope.

(** ** Outcomes of a call *)

(** A call either returns, leaves by a signalled error (an exception, as a
    checked access [v.at(i)] would raise), runs into undefined behaviour (an
    unchecked read past the end of a vector), or loops forever (an [unsigned]
    counter that wraps before it reaches a 64-bit size).  Graph.cpp has no
    [throw], no assertion and no checked access: nothing below builds
    [Throws]. *)
Inductive outcome (A : Type) : Type :=
| Returns (a : A)
| Throws
| Undefined
| Diverges.

Arguments Returns {A} a.
Arguments Throws {A}.
Arguments Undefined {A}.
Arguments Diverges {A}.

Definition bind {A B} (m : outcome A) (k : A -> outcome B) : outcome B :=
  match m with
  | Returns a => k a
  | Throws => Throws
  | Undefined => Undefined
  | Diverges => Diverges
  end.

Notation "'do' x <- m ; k" := (bind m (fun x => k))
  (at level 60, x name, m at next level, right associativity).
Notation "'do' ' p <- m ; k" := (bind m (fun x => match x with p => k end))
  (at level 60, p pattern, m at next level, right associativity).

(** [v[i]] on a [std::vector]: no bounds check in the source. *)
Definition at_ {A} (v : list A) (i : Z) : outcome A :=
  if i <? 0 then Undefined
  else match nth_error v (Z.to_nat i) with
       | Some a => Returns a
       | None => Undefined
       end.

(** ** Machine integers *)

Definition UINT_MAX : Z := 4294967295.

(** Arithmetic on [unsigned] wraps modulo 2^32. *)
Definition u32 (n : Z) : Z := n mod 4294967296.

(** [v.size()] read into a loop [for (unsigned i = 0; i < v.size(); i++)]:
    the counter reaches the size only when the size fits in 32 bits. *)
Definition usize {A} (v : list A) : outcome Z :=
  let n := Z.of_nat (length v) in
  if n <=? UINT_MAX then Returns n else Diverges.

(** [for (unsigned i = start; i < start + n; i++) body], state passing. *)
Fixpoint for_from {St} (i : Z) (n : nat) (body : Z -> St -> outcome St) (s : St)
  : outcome St :=
  match n with
  | O => Returns s
  | S n' => do s' <- body i s; for_from (i + 1) n' body s'
  end.

(** ** Floating point *)

Definition float := spec_float.

Definition isnan (x : float) : bool :=
  match x with S754_nan => true | _ => false end.

Definition fabs : float -> float := SFabs.

(** [float]: binary32. *)
Module F32.
Definition prec : Z := 24.
Definition emax : Z := 128.
Definition sub := SFsub prec emax.
Definition add := SFadd prec emax.
Definition mul := SFmul prec emax.
Definition div := SFdiv prec emax.
Definition ltb := SFltb.
Definition leb := SFleb.
Definition of_Z (n : Z) : float := binary_normalize prec emax n 0 false.
(** Conversion of a value to [float], round to nearest even. *)
Definition round (x : float) : float :=
  match x with
  | S754_finite s m e => binary_round prec emax s m e
  | _ => x
  end.
Definition zero : float := S754_zero false.
Definition one : float := Eval vm_compute in of_Z 1.
End F32.

(** [double]: binary64. *)
Module F64.
Definition prec : Z := 53.
Definition emax : Z := 1024.
Definition sub := SFsub prec emax.
Definition add := SFadd prec emax.
Definition mul := SFmul prec emax.
Definition div := SFdiv prec emax.
Definition sqrt := SFsqrt prec emax.
Definition of_Z (n : Z) : float := binary_normalize prec emax n 0 false.
(** Promotion of a [float] to [double]: exact, the mantissa is realigned. *)
Definition round (x : float) : float :=
  match x with
  | S754_finite s m e => binary_round prec emax s m e
  | _ => x
  end.
(** The literals [255.], [0.01] and [1.57], correctly rounded. *)
Definition c255 : float := Eval vm_compute in of_Z 255.
Definition c0_01 : float := Eval vm_compute in div (of_Z 1) (of_Z 100).
Definition c1_57 : float := Eval vm_compute in div (of_Z 157) (of_Z 100).
End F64.

(** ** Data model *)

(** Modelled from the spec: the declarations of [surface::Relation] and
    [gc::Edge] live in headers outside the sources at hand.  Only the fields
    that Graph.cpp touches are kept; node indices are integers, probabilities
    and weights share the [float] type, so a store copies the value.  A field
    that a builder never assigns stays [None].  [rtype] is the [type] of a
    relation; the point fields [x], [y], [b] are [px], [py], [b_] here, their
    names being taken by [Edge]. *)
Record Relation := mkRelation {
  id_0 : Z;
  id_1 : Z;
  groundTruth : Z;
  rtype : Z;
  rel_probability : list float
}.

Record Edge := mkEdge {
  a : Z;
  b : Z;
  type : Z;
  w : float;
  w2 : option float
}.

Record PointXYZRGB := mkPoint {
  px : float; py : float; z : float;
  r : byte; g : byte; b_ : byte
}.

Record Normal := mkNormal {
  normal : float * float * float;
  curvature : float
}.

Record PointCloud (P : Type) := mkCloud {
  points : list P;
  width : Z;
  height : Z
}.

Arguments mkCloud {P} _ _ _.
Arguments points {P} _.
Arguments width {P} _.
Arguments height {P} _.

(** The builder object. *)
Record Graph := mkGraph {
  nodes : Z;
  relations : list Relation;
  edges : list Edge;
  pcl_cloud : option (PointCloud PointXYZRGB);
  normals : option (PointCloud Normal)
}.

(** [Graph::Graph()] *)
Definition Graph_default : Graph :=
  mkGraph 0 [] [] None None.

(** [Graph::Graph(unsigned nrNodes, std::vector<surface::Relation> &rel)] *)
Definition Graph_of (nrNodes : Z) (rel : list Relation) : Graph :=
  mkGraph (u32 nrNodes) rel [] None None.

(** ** BuildFromSVM *)

(** The inner scan [for j: if (relations[j].id_0 == 0 && relations[j].id_1 == i)
    node_found = true]. *)
Definition node_found (rels : list Relation) (i : Z) : bool :=
  fold_left (fun found rl => if (id_0 rl =? 0) && (id_1 rl =? i) then true else found)
            rels false.

(** The relation pushed for a node without a link to node 0. *)
Definition synthetic (i : Z) : Relation :=
  mkRelation 0 i (-1) 1 [F32.one; F32.zero].

(** Body of the connectivity check for node [i]; [relations] grows in place. *)
Definition connect_node (i : Z) (rels : list Relation) : outcome (list Relation) :=
  do _ <- usize rels;
  if node_found rels i then Returns rels
  else Returns (rels ++ [synthetic i]).

(** Body of the emission loop for [relations[i]]. *)
Definition emit_edge (rl : Relation) : outcome Edge :=
  do p <- at_ (rel_probability rl) 0;
  Returns (mkEdge (id_0 rl) (id_1 rl) 1 p None).

Fixpoint emit_edges (rels : list Relation) (es : list Edge) : outcome (list Edge) :=
  match rels with
  | [] => Returns es
  | rl :: rest => do e <- emit_edge rl; emit_edges rest (es ++ [e])
  end.

(** [void Graph::BuildFromSVM(std::vector<gc::Edge> &e, unsigned &num_edges)]:
    the new builder state, and the two out-parameters.  There is no
    [edges.clear()]: emission appends to the edges the builder holds.  A
    relation list out of reach of the emission counter makes the loop run
    forever; the reads it performs on the way are not followed. *)
Definition BuildFromSVM (gr : Graph) : outcome (Graph * list Edge * Z) :=
  do rels <- for_from 1 (Z.to_nat (nodes gr - 1)) connect_node (relations gr);
  do _ <- usize rels;
  do es <- emit_edges rels (edges gr);
  Returns (mkGraph (nodes gr) rels es (pcl_cloud gr) (normals gr),
           es, u32 (Z.of_nat (length es))).

(** ** BuildFromPointCloud *)

(** Modelled from the spec: [Graph::GetIdx] is declared in the absent header;
    the grid is row-major, so the linear index of [(col,row)] is
    [row * width + col]. *)
Definition GetIdx (wd col row : Z) : Z := row * wd + col.

(** [float z_adapt = 0.01;] *)
Definition z_adapt : float := Eval vm_compute in F32.round F64.c0_01.

(** The sentinel [1.57] as it lands in the [float] field [e.w2]. *)
Definition sentinel : float := Eval vm_compute in F32.round F64.c1_57.

(** [(float)pt.r/255.]: the division is carried out in [double]. *)
Definition chan (c : byte) : float :=
  F64.div (F64.round (F32.of_Z (Z.of_N (Byte.to_N c)))) F64.c255.

(** The colour distance of two points, as stored in [float color_dist[..][k]]. *)
Definition color_distance (p0 p1 : PointXYZRGB) : float :=
  let dr := F64.sub (chan (r p0)) (chan (r p1)) in
  let dg := F64.sub (chan (g p0)) (chan (g p1)) in
  let db := F64.sub (chan (b_ p0)) (chan (b_ p1)) in
  F32.round (F64.sqrt (F64.add (F64.add (F64.mul dr dr) (F64.mul dg dg))
                               (F64.mul db db))).

(** [if (d > max_color) max_color = d;] *)
Definition track_max (d max_color : float) : float :=
  if F32.ltb max_color d then d else max_color.

Definition dist4 : Type := float * float * float * float.

(** The array [float color_dist[points.size()][4]]: a row is readable once the
    first pass has written it. *)
Definition cdist := Z -> option dist4.

Definition cd_empty : cdist := fun _ => None.

Definition cd_write (cd : cdist) (idx : Z) (d : dist4) : cdist :=
  fun i => if i =? idx then Some d else cd i.

Definition cd_read (cd : cdist) (idx : Z) : outcome dist4 :=
  match cd idx with
  | Some d => Returns d
  | None => Undefined
  end.

(** The curvature scan at the head of the function; its result is only
    printed, its reads of [pcl_cloud->points[i]] are not bounds-checked. *)
Definition curv_step (pts : list PointXYZRGB) (nms : list Normal)
    (i : Z) (max_curv : float) : outcome float :=
  do p <- at_ pts i;
  if negb (isnan (z p)) then
    do n <- at_ nms i;
    Returns (if F32.ltb max_curv (curvature n) then curvature n else max_curv)
  else Returns max_curv.

Definition max_curvature (pts : list PointXYZRGB) (nms : list Normal)
  : outcome float :=
  do n <- usize nms;
  for_from 0 (Z.to_nat n) (curv_step pts nms) F32.zero.

(** Body of the first pass at cell [(col,row)]. *)
Definition color_cell (pts : list PointXYZRGB) (wd : Z) (col row : Z)
    (st : cdist * float) : outcome (cdist * float) :=
  let '(cd, max_color) := st in
  let idx := GetIdx wd col row in
  do pt_0 <- at_ pts idx;
  do pt_1 <- at_ pts (idx + 1);
  let d0 := color_distance pt_0 pt_1 in
  let max_color := track_max d0 max_color in
  do pt_1 <- at_ pts (u32 (idx + wd));
  let d1 := color_distance pt_0 pt_1 in
  let max_color := track_max d1 max_color in
  do pt_1 <- at_ pts (u32 (idx + wd + 1));
  let d2 := color_distance pt_0 pt_1 in
  let max_color := track_max d2 max_color in
  if negb (col =? 0) then
    do pt_1 <- at_ pts (u32 (idx + wd - 1));
    let d3 := color_distance pt_0 pt_1 in
    let max_color := track_max d3 max_color in
    Returns (cd_write cd idx (d0, d1, d2, d3), max_color)
  else
    Returns (cd_write cd idx (d0, d1, d2, F32.one), max_color).

(** [for (row < height-1) for (col < width-1) body]; the bounds are
    [unsigned] differences. *)
Definition for_grid {St} (wd ht : Z) (body : Z -> Z -> St -> outcome St) (s : St)
  : outcome St :=
  for_from 0 (Z.to_nat (u32 (ht - 1)))
    (fun row s => for_from 0 (Z.to_nat (u32 (wd - 1)))
                    (fun col s => body col row s) s) s.

Definition set_a (e : Edge) (v : Z) := mkEdge v (b e) (type e) (w e) (w2 e).
Definition set_b (e : Edge) (v : Z) := mkEdge (a e) v (type e) (w e) (w2 e).
Definition set_type (e : Edge) (v : Z) := mkEdge (a e) (b e) v (w e) (w2 e).
Definition set_w (e : Edge) (v : float) := mkEdge (a e) (b e) (type e) v (w2 e).
Definition set_w2 (e : Edge) (v : float) := mkEdge (a e) (b e) (type e) (w e) (Some v).

Definition Dot3 (v1 v2 : float * float * float) : float :=
  let '(x1, y1, z1) := v1 in
  let '(x2, y2, z2) := v2 in
  F32.add (F32.add (F32.mul x1 x2) (F32.mul y1 y2)) (F32.mul z1 z2).

(** [Add3], the other vector helper of the file, with one element type for
    the three arrays. *)
Section Vec3.

Variable T : Type.
Variable add : T -> T -> T.

(** [p[i] = v] through a pointer into the store. *)
Definition poke (mem : list T) (i : Z) (v : T) : outcome (list T) :=
  if (0 <=? i) && (i <? Z.of_nat (length mem))
  then Returns (firstn (Z.to_nat i) mem ++ v :: skipn (S (Z.to_nat i)) mem)
  else Undefined.

(** [Add3(v1, v2, r)]: the three arrays are given by the position of their
    first component in one store, so that they may overlap as pointers
    may. *)
Definition Add3 (mem : list T) (v1 v2 r : Z) : outcome (list T) :=
  do x <- at_ mem v1;
  do y <- at_ mem v2;
  do mem <- poke mem r (add x y);
  do x <- at_ mem (v1 + 1);
  do y <- at_ mem (v2 + 1);
  do mem <- poke mem (r + 1) (add x y);
  do x <- at_ mem (v1 + 2);
  do y <- at_ mem (v2 + 2);
  poke mem (r + 2) (add x y).

End Vec3.

Arguments poke {T} mem i v.
Arguments Add3 {T} add mem v1 v2 r.

(** [z_dist = fabs(z_0 - z_1)] and the test that guards [edges.push_back(e)]. *)
Definition depth_gate (pts : list PointXYZRGB) (idx j : Z) : outcome bool :=
  do p0 <- at_ pts idx;
  do p1 <- at_ pts j;
  let z_dist := fabs (F32.sub (z p0) (z p1)) in
  Returns (negb (isnan (z p0)) && negb (isnan (z p1))
           && F32.ltb z_dist (F32.mul z_adapt (z p0))).

Definition push_if (ok : bool) (e : Edge) (es : list Edge) : list Edge :=
  if ok then es ++ [e] else es.

Section WithAcos.

  (** [acos] of the C library, on the [double] it receives and returns. *)
Variable acos : float -> float.

  (** The "normals angle" block: the value assigned to [e.w2]. *)
Definition normal_angle (pts : list PointXYZRGB) (nms : list Normal)
      (idx j : Z) : outcome float :=
    do p0 <- at_ pts idx;
    do angle <-
      (if isnan (z p0) then Returns F64.c1_57
       else
         do n0 <- at_ nms idx;
         do n1 <- at_ nms j;
         Returns (acos (F64.round (Dot3 (normal n0) (normal n1)))));
    Returns (if negb (isnan angle) then F32.round angle else sentinel).

  (** Body of the second pass at cell [(col,row)]: the local [e] is mutated
      from block to block and appended to [edges] when the gate holds. *)
Definition edge_cell (pts : list PointXYZRGB) (nms : list Normal) (wd : Z)
      (cd : cdist) (max_color : float) (col row : Z) (es : list Edge)
    : outcome (list Edge) :=
    let idx := GetIdx wd col row in
    (* RIGHT *)
    do d <- cd_read cd idx;
    let '(d0, d1, d2, d3) := d in
    let e := mkEdge idx (idx + 1) 1 (F32.div d0 max_color) None in
    do ang <- normal_angle pts nms idx (idx + 1);
    let e := set_w2 e ang in
    do ok <- depth_gate pts idx (idx + 1);
    let es := push_if ok e es in
    (* BOTTOM *)
    let e := set_a e idx in
    let e := set_b e (u32 (idx + wd)) in
    let e := set_type e 1 in
    let e := set_w e (F32.div d1 max_color) in
    do ang <- normal_angle pts nms idx (u32 (idx + wd));
    let e := set_w2 e ang in
    do ok <- depth_gate pts idx (u32 (idx + wd));
    let es := push_if ok e es in
    (* BOTTOM-RIGHT *)
    let e := set_a e idx in
    let e := set_b e (u32 (idx + wd + 1)) in
    let e := set_type e 1 in
    let e := set_w e (F32.div d2 max_color) in
    do ang <- normal_angle pts nms idx (u32 (idx + wd + 1));
    let e := set_w2 e ang in
    do ok <- depth_gate pts idx (u32 (idx + wd + 1));
    let es := push_if ok e es in
    (* BOTTOM-LEFT *)
    if wd =? 0 then Undefined
    else if negb (u32 idx mod wd =? 0) then
      let e := set_a e idx in
      let e := set_b e (u32 (idx + wd - 1)) in
      let e := set_type e 1 in
      let e := set_w e (F32.div d3 max_color) in
      do ang <- normal_angle pts nms idx (u32 (idx + wd - 1));
      let e := set_w2 e ang in
      do ok <- depth_gate pts idx (u32 (idx + wd - 1));
      Returns (push_if ok e es)
    else
      let e := set_w e F32.one in
      do ok <- depth_gate pts idx (u32 (idx + wd - 1));
      Returns (push_if ok e es).

  (** [void Graph::BuildFromPointCloud(cloud, normals, e, num_edges)]: the new
      builder state, and the two out-parameters. *)
Definition BuildFromPointCloud (cloud : PointCloud PointXYZRGB)
      (nms : PointCloud Normal) (gr : Graph)
    : outcome (Graph * list Edge * Z) :=
    let pts := points cloud in
    let wd := width cloud in
    let ht := height cloud in
    do _ <- max_curvature pts (points nms);
    do '(cd, max_color) <- for_grid wd ht (color_cell pts wd) (cd_empty, F32.zero);
    do es <- for_grid wd ht (edge_cell pts (points nms) wd cd max_color) [];
    Returns (mkGraph (nodes gr) (relations gr) es (Some cloud) (Some nms),
             es, u32 (Z.of_nat (length es))).

End WithAcos.

(** A coarse stand-in for the C library's [acos], exact where the standard
    fixes the value: [acos(1) = +0], [acos(-1)] is the double next to pi, a NaN
    for an argument outside [-1,1]; pi/2 in between. *)
Definition pi_d : float := S754_finite false 7074237752028440 (-51).
Definition half_pi_d : float := S754_finite false 7074237752028440 (-52).
Definition d_one : float := Eval vm_compute in F64.of_Z 1.
Definition d_mone : float := Eval vm_compute in F64.of_Z (-1).

Definition acos_coarse (x : float) : float :=
  match SFcompare x d_one, SFcompare x d_mone with
  | Some Eq, _ => S754_zero false
  | _, Some Eq => pi_d
  | Some Lt, Some Gt => half_pi_d
  | _, _ => S754_nan
  end.

(** ** Reference descriptions, to compare the builders with *)

(** The counters of a loop [for (i = start; i < start + n; i++)]. *)
Fixpoint zseq (i : Z) (n : nat) : list Z :=
  match n with
  | O => []
  | S n' => i :: zseq (i + 1) n'
  end.

(** A loop as a fold over the values its counter takes. *)
Fixpoint mfold {St A} (f : A -> St -> outcome St) (l : list A) (s : St)
  : outcome St :=
  match l with
  | [] => Returns s
  | x :: l' => do s' <- f x s; mfold f l' s'
  end.

(** Some input relation links node 0 to node [i], in that orientation. *)
Definition links0 (rels : list Relation) (i : Z) : bool :=
  existsb (fun rl => (id_0 rl =? 0) && (id_1 rl =? i)) rels.

(** The nodes of [1,N) that the connectivity check finds without a link. *)
Definition unlinked (N : Z) (rels : list Relation) : list Z :=
  filter (fun i => negb (links0 rels i)) (zseq 1 (Z.to_nat (N - 1))).

Definition repaired (N : Z) (rels : list Relation) : list Relation :=
  rels ++ map synthetic (unlinked N rels).

(** The relation list stays within reach of an [unsigned] counter through the
    connectivity check. *)
Definition fits (N : Z) (rels : list Relation) : Prop :=
  Z.of_nat (length rels) + Z.max 0 (N - 1) <= UINT_MAX.

Definition has_probability (rl : Relation) : bool :=
  match rel_probability rl with [] => false | _ :: _ => true end.

(** The edge that the emission loop builds from a relation. *)
Definition edge_of (rl : Relation) : Edge :=
  mkEdge (id_0 rl) (id_1 rl) 1 (hd S754_nan (rel_probability rl)) None.

(** The grid cells visited by both passes, row by row. *)
Definition cells (wd ht : Z) : list (Z * Z) :=
  flat_map (fun row => map (fun col => (col, row)) (zseq 0 (Z.to_nat (wd - 1))))
           (zseq 0 (Z.to_nat (ht - 1))).

Inductive direction := Right | Bottom | BottomRight | BottomLeft.

Definition directions : list direction := [Right; Bottom; BottomRight; BottomLeft].

(** The linear index of the point that the depth gate of a direction reads. *)
Definition neighbour (wd idx : Z) (d : direction) : Z :=
  match d with
  | Right => idx + 1
  | Bottom => idx + wd
  | BottomRight => idx + wd + 1
  | BottomLeft => idx + wd - 1
  end.

Definition pt0 : PointXYZRGB := mkPoint S754_nan S754_nan S754_nan x00 x00 x00.
Definition nm0 : Normal := mkNormal (S754_nan, S754_nan, S754_nan) S754_nan.

Definition pt (pts : list PointXYZRGB) (i : Z) : PointXYZRGB :=
  nth (Z.to_nat i) pts pt0.
Definition nm (nms : list Normal) (i : Z) : Normal :=
  nth (Z.to_nat i) nms nm0.

(** The depth-continuity gate between the points at [i] and [j]. *)
Definition gate (pts : list PointXYZRGB) (i j : Z) : bool :=
  negb (isnan (z (pt pts i))) && negb (isnan (z (pt pts j)))
  && F32.ltb (fabs (F32.sub (z (pt pts i)) (z (pt pts j))))
             (F32.mul z_adapt (z (pt pts i))).

(** The four colour distances of a cell. *)
Definition cell_dists (pts : list PointXYZRGB) (wd col row : Z) : dist4 :=
  let idx := GetIdx wd col row in
  (color_distance (pt pts idx) (pt pts (idx + 1)),
   color_distance (pt pts idx) (pt pts (idx + wd)),
   color_distance (pt pts idx) (pt pts (idx + wd + 1)),
   if col =? 0 then F32.one
   else color_distance (pt pts idx) (pt pts (idx + wd - 1))).

(** The distances of a cell that compete for the global maximum. *)
Definition cell_tracked (pts : list PointXYZRGB) (wd : Z) (c : Z * Z) : list float :=
  let '(col, row) := c in
  let '(d0, d1, d2, d3) := cell_dists pts wd col row in
  if col =? 0 then [d0; d1; d2] else [d0; d1; d2; d3].

Definition max_over (ds : list float) (m : float) : float :=
  fold_left (fun m d => track_max d m) ds m.

(** [max_color] as the first pass leaves it. *)
Definition max_color_of (pts : list PointXYZRGB) (wd ht : Z) : float :=
  max_over (flat_map (cell_tracked pts wd) (cells wd ht)) F32.zero.

Section Reference.

Variable acos : float -> float.

  (** The value of [e.w2] computed for the points at [i] and [j]. *)
Definition angle (pts : list PointXYZRGB) (nms : list Normal) (i j : Z) : float :=
    let ang := if isnan (z (pt pts i)) then F64.c1_57
               else acos (F64.round (Dot3 (normal (nm nms i)) (normal (nm nms j)))) in
    if negb (isnan ang) then F32.round ang else sentinel.

  (** The record [e] as it stands when the block of a direction reaches its
      [push_back]. *)
Definition dir_edge (pts : list PointXYZRGB) (nms : list Normal) (wd : Z)
      (max_color : float) (col row : Z) (d : direction) : Edge :=
    let idx := GetIdx wd col row in
    let '(d0, d1, d2, d3) := cell_dists pts wd col row in
    match d with
    | Right =>
        mkEdge idx (idx + 1) 1 (F32.div d0 max_color)
               (Some (angle pts nms idx (idx + 1)))
    | Bottom =>
        mkEdge idx (idx + wd) 1 (F32.div d1 max_color)
               (Some (angle pts nms idx (idx + wd)))
    | BottomRight =>
        mkEdge idx (idx + wd + 1) 1 (F32.div d2 max_color)
               (Some (angle pts nms idx (idx + wd + 1)))
    | BottomLeft =>
        if col =? 0 then
          mkEdge idx (idx + wd + 1) 1 F32.one
                 (Some (angle pts nms idx (idx + wd + 1)))
        else
          mkEdge idx (idx + wd - 1) 1 (F32.div d3 max_color)
                 (Some (angle pts nms idx (idx + wd - 1)))
    end.

  (** What one direction of a cell adds to [edges]. *)
Definition dir_out (pts : list PointXYZRGB) (nms : list Normal) (wd : Z)
      (max_color : float) (c : Z * Z) (d : direction) : list Edge :=
    let '(col, row) := c in
    let idx := GetIdx wd col row in
    if gate pts idx (neighbour wd idx d)
    then [dir_edge pts nms wd max_color col row d] else [].

Definition cell_out (pts : list PointXYZRGB) (nms : list Normal) (wd : Z)
      (max_color : float) (c : Z * Z) : list Edge :=
    flat_map (dir_out pts nms wd max_color c) directions.

Definition grid_edges (pts : list PointXYZRGB) (nms : list Normal)
      (wd ht : Z) : list Edge :=
    flat_map (cell_out pts nms wd (max_color_of pts wd ht)) (cells wd ht).

End Reference.

(** A structured cloud with its normals, as the builder expects it: a grid of
    at least one row and one column, stored row-major, as many normals as
    points, and indices that fit an [int]. *)
Definition grid_ok (cloud : PointCloud PointXYZRGB) (nms : PointCloud Normal) : Prop :=
  1 <= width cloud /\ 1 <= height cloud /\
  Z.of_nat (length (points cloud)) = width cloud * height cloud /\
  length (points nms) = length (points cloud) /\
  width cloud * height cloud < 2147483648.

(** ** Sample inputs *)

Definition pt1 := mkPoint F32.zero F32.zero F32.one x00 x00 x00.
Definition nm1 := mkNormal (F32.zero, F32.zero, F32.one) F32.zero.
Definition cloud32 := mkCloud (repeat pt1 6) 3 2.
Definition nms32 := mkCloud (repeat nm1 6) 3 2.

Definition rel09 : Relation :=
  mkRelation 0 1 0 1 [S754_finite false 15099494 (-24); S754_finite false 13421773 (-27)].
Definition rel_noprob : Relation := mkRelation 0 1 0 1 [].

(** A 2 x 2 grid at depth 1.0 with one dark point and one normal turned
    over. *)
Definition pt_white := mkPoint F32.zero F32.zero F32.one xff xff xff.
Definition nm_down :=
  mkNormal (F32.zero, F32.zero, S754_finite true 8388608 (-23)) F32.zero.
Definition cloud22 := mkCloud [pt1; pt_white; pt_white; pt_white] 2 2.
Definition nms22 := mkCloud [nm1; nm_down; nm1; nm1] 2 2.

(** A relation read backwards, one with other side data, a point moved
    sideways, a normal with another curvature. *)
Definition rel20 : Relation := mkRelation 2 0 0 1 [F32.one].
Definition rel09_other : Relation :=
  mkRelation 0 1 1 7 [S754_finite false 15099494 (-24)].
Definition pt_moved := mkPoint F32.one F32.one F32.one x00 x00 x00.
Definition nm_curved := mkNormal (F32.zero, F32.zero, F32.one) F32.one.

(** [1.58] and pi as [float] values. *)
Definition f1_58 : float :=
  Eval vm_compute in F32.round (F64.div (F64.of_Z 158) (F64.of_Z 100)).
Definition pi_f : float := Eval vm_compute in F32.round pi_d.

(** [lo <= x <= hi] as the machine compares; false when [x] is a NaN. *)
Definition within (lo hi x : float) : bool := F32.leb lo x && F32.leb x hi.

(** ** Rounding, for the bounds on weights *)

(** The record of a right shift holds nothing but zeros below the kept
    digits. *)
Definition exact_rec (mrs : shr_record) : bool :=
  negb (shr_r mrs) && negb (shr_s mrs).

(** What [binary_round_aux] returns once the mantissa [m1] at exponent [E] is
    settled: a carry out of the top digit costs one more shift. *)
Definition finish (prec emax : Z) (sx : bool) (m e : Z) : spec_float :=
  match m with
  | Z0 => S754_zero sx
  | Zpos p => if e <=? emax - prec then S754_finite sx p e else S754_infinity sx
  | Zneg _ => S754_nan
  end.

Definition rounded (prec emax : Z) (sx : bool) (m1 E : Z) : spec_float :=
  if m1 <? 2 ^ prec then finish prec emax sx m1 E
  else finish prec emax sx (m1 / 2) (E + 1).

(** Magnitude of a finite value: it lies in [2^(mag-1), 2^mag). *)
Definition mag (m : positive) (e : Z) : Z := Z.pos (digits2_pos m) + e.

(** Zero or a positive finite number of the format, below [2^k]. *)
Definition good (prec emax k : Z) (x : spec_float) : bool :=
  match x with
  | S754_zero false => true
  | S754_finite false m e => bounded prec emax m e && (mag m e <=? k)
  | _ => false
  end.

(** The same with the sign [sx], and with either sign. *)
Definition good_s (prec emax : Z) (sx : bool) (k : Z) (x : spec_float) : bool :=
  match x with
  | S754_zero s => Bool.eqb s sx
  | S754_finite s m e => Bool.eqb s sx && (bounded prec emax m e && (mag m e <=? k))
  | _ => false
  end.

Definition fin (prec emax k : Z) (x : spec_float) : bool :=
  good_s prec emax false k x || good_s prec emax true k x.

(** The contract of the C library's [acos] on a [double]: a NaN, or a number
    of the format between 0 and pi. *)
Definition acos_in_range (acos : float -> float) : Prop :=
  forall x,
    isnan (acos x) = true \/
    (valid_binary F64.prec F64.emax (acos x) = true /\
     SFleb (S754_zero false) (acos x) = true /\
     SFleb (acos x) pi_d = true).

(** All values of a colour channel. *)
Definition all_bytes : list byte :=
  flat_map (fun n => match Byte.of_N (N.of_nat n) with
                     | Some c => [c]
                     | None => []
                     end) (seq 0 256).

(** The square of a channel difference, as [color_distance] computes it. *)
Definition diff_sq (x y : float) : float :=
  let d := F64.sub x y in F64.mul d d.

Definition chan_sq (c0 c1 : byte) : float := diff_sq (chan c0) (chan c1).

(** ** Notions for the further properties *)

(** A relation from node [x] to node [y]; an edge from [x] to [y]. *)
Definition joins (x y : Z) (rl : Relation) : bool := (id_0 rl =? x) && (id_1 rl =? y).
Definition ends (x y : Z) (e : Edge) : bool := (a e =? x) && (b e =? y).

(** What BuildFromSVM reads of a relation: its two nodes and the first entry
    of its probability vector. *)
Definition read_of (rl : Relation) : Z * Z * option float :=
  (id_0 rl, id_1 rl, nth_error (rel_probability rl) 0).

(** What BuildFromPointCloud reads of a point: its depth and its colour. *)
Definition seen (p : PointXYZRGB) : float * byte * byte * byte :=
  (z p, r p, g p, b_ p).

Definition is_finite (x : float) : bool :=
  match x with S754_finite _ _ _ => true | _ => false end.

(** An outcome of code that only reads vectors: a result, or undefined
    behaviour. *)
Definition plain {A} (m : outcome A) : Prop :=
  (exists v, m = Returns v) \/ m = Undefined.

(** The colour distance that the block of a direction divides by
    [max_color]. *)
Definition dist_of (ds : dist4) (d : direction) : float :=
  let '(d0, d1, d2, d3) := ds in
  match d with
  | Right => d0
  | Bottom => d1
  | BottomRight => d2
  | BottomLeft => d3
  end.

(** * Properties *)

Ltac dlia := Z.div_mod_to_equations; lia.

(** ** Loops and vector reads *)

Lemma for_from_mfold {St} (body : Z -> St -> outcome St) n :
  forall i s, for_from i n body s = mfold body (zseq i n) s.
Proof.
  induction n as [|n IH]; intros i s; simpl; [reflexivity|].
  destruct (body i s); simpl; auto.
Qed.

Lemma mfold_app {St A} (f : A -> St -> outcome St) l1 :
  forall l2 s, mfold f (l1 ++ l2) s = bind (mfold f l1 s) (mfold f l2).
Proof.
  induction l1 as [|x l1 IH]; intros l2 s; simpl; [reflexivity|].
  destruct (f x s); simpl; auto.
Qed.

Lemma mfold_map {St A B} (f : B -> St -> outcome St) (h : A -> B) l :
  forall s, mfold f (map h l) s = mfold (fun x => f (h x)) l s.
Proof.
  induction l as [|x l IH]; intros s; simpl; [reflexivity|].
  destruct (f (h x) s); simpl; auto.
Qed.

Lemma zseq_length n : forall i, length (zseq i n) = n.
Proof. induction n; intros; simpl; auto. Qed.

Lemma zseq_In n : forall i k, In k (zseq i n) <-> i <= k < i + Z.of_nat n.
Proof.
  induction n as [|n IH]; intros i k.
  - simpl. lia.
  - cbn [zseq In]. rewrite IH. lia.
Qed.

Lemma u32_small n : 0 <= n <= UINT_MAX -> u32 n = n.
Proof. unfold u32, UINT_MAX. intros H. apply Z.mod_small. lia. Qed.

Lemma at_nth {A} (v : list A) (i : Z) (dflt : A) :
  0 <= i < Z.of_nat (length v) -> at_ v i = Returns (nth (Z.to_nat i) v dflt).
Proof.
  intros H. unfold at_.
  destruct (Z.ltb_spec i 0); [lia|].
  destruct (nth_error v (Z.to_nat i)) eqn:E.
  - erewrite nth_error_nth; eauto.
  - apply nth_error_None in E. lia.
Qed.

(** ** The relation-based builder *)

Lemma node_found_links0 rels i : node_found rels i = links0 rels i.
Proof.
  unfold node_found, links0.
  enough (G : forall acc,
             fold_left (fun found rl =>
                          if (id_0 rl =? 0) && (id_1 rl =? i) then true else found)
                       rels acc
             = acc || existsb (fun rl => (id_0 rl =? 0) && (id_1 rl =? i)) rels).
  { rewrite G. reflexivity. }
  induction rels as [|rl rels IH]; intros acc; simpl.
  - now rewrite orb_false_r.
  - rewrite IH. destruct ((id_0 rl =? 0) && (id_1 rl =? i)); simpl.
    + now rewrite orb_true_r.
    + reflexivity.
Qed.

Lemma links0_app l1 l2 i : links0 (l1 ++ l2) i = links0 l1 i || links0 l2 i.
Proof. unfold links0. apply existsb_app. Qed.

Lemma links0_In rels i :
  links0 rels i = true <-> exists rl, In rl rels /\ id_0 rl = 0 /\ id_1 rl = i.
Proof.
  unfold links0. rewrite existsb_exists. split.
  - intros (rl & Hin & H). apply andb_true_iff in H. destruct H as [H0 H1].
    exists rl. repeat split; auto; lia.
  - intros (rl & Hin & H0 & H1). exists rl. split; auto.
    apply andb_true_iff. split; lia.
Qed.

Lemma usize_fits {A} (v : list A) :
  Z.of_nat (length v) <= UINT_MAX -> usize v = Returns (Z.of_nat (length v)).
Proof.
  intros H. unfold usize. cbv zeta.
  destruct (Z.leb_spec (Z.of_nat (length v)) UINT_MAX); [reflexivity | lia].
Qed.

Lemma connect_loop rels n :
  forall i cur,
    (forall k, i <= k -> links0 cur k = links0 rels k) ->
    Z.of_nat (length cur) + Z.of_nat n <= UINT_MAX ->
    mfold connect_node (zseq i n) cur
    = Returns (cur ++ map synthetic
                          (filter (fun k => negb (links0 rels k)) (zseq i n))).
Proof.
  induction n as [|n IH]; intros i cur Hcur Hlen.
  - simpl. now rewrite app_nil_r.
  - cbn [zseq mfold filter]. unfold connect_node at 1.
    rewrite usize_fits by lia. cbn [bind].
    rewrite node_found_links0, (Hcur i) by lia.
    destruct (links0 rels i) eqn:E; cbn [negb bind].
    + apply IH; [intros k Hk; apply Hcur; lia | lia].
    + rewrite IH.
      * cbn [map]. now rewrite <- app_assoc.
      * intros k Hk. rewrite links0_app, Hcur by lia.
        unfold links0 at 2. simpl.
        destruct (Z.eqb_spec i k); [lia|]. now rewrite !orb_false_r.
      * rewrite length_app. simpl. lia.
Qed.

Lemma unlinked_length N rels :
  Z.of_nat (length (unlinked N rels)) <= Z.max 0 (N - 1).
Proof.
  unfold unlinked.
  pose proof (filter_length_le (fun i => negb (links0 rels i))
                               (zseq 1 (Z.to_nat (N - 1)))) as H.
  rewrite zseq_length in H. lia.
Qed.

Lemma unlinked_In N rels i :
  In i (unlinked N rels) <-> 1 <= i < N /\ links0 rels i = false.
Proof.
  unfold unlinked. rewrite filter_In, zseq_In, negb_true_iff.
  split; intros [H1 H2]; split; auto; lia.
Qed.

Lemma emit_edges_ok rels :
  forall es, forallb has_probability rels = true ->
             emit_edges rels es = Returns (es ++ map edge_of rels).
Proof.
  induction rels as [|rl rels IH]; intros es H; simpl.
  - now rewrite app_nil_r.
  - simpl in H. apply andb_true_iff in H. destruct H as [Hp Hr].
    unfold emit_edge, has_probability in *.
    destruct (rel_probability rl) as [|p ps] eqn:E; [discriminate|].
    unfold at_. simpl. rewrite IH by assumption.
    rewrite <- app_assoc. unfold edge_of at 2. rewrite E. reflexivity.
Qed.

Lemma emit_edges_undefined rels :
  forall es, forallb has_probability rels = false ->
             emit_edges rels es = Undefined.
Proof.
  induction rels as [|rl rels IH]; intros es H; simpl in *; [discriminate|].
  unfold emit_edge, has_probability in *.
  destruct (rel_probability rl) as [|p ps] eqn:E.
  - reflexivity.
  - unfold at_. simpl. simpl in H. apply IH. assumption.
Qed.

Lemma repaired_has_probability N rels :
  forallb has_probability (repaired N rels) = forallb has_probability rels.
Proof.
  unfold repaired. rewrite forallb_app.
  replace (forallb has_probability (map synthetic (unlinked N rels))) with true.
  - apply andb_true_r.
  - symmetry. apply forallb_forall. intros rl Hin.
    apply in_map_iff in Hin. destruct Hin as (i & <- & _). reflexivity.
Qed.

(** The builder in closed form: repair, then emission on top of the edges the
    builder already holds. *)
Lemma BuildFromSVM_eq gr :
  fits (nodes gr) (relations gr) ->
  BuildFromSVM gr
  = do es <- emit_edges (repaired (nodes gr) (relations gr)) (edges gr);
    Returns (mkGraph (nodes gr) (repaired (nodes gr) (relations gr)) es
                     (pcl_cloud gr) (normals gr),
             es, u32 (Z.of_nat (length es))).
Proof.
  intros Hfit. unfold fits in Hfit. unfold BuildFromSVM.
  rewrite for_from_mfold, (connect_loop (relations gr)).
  - cbn [bind]. fold (unlinked (nodes gr) (relations gr)).
    fold (repaired (nodes gr) (relations gr)).
    rewrite usize_fits; [reflexivity|].
    unfold repaired. rewrite length_app, length_map.
    pose proof (unlinked_length (nodes gr) (relations gr)). lia.
  - reflexivity.
  - lia.
Qed.

Lemma zseq_NoDup n : forall i, NoDup (zseq i n).
Proof.
  induction n as [|n IH]; intros i; simpl; constructor; auto.
  rewrite zseq_In. lia.
Qed.

Lemma unlinked_NoDup N rels : NoDup (unlinked N rels).
Proof. unfold unlinked. apply NoDup_filter, zseq_NoDup. Qed.

(** On a builder that holds no edges yet, the call returns the edges of the
    repaired relation list. *)
Lemma BuildFromSVM_fresh gr :
  edges gr = [] ->
  fits (nodes gr) (relations gr) ->
  forallb has_probability (relations gr) = true ->
  let es := map edge_of (repaired (nodes gr) (relations gr)) in
  BuildFromSVM gr
  = Returns (mkGraph (nodes gr) (repaired (nodes gr) (relations gr)) es
                     (pcl_cloud gr) (normals gr),
             es, Z.of_nat (length es)).
Proof.
  intros He Hfit Hp es. rewrite BuildFromSVM_eq by assumption.
  rewrite emit_edges_ok by (now rewrite repaired_has_probability).
  rewrite He. cbn [app bind]. fold es.
  rewrite u32_small; [reflexivity|].
  unfold es, repaired. rewrite length_map, length_app, length_map.
  pose proof (unlinked_length (nodes gr) (relations gr)).
  unfold fits in Hfit. lia.
Qed.

(** X26: whatever edges the builder holds, BuildFromSVM returns them followed
    by the edges it emits.  Among the emitted edges every node of [1,N) has an
    edge from node 0 to it, and their number is the number of input relations
    plus the number of nodes of [1,N) that no input relation links as
    (id_0 = 0, id_1 = i).  On a builder that holds no edges this is the number
    of edges returned, and [num_edges]. *)
Theorem BuildFromSVM_star_and_emitted_count (gr : Graph) :
  fits (nodes gr) (relations gr) ->
  forallb has_probability (relations gr) = true ->
  exists gr' es n emitted miss,
    BuildFromSVM gr = Returns (gr', es, n) /\
    es = edges gr ++ emitted /\
    (forall i, 1 <= i < nodes gr -> exists e, In e emitted /\ a e = 0 /\ b e = i) /\
    NoDup miss /\
    (forall i, In i miss <->
               1 <= i < nodes gr /\
               ~ exists rl, In rl (relations gr) /\ id_0 rl = 0 /\ id_1 rl = i) /\
    length emitted = (length (relations gr) + length miss)%nat /\
    (length (relations gr) <= length emitted)%nat /\
    (edges gr = [] ->
     length es = (length (relations gr) + length miss)%nat /\
     n = Z.of_nat (length es)).
Proof.
  intros Hfit Hp. rewrite BuildFromSVM_eq by assumption.
  rewrite emit_edges_ok by (now rewrite repaired_has_probability). cbn [bind].
  eexists _, _, _, (map edge_of (repaired (nodes gr) (relations gr))),
          (unlinked (nodes gr) (relations gr)).
  split; [reflexivity|]. split; [reflexivity|].
  split; [|split; [|split; [|split; [|split]]]].
  - intros i Hi. destruct (links0 (relations gr) i) eqn:E.
    + apply links0_In in E. destruct E as (rl & Hin & H0 & H1).
      exists (edge_of rl). split; [|split; assumption].
      apply in_map. unfold repaired. apply in_or_app. now left.
    + exists (edge_of (synthetic i)). split; [|split; reflexivity].
      apply in_map. unfold repaired. apply in_or_app. right.
      apply in_map. apply unlinked_In. split; assumption.
  - apply unlinked_NoDup.
  - intros i. rewrite unlinked_In, <- links0_In.
    destruct (links0 (relations gr) i); split; intros [H1 H2]; split;
      auto; try discriminate; try congruence.
  - unfold repaired. now rewrite length_map, length_app, length_map.
  - unfold repaired. rewrite length_map, length_app. lia.
  - intros He. rewrite He. cbn [app].
    assert (Hlen : length (map edge_of (repaired (nodes gr) (relations gr)))
                   = (length (relations gr)
                      + length (unlinked (nodes gr) (relations gr)))%nat)
      by (unfold repaired; now rewrite length_map, length_app, length_map).
    split; [exact Hlen|].
    apply u32_small. rewrite Hlen.
    pose proof (unlinked_length (nodes gr) (relations gr)).
    unfold fits in Hfit. lia.
Qed.

Lemma BuildFromSVM_star_and_emitted_count_witness :
  exists gr' es n emitted miss,
    BuildFromSVM (Graph_of 3 [rel09]) = Returns (gr', es, n) /\
    es = [] ++ emitted /\
    (forall i, 1 <= i < 3 -> exists e, In e emitted /\ a e = 0 /\ b e = i) /\
    NoDup miss /\
    (forall i, In i miss <->
               1 <= i < 3 /\
               ~ exists rl, In rl [rel09] /\ id_0 rl = 0 /\ id_1 rl = i) /\
    length emitted = (1 + length miss)%nat /\
    (1 <= length emitted)%nat /\
    (@nil Edge = [] ->
     length es = (1 + length miss)%nat /\
     n = Z.of_nat (length es)).
Proof.
  apply (BuildFromSVM_star_and_emitted_count (Graph_of 3 [rel09])).
  - unfold fits. simpl. unfold UINT_MAX. lia.
  - reflexivity.
Defined.



(** C6, as the claim has it, fails: with a relation whose probability vector
    is empty the call is not rejected; the unchecked read is undefined
    behaviour. *)
Lemma C6_counterexample :
  forallb has_probability (relations (Graph_of 2 [rel_noprob])) = false /\
  BuildFromSVM (Graph_of 2 [rel_noprob]) = Undefined /\
  BuildFromSVM (Graph_of 2 [rel_noprob]) <> Throws.
Proof.
  split; [reflexivity|]. split; [reflexivity|]. discriminate.
Qed.

(** C6, amended: BuildFromSVM validates nothing and never signals an error.
    While the relation list stays within reach of the loop counters, the call
    returns exactly when every input relation has a non-empty probability
    vector; with an empty vector the read of entry 0 is out of bounds and the
    behaviour is undefined. *)
Theorem C6_no_validation (gr : Graph) :
  fits (nodes gr) (relations gr) ->
  BuildFromSVM gr <> Throws /\
  (forallb has_probability (relations gr) = false -> BuildFromSVM gr = Undefined) /\
  (forallb has_probability (relations gr) = true ->
   exists res, BuildFromSVM gr = Returns res).
Proof.
  intros Hfit. rewrite BuildFromSVM_eq by assumption.
  destruct (forallb has_probability (relations gr)) eqn:E.
  - rewrite emit_edges_ok by (now rewrite repaired_has_probability).
    cbn [bind]. split; [discriminate|]. split; [discriminate|]. eauto.
  - rewrite emit_edges_undefined by (now rewrite repaired_has_probability).
    cbn [bind]. split; [discriminate|]. split; [reflexivity|]. discriminate.
Qed.

Lemma C6_witness :
  BuildFromSVM (Graph_of 2 [rel_noprob]) <> Throws /\
  (forallb has_probability [rel_noprob] = false ->
   BuildFromSVM (Graph_of 2 [rel_noprob]) = Undefined) /\
  (forallb has_probability [rel_noprob] = true ->
   exists res, BuildFromSVM (Graph_of 2 [rel_noprob]) = Returns res).
Proof.
  apply (C6_no_validation (Graph_of 2 [rel_noprob])).
  unfold fits. simpl. unfold UINT_MAX. lia.
Defined.

(** BuildFromSVM appends to the edges the builder already holds. *)
Lemma BuildFromSVM_appends gr :
  fits (nodes gr) (relations gr) ->
  forallb has_probability (relations gr) = true ->
  exists gr' n,
    BuildFromSVM gr
    = Returns (gr', edges gr ++ map edge_of (repaired (nodes gr) (relations gr)), n).
Proof.
  intros Hfit Hp. rewrite BuildFromSVM_eq by assumption.
  rewrite emit_edges_ok by (now rewrite repaired_has_probability).
  cbn [bind]. eauto.
Qed.

(** C4 fails on BuildFromSVM: the function has no [edges.clear()].  A second
    call on the same builder returns the edge of the first call twice, while a
    fresh builder with the same nodes and relations returns it once. *)
Theorem C4_BuildFromSVM_keeps_previous_edges :
  let e01 := mkEdge 0 1 1 F32.one None in
  exists g1 g2 g3,
    BuildFromSVM (Graph_of 2 []) = Returns (g1, [e01], 1) /\
    BuildFromSVM g1 = Returns (g2, [e01; e01], 2) /\
    BuildFromSVM (Graph_of (nodes g1) (relations g1)) = Returns (g3, [e01], 1).
Proof.
  intros e01. eexists _, _, _.
  split; [reflexivity|]. split; reflexivity.
Qed.

(** C1 fails in the code on a builder that already holds edges, by the
    defect of C4: BuildFromSVM has no [edges.clear()].  With two nodes and the
    one relation (0,1), no node lacks a link, so the claim counts one edge;
    the first call returns one, a second call on the same builder returns
    two. *)
Theorem C1_count_includes_held_edges :
  exists g1 es1 n1 g2 es2 n2,
    BuildFromSVM (Graph_of 2 [rel09]) = Returns (g1, es1, n1) /\
    BuildFromSVM g1 = Returns (g2, es2, n2) /\
    (nodes g1 = 2 /\ relations g1 = [rel09] /\
     unlinked (nodes g1) (relations g1) = []) /\
    (length es1 = 1%nat /\ n1 = 1) /\
    (length es2 = 2%nat /\ n2 = 2 /\
     length es2 <> (length (relations g1)
                    + length (unlinked (nodes g1) (relations g1)))%nat).
Proof.
  eexists _, _, _, _, _, _.
  split; [reflexivity|]. split; [reflexivity|].
  split; [repeat split|]. split; [split; reflexivity|].
  split; [reflexivity|]. split; [reflexivity|]. cbn. discriminate.
Qed.

(** ** The geometry-based builder *)

Lemma cells_In wd ht col row :
  In (col, row) (cells wd ht) <-> 0 <= col < wd - 1 /\ 0 <= row < ht - 1.
Proof.
  unfold cells. rewrite in_flat_map. split.
  - intros (r0 & Hr & Hc). apply in_map_iff in Hc.
    destruct Hc as (c0 & Heq & Hc). inversion Heq; subst.
    apply zseq_In in Hr, Hc. lia.
  - intros [Hc Hr]. exists row. split.
    + apply zseq_In. lia.
    + apply in_map_iff. exists col. split; [reflexivity | apply zseq_In; lia].
Qed.

Lemma for_grid_mfold {St} (body : Z -> Z -> St -> outcome St) wd ht s :
  1 <= wd <= UINT_MAX -> 1 <= ht <= UINT_MAX ->
  for_grid wd ht body s = mfold (fun c => body (fst c) (snd c)) (cells wd ht) s.
Proof.
  intros Hw Hh. unfold for_grid, cells.
  rewrite !u32_small by lia. rewrite for_from_mfold.
  generalize (zseq 0 (Z.to_nat (ht - 1))) as rows. intros rows. revert s.
  induction rows as [|row rows IH]; intros s; cbn [mfold flat_map].
  - reflexivity.
  - rewrite mfold_app, mfold_map, for_from_mfold. cbn [fst snd].
    destruct (mfold (fun col s0 => body col row s0) (zseq 0 (Z.to_nat (wd - 1))) s);
      cbn [bind]; auto.
Qed.

Section Grid.

Variable acos : float -> float.
Variables (pts : list PointXYZRGB) (nms : list Normal) (wd ht : Z).
Hypothesis Hwd : 1 <= wd.
Hypothesis Hht : 1 <= ht.
Hypothesis Hlen : Z.of_nat (length pts) = wd * ht.
Hypothesis Hnms : length nms = length pts.
Hypothesis Hint : wd * ht < 2147483648.

Lemma cell_bounds col row :
    0 <= col < wd - 1 -> 0 <= row < ht - 1 ->
    0 <= GetIdx wd col row /\ GetIdx wd col row + wd + 1 < wd * ht.
Proof using All. unfold GetIdx. intros Hc Hr. split; nia. Qed.

Lemma pts_at i : 0 <= i < wd * ht -> at_ pts i = Returns (pt pts i).
Proof using All. intros H. apply at_nth. lia. Qed.

Lemma nms_at i : 0 <= i < wd * ht -> at_ nms i = Returns (nm nms i).
Proof using All. intros H. apply at_nth. lia. Qed.

Lemma depth_gate_eq i j :
    0 <= i < wd * ht -> 0 <= j < wd * ht ->
    depth_gate pts i j = Returns (gate pts i j).
Proof using All.
    intros Hi Hj. unfold depth_gate. rewrite !pts_at by assumption. reflexivity.
Qed.

Lemma normal_angle_eq i j :
    0 <= i < wd * ht -> 0 <= j < wd * ht ->
    normal_angle acos pts nms i j = Returns (angle acos pts nms i j).
Proof using All.
    intros Hi Hj. unfold normal_angle, angle. rewrite pts_at by assumption.
    cbn [bind]. destruct (isnan (z (pt pts i))); cbn [bind].
    - reflexivity.
    - rewrite !nms_at by assumption. reflexivity.
Qed.

Lemma color_cell_eq col row cd mx :
    0 <= col < wd - 1 -> 0 <= row < ht - 1 ->
    color_cell pts wd col row (cd, mx)
    = Returns (cd_write cd (GetIdx wd col row) (cell_dists pts wd col row),
               max_over (cell_tracked pts wd (col, row)) mx).
Proof using All.
    intros Hc Hr. destruct (cell_bounds col row Hc Hr) as [H0 H1].
    unfold color_cell, cell_tracked, cell_dists. cbv zeta.
    unfold UINT_MAX in *.
    rewrite !u32_small by (unfold UINT_MAX; lia).
    rewrite !pts_at by lia. cbn [bind].
    destruct (col =? 0); cbn [negb bind max_over fold_left]; reflexivity.
Qed.

Lemma GetIdx_inj c1 r1 c2 r2 :
    0 <= c1 < wd - 1 -> 0 <= c2 < wd - 1 ->
    GetIdx wd c1 r1 = GetIdx wd c2 r2 -> c1 = c2 /\ r1 = r2.
Proof using All.
    unfold GetIdx. intros H1 H2 E.
    assert (Ec : c1 = c2).
    { apply (f_equal (fun x => x mod wd)) in E.
      rewrite (Z.add_comm (r1 * wd)), (Z.add_comm (r2 * wd)) in E.
      rewrite !Z.mod_add, !Z.mod_small in E by lia. exact E. }
    split; [exact Ec|]. subst c2.
    apply (Z.mul_cancel_r r1 r2 wd); lia.
Qed.

Lemma color_pass cs :
    forall cd mx,
      (forall c, In c cs -> In c (cells wd ht)) ->
      exists cd',
        mfold (fun c => color_cell pts wd (fst c) (snd c)) cs (cd, mx)
        = Returns (cd', max_over (flat_map (cell_tracked pts wd) cs) mx) /\
        (forall col row, In (col, row) cs ->
           cd' (GetIdx wd col row) = Some (cell_dists pts wd col row)) /\
        (forall col row, In (col, row) (cells wd ht) ->
           cd (GetIdx wd col row) = Some (cell_dists pts wd col row) ->
           cd' (GetIdx wd col row) = Some (cell_dists pts wd col row)).
Proof using All.
    induction cs as [|[col row] cs IH]; intros cd mx Hin.
    - exists cd. cbn. split; [reflexivity|]. split; [intros ? ? []|auto].
    - assert (Hc : In (col, row) (cells wd ht)) by (apply Hin; now left).
      apply cells_In in Hc. destruct Hc as [Hc Hr].
      cbn [mfold fst snd]. rewrite color_cell_eq by assumption. cbn [bind].
      destruct (IH (cd_write cd (GetIdx wd col row) (cell_dists pts wd col row))
                   (max_over (cell_tracked pts wd (col, row)) mx))
        as (cd' & Hrun & Hnew & Hold).
      { intros c Hcin. apply Hin. now right. }
      exists cd'. split; [|split].
      + rewrite Hrun. cbn [flat_map]. unfold max_over.
        now rewrite fold_left_app.
      + intros col' row' [Heq | Hin'].
        * inversion Heq; subst. apply Hold.
          -- apply cells_In. auto.
          -- unfold cd_write. now rewrite Z.eqb_refl.
        * now apply Hnew.
      + intros col' row' Hcell Hcd. apply Hold; [assumption|].
        unfold cd_write.
        destruct (Z.eqb_spec (GetIdx wd col' row') (GetIdx wd col row)) as [E|E];
          [|assumption].
        apply cells_In in Hcell.
        apply GetIdx_inj in E; try tauto. destruct E; subst. reflexivity.
Qed.

Lemma col_mod col row :
    0 <= col < wd - 1 -> 0 <= row < ht - 1 ->
    (u32 (GetIdx wd col row) mod wd =? 0) = (col =? 0).
Proof using All.
    intros Hc Hr. destruct (cell_bounds col row Hc Hr) as [H0 H1].
    rewrite u32_small by (unfold UINT_MAX; lia).
    unfold GetIdx. rewrite Z.add_comm, Z.mod_add by lia.
    rewrite Z.mod_small by lia. reflexivity.
Qed.

Lemma edge_cell_eq cd mx col row es :
    0 <= col < wd - 1 -> 0 <= row < ht - 1 ->
    cd (GetIdx wd col row) = Some (cell_dists pts wd col row) ->
    edge_cell acos pts nms wd cd mx col row es
    = Returns (es ++ cell_out acos pts nms wd mx (col, row)).
Proof using All.
    intros Hc Hr Hcd. destruct (cell_bounds col row Hc Hr) as [H0 H1].
    unfold edge_cell. cbv zeta. unfold cd_read. rewrite Hcd. cbn [bind].
    rewrite col_mod by assumption.
    rewrite !u32_small by (unfold UINT_MAX; lia).
    unfold cell_out, directions, dir_out, dir_edge, neighbour. cbn [flat_map].
    destruct (cell_dists pts wd col row) as [[[d0 d1] d2] d3].
    rewrite !normal_angle_eq, !depth_gate_eq by lia. cbn [bind].
    destruct (Z.eqb_spec wd 0) as [E|_]; [lia|].
    destruct (col =? 0); cbn [negb].
    - cbn [bind].
      cbv [push_if set_a set_b set_type set_w set_w2 a b type w w2].
      destruct (gate pts (GetIdx wd col row) (GetIdx wd col row + 1));
        destruct (gate pts (GetIdx wd col row) (GetIdx wd col row + wd));
        destruct (gate pts (GetIdx wd col row) (GetIdx wd col row + wd + 1));
        destruct (gate pts (GetIdx wd col row) (GetIdx wd col row + wd - 1));
        cbn [app]; rewrite <- ?app_assoc, ?app_nil_r; reflexivity.
    - cbn [bind].
      cbv [push_if set_a set_b set_type set_w set_w2 a b type w w2].
      destruct (gate pts (GetIdx wd col row) (GetIdx wd col row + 1));
        destruct (gate pts (GetIdx wd col row) (GetIdx wd col row + wd));
        destruct (gate pts (GetIdx wd col row) (GetIdx wd col row + wd + 1));
        destruct (gate pts (GetIdx wd col row) (GetIdx wd col row + wd - 1));
        cbn [app]; rewrite <- ?app_assoc, ?app_nil_r; reflexivity.
Qed.

Lemma edge_pass cd mx cs :
    (forall col row, In (col, row) (cells wd ht) ->
       cd (GetIdx wd col row) = Some (cell_dists pts wd col row)) ->
    forall es,
      (forall c, In c cs -> In c (cells wd ht)) ->
      mfold (fun c => edge_cell acos pts nms wd cd mx (fst c) (snd c)) cs es
      = Returns (es ++ flat_map (cell_out acos pts nms wd mx) cs).
Proof using All.
    intros Hcd. induction cs as [|[col row] cs IH]; intros es Hin.
    - cbn. now rewrite app_nil_r.
    - assert (Hc : In (col, row) (cells wd ht)) by (apply Hin; now left).
      cbn [mfold fst snd flat_map].
      pose proof Hc as Hc'. apply cells_In in Hc'. destruct Hc' as [Hcol Hrow].
      rewrite edge_cell_eq by auto. cbn [bind].
      rewrite IH by (intros c Hcin; apply Hin; now right).
      now rewrite <- app_assoc.
Qed.

Lemma curv_loop n :
    forall i s, 0 <= i -> i + Z.of_nat n <= wd * ht ->
                exists v, for_from i n (curv_step pts nms) s = Returns v.
Proof using All.
    induction n as [|n IH]; intros i s Hi Hn; cbn [for_from].
    - eauto.
    - unfold curv_step at 1. rewrite pts_at by lia. cbn [bind].
      destruct (negb (isnan (z (pt pts i)))).
      + rewrite nms_at by lia. cbn [bind]. apply IH; lia.
      + cbn [bind]. apply IH; lia.
Qed.

Lemma max_curvature_returns :
    exists v, max_curvature pts nms = Returns v.
Proof using All.
    unfold max_curvature. rewrite usize_fits by (unfold UINT_MAX; lia).
    cbn [bind]. apply curv_loop; lia.
Qed.

End Grid.

(** The geometry-based builder in closed form: on a well-formed grid the call
    returns, drops whatever edges the builder held, and produces the gated
    edges of all cells, row by row, direction by direction. *)
Lemma BuildFromPointCloud_eq acos cloud nms gr :
  grid_ok cloud nms ->
  let es := grid_edges acos (points cloud) (points nms) (width cloud) (height cloud) in
  BuildFromPointCloud acos cloud nms gr
  = Returns (mkGraph (nodes gr) (relations gr) es (Some cloud) (Some nms),
             es, u32 (Z.of_nat (length es))).
Proof.
  intros (Hwd & Hht & Hlen & Hnms & Hint) es.
  unfold BuildFromPointCloud. cbv zeta.
  destruct (max_curvature_returns acos (points cloud) (points nms) (width cloud)
              (height cloud) Hwd Hht Hlen Hnms Hint) as [v ->].
  cbn [bind].
  assert (Hw : 1 <= width cloud <= UINT_MAX) by (unfold UINT_MAX; nia).
  assert (Hh : 1 <= height cloud <= UINT_MAX) by (unfold UINT_MAX; nia).
  rewrite !for_grid_mfold by assumption.
  destruct (color_pass acos (points cloud) (points nms) (width cloud) (height cloud)
              Hwd Hht Hlen Hnms Hint (cells (width cloud) (height cloud))
              cd_empty F32.zero (fun c H => H))
    as (cd' & -> & Hnew & _).
  cbn [bind]. rewrite for_grid_mfold by assumption.
  rewrite (edge_pass acos (points cloud) (points nms) (width cloud) (height cloud)
             Hwd Hht Hlen Hnms Hint) by auto.
  reflexivity.
Qed.

(** The geometry-based builder starts from [edges.clear()]: what it returns
    does not depend on the builder it is called on. *)
Lemma BuildFromPointCloud_discards_edges acos cloud nms g1 g2 :
  grid_ok cloud nms ->
  exists st1 st2 es n,
    BuildFromPointCloud acos cloud nms g1 = Returns (st1, es, n) /\
    BuildFromPointCloud acos cloud nms g2 = Returns (st2, es, n) /\
    edges st1 = es /\ edges st2 = es.
Proof.
  intros Hok. eexists _, _, _, _.
  split; [apply BuildFromPointCloud_eq; assumption|].
  split; [apply BuildFromPointCloud_eq; assumption|].
  split; reflexivity.
Qed.

Lemma grid_edges_In acos pts nms wd ht e :
  In e (grid_edges acos pts nms wd ht) <->
  exists col row d,
    In (col, row) (cells wd ht) /\
    gate pts (GetIdx wd col row) (neighbour wd (GetIdx wd col row) d) = true /\
    e = dir_edge acos pts nms wd (max_color_of pts wd ht) col row d.
Proof.
  unfold grid_edges. rewrite in_flat_map. split.
  - intros ([col row] & Hc & He). unfold cell_out in He.
    apply in_flat_map in He. destruct He as (d & _ & He).
    unfold dir_out in He.
    destruct (gate pts (GetIdx wd col row) (neighbour wd (GetIdx wd col row) d)) eqn:G;
      [|destruct He].
    destruct He as [<- | []]. exists col, row, d. auto.
  - intros (col & row & d & Hc & G & ->). exists (col, row). split; [assumption|].
    unfold cell_out. apply in_flat_map. exists d. split.
    + unfold directions. destruct d; simpl; auto.
    + unfold dir_out. rewrite G. now left.
Qed.

Lemma dir_edge_a acos pts nms wd mx col row d :
  a (dir_edge acos pts nms wd mx col row d) = GetIdx wd col row.
Proof.
  unfold dir_edge. destruct (cell_dists pts wd col row) as [[[d0 d1] d2] d3].
  destruct d; try reflexivity. destruct (col =? 0); reflexivity.
Qed.

Lemma gate_nan pts i j : isnan (z (pt pts i)) = true -> gate pts i j = false.
Proof. unfold gate. intros ->. reflexivity. Qed.

(** C2: BuildFromPointCloud visits the cells with col < width-1 and
    row < height-1; for each cell and each of the four directions the edge of
    that direction is appended exactly when both depths are valid and
    |z_0 - z_1| < z_adapt * z_0 with z_adapt = 0.01, the neighbour of the
    bottom-left direction being idx + width - 1 also at col = 0.  A point with
    invalid depth has none of its four edges in the output. *)
Theorem C2_depth_gate acos cloud nms gr :
  grid_ok cloud nms ->
  let pts := points cloud in
  let wd := width cloud in
  let ht := height cloud in
  exists gr' es n,
    BuildFromPointCloud acos cloud nms gr = Returns (gr', es, n) /\
    (forall col row,
        In (col, row) (cells wd ht) <-> 0 <= col < wd - 1 /\ 0 <= row < ht - 1) /\
    es = flat_map
           (fun c =>
              flat_map
                (fun d =>
                   let idx := GetIdx wd (fst c) (snd c) in
                   let z_0 := z (pt pts idx) in
                   let z_1 := z (pt pts (neighbour wd idx d)) in
                   if negb (isnan z_0) && negb (isnan z_1)
                      && F32.ltb (fabs (F32.sub z_0 z_1)) (F32.mul z_adapt z_0)
                   then [dir_edge acos pts (points nms) wd (max_color_of pts wd ht)
                                  (fst c) (snd c) d]
                   else [])
                directions)
           (cells wd ht) /\
    neighbour wd (GetIdx wd 0 0) BottomLeft = GetIdx wd 0 0 + wd - 1 /\
    z_adapt = F32.round F64.c0_01 /\
    (forall col row,
        In (col, row) (cells wd ht) ->
        isnan (z (pt pts (GetIdx wd col row))) = true ->
        cell_out acos pts (points nms) wd (max_color_of pts wd ht) (col, row) = [] /\
        forall e, In e es -> a e <> GetIdx wd col row).
Proof.
  intros Hok pts wd ht. pose proof Hok as (Hwd & Hht & Hlen & Hnms & Hint).
  eexists _, _, _. split; [apply BuildFromPointCloud_eq; assumption|].
  split; [intros; apply cells_In|].
  split; [|split; [reflexivity|split; [reflexivity|]]].
  - unfold grid_edges. apply flat_map_ext. intros [col row].
    unfold cell_out. apply flat_map_ext. intros d. reflexivity.
  - intros col row Hc Hnan. split.
    + unfold cell_out, directions, dir_out. cbn [flat_map].
      now rewrite !gate_nan by assumption.
    + intros e He Ha. apply grid_edges_In in He.
      destruct He as (col' & row' & d & Hc' & G & ->).
      rewrite dir_edge_a in Ha.
      apply cells_In in Hc, Hc'.
      apply (GetIdx_inj acos pts (points nms) wd ht Hwd Hht Hlen Hnms Hint) in Ha;
        try tauto.
      destruct Ha; subst.
      rewrite gate_nan in G by assumption. discriminate.
Qed.

Lemma grid_ok_32 : grid_ok cloud32 nms32.
Proof. unfold grid_ok. simpl. repeat split; try reflexivity; lia. Qed.

Lemma C2_witness :
  exists gr' es n,
    BuildFromPointCloud acos_coarse cloud32 nms32 Graph_default = Returns (gr', es, n) /\
    length es = 8%nat.
Proof.
  destruct (C2_depth_gate acos_coarse cloud32 nms32 Graph_default grid_ok_32)
    as (gr' & es & n & Hrun & _ & Hes & _).
  exists gr', es, n. split; [exact Hrun|].
  rewrite Hes. reflexivity.
Defined.

(** What the visit of a cell in column 0 adds to the output: three gated
    edges, then the record of the bottom-right block with only its weight
    replaced, gated on the point at [idx + width - 1]. *)
Lemma col0_split acos pts nms wd ht row :
  0 < wd - 1 -> 0 <= row < ht - 1 ->
  let idx := GetIdx wd 0 row in
  let mx := max_color_of pts wd ht in
  exists before after,
    grid_edges acos pts nms wd ht
    = before
        ++ (dir_out acos pts nms wd mx (0, row) Right
              ++ dir_out acos pts nms wd mx (0, row) Bottom
              ++ dir_out acos pts nms wd mx (0, row) BottomRight
              ++ (if gate pts idx (idx + wd - 1)
                  then [set_w (dir_edge acos pts nms wd mx 0 row BottomRight) F32.one]
                  else []))
        ++ after.
Proof.
  intros Hw Hr idx mx.
  assert (Hc : In (0, row) (cells wd ht)) by (apply cells_In; lia).
  apply in_split in Hc. destruct Hc as (l1 & l2 & Hc).
  exists (flat_map (cell_out acos pts nms wd mx) l1),
         (flat_map (cell_out acos pts nms wd mx) l2).
  unfold grid_edges. fold mx. rewrite Hc, flat_map_app. cbn [flat_map].
  f_equal. f_equal.
  unfold cell_out, directions. cbn [flat_map]. rewrite app_nil_r.
  do 3 f_equal.
Qed.





Lemma dir_edge_Right acos pts nms wd mx col row :
  dir_edge acos pts nms wd mx col row Right
  = mkEdge (GetIdx wd col row) (GetIdx wd col row + 1) 1
           (F32.div (color_distance (pt pts (GetIdx wd col row))
                                    (pt pts (GetIdx wd col row + 1))) mx)
           (Some (angle acos pts nms (GetIdx wd col row) (GetIdx wd col row + 1))).
Proof. reflexivity. Qed.

(** C7 fails in the code: [e.w = color_dist[idx][k] / max_color] has no guard.
    On the uniformly coloured 3 x 2 grid the global maximum stays 0 and the
    right edge of the first cell gets the weight 0/0, a NaN, whatever [acos]
    is. *)
Theorem C7_division_by_zero_weight acos :
  exists gr' es n,
    BuildFromPointCloud acos cloud32 nms32 Graph_default = Returns (gr', es, n) /\
    max_color_of (points cloud32) (width cloud32) (height cloud32) = S754_zero false /\
    F32.div (S754_zero false) (S754_zero false) = S754_nan /\
    Exists (fun e => a e = 0 /\ b e = 1 /\ w e = S754_nan) es.
Proof.
  eexists _, _, _.
  split; [apply BuildFromPointCloud_eq, grid_ok_32|].
  split; [vm_compute; reflexivity|].
  split; [reflexivity|].
  apply Exists_exists. eexists. split.
  - apply grid_edges_In. exists 0, 0, Right.
    split; [left; reflexivity|]. split; [|reflexivity]. vm_compute. reflexivity.
  - rewrite dir_edge_Right. cbn [a b w].
    split; [reflexivity|]. split; [reflexivity|]. vm_compute. reflexivity.
Qed.

(** C9, as the claim has it, fails: the uniform 3 x 2 grid yields 8 edges, not
    4, and their weights are not 0. *)
Lemma C9_counterexample :
  exists gr' es n,
    BuildFromPointCloud acos_coarse cloud32 nms32 Graph_default = Returns (gr', es, n) /\
    length es = 8%nat /\ length es <> 4%nat /\ n = 8 /\
    Forall (fun e => w e <> S754_zero false) es.
Proof.
  eexists _, _, _.
  split; [apply BuildFromPointCloud_eq, grid_ok_32|].
  vm_compute. split; [reflexivity|]. split; [discriminate|]. split; [reflexivity|].
  repeat constructor; discriminate.
Qed.

Lemma gate_level pts i j :
  z (pt pts i) = F32.one -> z (pt pts j) = F32.one -> gate pts i j = true.
Proof. unfold gate. intros -> ->. reflexivity. Qed.

Lemma dir_edge_w2 acos pts nms wd mx col row d :
  exists j, w2 (dir_edge acos pts nms wd mx col row d)
            = Some (angle acos pts nms (GetIdx wd col row) j) /\
            (j = GetIdx wd col row + 1 \/ j = GetIdx wd col row + wd \/
             j = GetIdx wd col row + wd + 1 \/ j = GetIdx wd col row + wd - 1).
Proof.
  unfold dir_edge. destruct (cell_dists pts wd col row) as [[[d0 d1] d2] d3].
  destruct d; try (eexists; split; [reflexivity | tauto]).
  destruct (col =? 0); eexists; (split; [reflexivity | tauto]).
Qed.

(** C9, amended: on a 3 x 2 grid whose points all have z = 1.0 and whose
    normals are all the same vector, BuildFromPointCloud with z_adapt = 0.01
    returns exactly 8 edges, four for each of the two visited cells; every
    edge carries the same w2, the angle of the normal with itself, which is 0
    when the dot product of the normal with itself is exactly 1 and
    acos(1) = 0; the bottom-left edge of the cell in column 0 has w = 1.0. *)
Theorem C9_uniform_grid_3x2 acos pts nms v :
  length pts = 6%nat -> Forall (fun q => z q = F32.one) pts ->
  length nms = 6%nat -> Forall (fun m => normal m = v) nms ->
  let self := F32.round (acos (F64.round (Dot3 v v))) in
  exists gr' es,
    BuildFromPointCloud acos (mkCloud pts 3 2) (mkCloud nms 3 2) Graph_default
    = Returns (gr', es, 8) /\
    length es = 8%nat /\
    Forall (fun e => w2 e = Some (if isnan (acos (F64.round (Dot3 v v)))
                                  then sentinel else self)) es /\
    (Dot3 v v = F32.one -> acos d_one = S754_zero false ->
     Forall (fun e => w2 e = Some (S754_zero false)) es) /\
    (exists e, nth_error es 3 = Some e /\ a e = 0 /\ b e = 4 /\ w e = F32.one).
Proof.
  intros Hlp Hzp Hln Hvn self.
  assert (Hok : grid_ok (mkCloud pts 3 2) (mkCloud nms 3 2)).
  { unfold grid_ok. cbn [points width height]. rewrite Hlp, Hln.
    repeat split; try reflexivity; lia. }
  assert (Hz : forall i, 0 <= i < 6 -> z (pt pts i) = F32.one).
  { intros i Hi. unfold pt. rewrite Forall_forall in Hzp. apply Hzp.
    apply nth_In. lia. }
  assert (Hn : forall i, 0 <= i < 6 -> normal (nm nms i) = v).
  { intros i Hi. unfold nm. rewrite Forall_forall in Hvn. apply Hvn.
    apply nth_In. lia. }
  assert (Hang : forall i j, 0 <= i < 6 -> 0 <= j < 6 ->
             angle acos pts nms i j
             = if isnan (acos (F64.round (Dot3 v v))) then sentinel else self).
  { intros i j Hi Hj. unfold angle. rewrite Hz, !Hn by assumption.
    cbn [isnan F32.one]. destruct (isnan (acos (F64.round (Dot3 v v)))); reflexivity. }
  assert (Hall : Forall (fun e => w2 e = Some (if isnan (acos (F64.round (Dot3 v v)))
                                             then sentinel else self))
                        (grid_edges acos pts nms 3 2)).
  { apply Forall_forall. intros e He. apply grid_edges_In in He.
    destruct He as (col & row & d & Hc & _ & ->). apply cells_In in Hc.
    destruct (dir_edge_w2 acos pts nms 3 (max_color_of pts 3 2) col row d)
      as (j & -> & Hj).
    unfold GetIdx in *. rewrite Hang by lia. reflexivity. }
  assert (Hes : grid_edges acos pts nms 3 2
                = [dir_edge acos pts nms 3 (max_color_of pts 3 2) 0 0 Right;
                   dir_edge acos pts nms 3 (max_color_of pts 3 2) 0 0 Bottom;
                   dir_edge acos pts nms 3 (max_color_of pts 3 2) 0 0 BottomRight;
                   dir_edge acos pts nms 3 (max_color_of pts 3 2) 0 0 BottomLeft;
                   dir_edge acos pts nms 3 (max_color_of pts 3 2) 1 0 Right;
                   dir_edge acos pts nms 3 (max_color_of pts 3 2) 1 0 Bottom;
                   dir_edge acos pts nms 3 (max_color_of pts 3 2) 1 0 BottomRight;
                   dir_edge acos pts nms 3 (max_color_of pts 3 2) 1 0 BottomLeft]).
  { unfold grid_edges. change (cells 3 2) with [(0, 0); (1, 0)].
    unfold cell_out, directions, dir_out, neighbour, GetIdx. cbn [flat_map].
    rewrite !gate_level by (apply Hz; lia). reflexivity. }
  rewrite Hes in Hall.
  eexists _, _.
  split; [rewrite BuildFromPointCloud_eq by exact Hok; cbn [points width height];
          rewrite Hes; reflexivity|].
  split; [reflexivity|].
  split; [exact Hall|]. split.
  - intros Hdot Hacos. revert Hall. apply Forall_impl. intros e ->.
    unfold self. rewrite Hdot. change (F64.round F32.one) with d_one.
    rewrite Hacos. reflexivity.
  - eexists. split; [reflexivity|].
    unfold dir_edge. destruct (cell_dists pts 3 0 0) as [[[d0 d1] d2] d3].
    cbn [Z.eqb a b w]. auto.
Qed.

Lemma C9_witness :
  exists gr' es,
    BuildFromPointCloud acos_coarse cloud32 nms32 Graph_default = Returns (gr', es, 8) /\
    length es = 8%nat /\
    Forall (fun e => w2 e = Some (S754_zero false)) es.
Proof.
  destruct (C9_uniform_grid_3x2 acos_coarse (repeat pt1 6) (repeat nm1 6)
              (F32.zero, F32.zero, F32.one))
    as (gr' & es & Hrun & Hlen & _ & Hzero & _).
  - reflexivity.
  - repeat constructor.
  - reflexivity.
  - repeat constructor.
  - exists gr', es. split; [exact Hrun|]. split; [exact Hlen|].
    apply Hzero; reflexivity.
Defined.

(** ** Facts on IEEE rounding *)

Lemma Zdigits2_log2 m : 0 < m -> Zdigits2 m = Z.log2 m + 1.
Proof.
  destruct m as [|p|p]; try lia. intros _. simpl.
  induction p as [p IH|p IH|]; cbn [digits2_pos Z.log2 Pos.size].
  - rewrite Pos2Z.inj_succ, IH. destruct p; simpl; lia.
  - rewrite Pos2Z.inj_succ, IH. destruct p; simpl; lia.
  - reflexivity.
Qed.

Lemma Zdigits2_nonneg m : 0 <= m -> 0 <= Zdigits2 m.
Proof. destruct m; simpl; lia. Qed.

Lemma Zdigits2_bounds m :
  0 < m -> 2 ^ (Zdigits2 m - 1) <= m < 2 ^ Zdigits2 m.
Proof.
  intros H. rewrite Zdigits2_log2 by assumption.
  replace (Z.log2 m + 1 - 1) with (Z.log2 m) by lia.
  apply Z.log2_spec. assumption.
Qed.

Lemma Zdigits2_unique m d :
  0 < d -> 2 ^ (d - 1) <= m < 2 ^ d -> Zdigits2 m = d.
Proof.
  intros Hd H. assert (0 < m) by (pose proof (Z.pow_pos_nonneg 2 (d - 1)); lia).
  rewrite Zdigits2_log2 by assumption.
  rewrite (Z.log2_unique m (d - 1)); try lia.
  replace (Z.succ (d - 1)) with d by lia. assumption.
Qed.

Lemma Zdigits2_le m d : 0 <= m -> 0 <= d -> m < 2 ^ d -> Zdigits2 m <= d.
Proof.
  intros Hm Hd H. destruct (Z.eq_dec m 0) as [->|Hz]; [simpl; lia|].
  rewrite Zdigits2_log2 by lia.
  assert (Z.log2 m < d) by (apply Z.log2_lt_pow2; lia). lia.
Qed.

Lemma Zdigits2_ge m d : 0 < d -> 2 ^ (d - 1) <= m -> d <= Zdigits2 m.
Proof.
  intros Hd H. assert (0 < m) by (pose proof (Z.pow_pos_nonneg 2 (d - 1)); lia).
  rewrite Zdigits2_log2 by lia.
  assert (d - 1 <= Z.log2 m) by (apply Z.log2_le_pow2; lia). lia.
Qed.

Lemma Zdigits2_div_pow2 m n :
  0 < m -> 0 <= n < Zdigits2 m -> Zdigits2 (m / 2 ^ n) = Zdigits2 m - n.
Proof.
  intros Hm Hn. pose proof (Zdigits2_bounds m Hm) as [Hlo Hhi].
  assert (Hp : 0 < 2 ^ n) by (apply Z.pow_pos_nonneg; lia).
  apply Zdigits2_unique; [lia|]. split.
  - apply Z.div_le_lower_bound; [lia|].
    rewrite <- Z.pow_add_r by lia. replace (n + (Zdigits2 m - n - 1)) with (Zdigits2 m - 1) by lia.
    assumption.
  - apply Z.div_lt_upper_bound; [lia|].
    rewrite <- Z.pow_add_r by lia. replace (n + (Zdigits2 m - n)) with (Zdigits2 m) by lia.
    assumption.
Qed.

Lemma div_pow2_small m n : 0 <= m -> Zdigits2 m <= n -> m / 2 ^ n = 0.
Proof.
  intros Hm Hn. destruct (Z.eq_dec m 0) as [->|Hz]; [apply Z.div_0_l; pose proof (Z.pow_pos_nonneg 2 n); pose proof (Zdigits2_nonneg 0); simpl in *; lia|].
  apply Z.div_small. split; [lia|].
  pose proof (Zdigits2_bounds m ltac:(lia)) as [_ Hhi].
  pose proof (Zdigits2_nonneg m Hm).
  assert (2 ^ Zdigits2 m <= 2 ^ n) by (apply Z.pow_le_mono_r; lia). lia.
Qed.

(** One step of the shift. *)
Lemma shr_1_spec mrs :
  0 <= shr_m mrs ->
  shr_m (shr_1 mrs) = shr_m mrs / 2 /\
  exact_rec (shr_1 mrs) = exact_rec mrs && (shr_m mrs mod 2 =? 0).
Proof.
  destruct mrs as [m r s]. cbn [shr_m]. intros Hm.
  destruct m as [|p|p]; [| |lia].
  - simpl. split; [reflexivity|]. unfold exact_rec. simpl.
    destruct r, s; reflexivity.
  - destruct p as [p|p|].
    + cbn [shr_1 shr_m]. split.
      * rewrite Pos2Z.inj_xI. apply Z.div_unique with 1; lia.
      * unfold exact_rec. cbn [shr_r shr_s negb andb].
        rewrite Pos2Z.inj_xI.
        replace ((2 * Z.pos p + 1) mod 2) with 1; [now rewrite andb_false_r|].
        apply Z.mod_unique with (Z.pos p); lia.
    + cbn [shr_1 shr_m]. split.
      * rewrite Pos2Z.inj_xO. apply Z.div_unique with 0; lia.
      * unfold exact_rec. cbn [shr_r shr_s negb andb].
        rewrite Pos2Z.inj_xO.
        replace ((2 * Z.pos p) mod 2) with 0.
        -- destruct r, s; reflexivity.
        -- apply Z.mod_unique with (Z.pos p); lia.
    + cbn. split; [reflexivity|]. unfold exact_rec. simpl. now rewrite andb_false_r.
Qed.

Lemma iter_pos_nat {A} (f : A -> A) p :
  forall x, iter_pos f p x = Nat.iter (Pos.to_nat p) f x.
Proof.
  induction p as [p IH|p IH|]; intros x; cbn [iter_pos].
  - rewrite !IH, Pos2Nat.inj_xI.
    replace (S (2 * Pos.to_nat p)) with (Pos.to_nat p + S (Pos.to_nat p))%nat by lia.
    rewrite Nat.iter_add, Nat.iter_succ_r. reflexivity.
  - rewrite !IH, Pos2Nat.inj_xO.
    replace (2 * Pos.to_nat p)%nat with (Pos.to_nat p + Pos.to_nat p)%nat by lia.
    rewrite Nat.iter_add. reflexivity.
  - reflexivity.
Qed.

Lemma shr_iter_spec k :
  forall mrs,
    0 <= shr_m mrs ->
    shr_m (Nat.iter k shr_1 mrs) = shr_m mrs / 2 ^ Z.of_nat k /\
    exact_rec (Nat.iter k shr_1 mrs)
    = exact_rec mrs && (shr_m mrs mod 2 ^ Z.of_nat k =? 0).
Proof.
  induction k as [|k IH]; intros mrs Hm.
  - cbn [Nat.iter]. change (2 ^ Z.of_nat 0) with 1.
    rewrite Z.div_1_r, Z.mod_1_r. now rewrite andb_true_r.
  - rewrite Nat.iter_succ.
    destruct (IH mrs Hm) as [IHm IHe].
    assert (Hp : 0 < 2 ^ Z.of_nat k) by (apply Z.pow_pos_nonneg; lia).
    assert (Hk : 0 <= shr_m (Nat.iter k shr_1 mrs)).
    { rewrite IHm. apply Z.div_pos; lia. }
    destruct (shr_1_spec _ Hk) as [Sm Se].
    rewrite Sm, Se, IHm, IHe.
    rewrite Nat2Z.inj_succ, Z.pow_succ_r by lia.
    split.
    + rewrite Z.div_div by lia. f_equal. lia.
    + rewrite <- andb_assoc. f_equal.
      rewrite (Z.mul_comm 2), Z.rem_mul_r by lia.
      pose proof (Z.mod_pos_bound (shr_m mrs) (2 ^ Z.of_nat k) Hp).
      pose proof (Z.mod_pos_bound (shr_m mrs / 2 ^ Z.of_nat k) 2 ltac:(lia)).
      destruct (Z.eqb_spec (shr_m mrs mod 2 ^ Z.of_nat k) 0) as [E0|E0];
        destruct (Z.eqb_spec ((shr_m mrs / 2 ^ Z.of_nat k) mod 2) 0) as [E1|E1];
        cbn [andb]; symmetry; [apply Z.eqb_eq | apply Z.eqb_neq ..]; nia.
Qed.

(** [shr] drops [n] digits, and its record is exact when the input record was
    and the dropped digits were zeros. *)
Lemma shr_spec mrs e n :
  0 <= shr_m mrs -> 0 <= n ->
  let '(mrs', e') := shr mrs e n in
  e' = e + n /\
  shr_m mrs' = shr_m mrs / 2 ^ n /\
  exact_rec mrs' = exact_rec mrs && (shr_m mrs mod 2 ^ n =? 0).
Proof.
  intros Hm Hn. unfold shr. destruct n as [|p|p]; [| |lia].
  - change (2 ^ 0) with 1. rewrite Z.div_1_r, Z.mod_1_r, andb_true_r.
    repeat split; try reflexivity; lia.
  - rewrite iter_pos_nat.
    destruct (shr_iter_spec (Pos.to_nat p) mrs Hm) as [H1 H2].
    rewrite positive_nat_Z in H1, H2. auto.
Qed.

Lemma round_nearest_even_range m l :
  m <= round_nearest_even m l <= m + 1.
Proof.
  unfold round_nearest_even. destruct l as [|[]]; try lia.
  destruct (Z.even m); lia.
Qed.

Lemma loc_of_shr_record_exact mrs :
  exact_rec mrs = true -> loc_of_shr_record mrs = loc_Exact.
Proof. destruct mrs as [m [] []]; simpl; unfold exact_rec; simpl; congruence. Qed.

Lemma shr_record_of_loc_m m l : shr_m (shr_record_of_loc m l) = m.
Proof. destruct l as [|[]]; reflexivity. Qed.

Lemma iter_xO m d : Z.pos (Pos.iter xO m d) = Z.pos m * 2 ^ Z.pos d.
Proof.
  rewrite (Pos.iter_swap_gen _ _ Z.pos xO (Z.mul 2)) by reflexivity.
  rewrite <- Z.shiftl_mul_pow2 by lia. reflexivity.
Qed.

Lemma shl_align_spec mx ex ex' :
  let '(mz, ez) := shl_align mx ex ex' in
  ez <= ex /\ ez <= ex' /\ (ex' <= ex -> ez = ex') /\ (ex <= ex' -> ez = ex) /\
  Z.pos mz = Z.pos mx * 2 ^ (ex - ez) /\
  Zdigits2 (Z.pos mz) + ez = Zdigits2 (Z.pos mx) + ex.
Proof.
  unfold shl_align. destruct (ex' - ex) as [|d|d] eqn:E.
  - replace (ex - ex) with 0 by lia. repeat split; try lia.
  - replace (ex - ex) with 0 by lia. repeat split; try lia.
  - assert (Hd : ex - ex' = Z.pos d) by lia. rewrite Hd.
    repeat split; try lia.
    + apply iter_xO.
    + rewrite iter_xO, !Zdigits2_log2 by lia.
      rewrite Z.log2_mul_pow2 by lia. lia.
Qed.

(** Comparison of positive finite numbers is lexicographic on exponent and
    mantissa. *)
Lemma SFcompare_finite m e m' e' :
  SFcompare (S754_finite false m e) (S754_finite false m' e')
  = Some (match Z.compare e e' with
          | Lt => Lt
          | Gt => Gt
          | Eq => Pos.compare m m'
          end).
Proof. reflexivity. Qed.

Lemma SFleb_finite m e m' e' :
  SFleb (S754_finite false m e) (S754_finite false m' e') = true <->
  e < e' \/ (e = e' /\ Z.pos m <= Z.pos m').
Proof.
  unfold SFleb. rewrite SFcompare_finite.
  destruct (Z.compare_spec e e') as [->|H|H].
  - destruct (Pos.compare_spec m m') as [->|H|H]; split; intros H1;
      try reflexivity; try discriminate; lia.
  - split; [lia | reflexivity].
  - split; [discriminate | lia].
Qed.

Lemma SFltb_finite m e m' e' :
  SFltb (S754_finite false m e) (S754_finite false m' e') = true <->
  e < e' \/ (e = e' /\ Z.pos m < Z.pos m').
Proof.
  unfold SFltb. rewrite SFcompare_finite.
  destruct (Z.compare_spec e e') as [->|H|H].
  - destruct (Pos.compare_spec m m') as [->|H|H]; split; intros H1;
      try reflexivity; try discriminate; lia.
  - split; [lia | reflexivity].
  - split; [discriminate | lia].
Qed.

Section Format.

Variables prec emax : Z.
Hypothesis Hprec : 0 < prec.
Hypothesis Hemax : prec < emax.


Lemma fexp_ge_emin x : emin prec emax <= fexp prec emax x.
Proof using Hprec Hemax. unfold fexp. lia. Qed.

Lemma fexp_mono x y : x <= y -> fexp prec emax x <= fexp prec emax y.
Proof using Hprec Hemax. unfold fexp. lia. Qed.

Lemma emin_le : emin prec emax <= emax - prec.
Proof using Hprec Hemax. unfold SpecFloat.emin. lia. Qed.

Lemma binary_round_aux_spec sx mx ex lx :
  0 <= mx -> ex <= fexp prec emax (Zdigits2 mx + ex) ->
  let E := fexp prec emax (Zdigits2 mx + ex) in
  let M := mx / 2 ^ (E - ex) in
  exists m1,
    M <= m1 <= M + 1 /\ m1 <= 2 ^ prec /\
    (lx = loc_Exact -> mx mod 2 ^ (E - ex) = 0 -> m1 = M) /\
    (0 < m1 < 2 ^ prec -> fexp prec emax (Zdigits2 m1 + E) = E) /\
    binary_round_aux prec emax sx mx ex lx = rounded prec emax sx m1 E.
Proof using Hprec Hemax.
  intros Hmx Hex E M.
  assert (Hn : 0 <= E - ex) by (unfold E; lia).
  assert (Hp2 : 0 < 2 ^ (E - ex)) by (apply Z.pow_pos_nonneg; lia).
  assert (HM0 : 0 <= M) by (apply Z.div_pos; lia).
  assert (HMlt : M < 2 ^ prec).
  { unfold M. apply Z.div_lt_upper_bound; [lia|].
    rewrite <- Z.pow_add_r by lia.
    destruct (Z.eq_dec mx 0) as [->|Hz]; [apply Z.pow_pos_nonneg; lia|].
    pose proof (Zdigits2_bounds mx ltac:(lia)) as [_ Hhi].
    assert (2 ^ Zdigits2 mx <= 2 ^ (E - ex + prec)); [|lia].
    apply Z.pow_le_mono_r; [lia|]. unfold E, fexp. lia. }
  unfold binary_round_aux, shr_fexp. fold E.
  pose proof (shr_spec (shr_record_of_loc mx lx) ex (E - ex)) as S1.
  rewrite shr_record_of_loc_m in S1. specialize (S1 Hmx Hn).
  destruct (shr (shr_record_of_loc mx lx) ex (E - ex)) as [mrs' e'].
  destruct S1 as (He' & Hm' & Hx').
  replace (ex + (E - ex)) with E in He' by lia. subst e'. fold M in Hm'.
  set (m1 := round_nearest_even (shr_m mrs') (loc_of_shr_record mrs')).
  assert (Hm1 : M <= m1 <= M + 1).
  { unfold m1. rewrite <- Hm'. apply round_nearest_even_range. }
  assert (Hcanon : 0 < m1 < 2 ^ prec -> fexp prec emax (Zdigits2 m1 + E) = E).
  { intros [Hpos Hlt].
    pose proof (Zdigits2_le m1 prec ltac:(lia) ltac:(lia) Hlt) as Hd.
    pose proof (fexp_ge_emin (Zdigits2 m1 + E)) as Hge.
    pose proof (fexp_ge_emin (Zdigits2 mx + ex)) as HgeE. fold E in HgeE.
    destruct (Z.eq_dec E (emin prec emax)) as [Ee|Ee].
    - unfold fexp in *. lia.
    - assert (HE : E = Zdigits2 mx + ex - prec) by (unfold E, fexp in *; lia).
      assert (Hmxpos : 0 < mx).
      { destruct (Z.eq_dec mx 0) as [Hz|Hz]; [|lia]. subst mx. simpl in HE. lia. }
      pose proof (Zdigits2_bounds mx Hmxpos) as [Hlo _].
      assert (Hge1 : 2 ^ (prec - 1) <= M).
      { unfold M. apply Z.div_le_lower_bound; [lia|].
        rewrite <- Z.pow_add_r by lia.
        replace (E - ex + (prec - 1)) with (Zdigits2 mx - 1) by lia. assumption. }
      pose proof (Zdigits2_ge m1 prec Hprec ltac:(lia)).
      unfold fexp. unfold fexp in HE. lia. }
  exists m1. split; [exact Hm1|]. split; [lia|]. split; [|split; [exact Hcanon|]].
  - intros -> Hmod. unfold m1.
    rewrite loc_of_shr_record_exact; [simpl; lia|].
    rewrite Hx', Hmod. reflexivity.
  - fold m1. unfold rounded.
    destruct (Z.ltb_spec m1 (2 ^ prec)) as [Hlt|Hge].
    + destruct (Z.eq_dec m1 0) as [Hz|Hz].
      * rewrite Hz. cbn [Zdigits2 Z.add].
        assert (Hs : forall k, shr_m (fst (shr (shr_record_of_loc 0 loc_Exact) E k)) = 0).
        { intros k. destruct k as [|p|p]; try reflexivity.
          pose proof (shr_spec (shr_record_of_loc 0 loc_Exact) E (Z.pos p)
                               ltac:(simpl; lia) ltac:(lia)) as S2.
          destruct (shr (shr_record_of_loc 0 loc_Exact) E (Z.pos p)) as [a b].
          destruct S2 as (_ & S2 & _). cbn [fst]. rewrite S2. reflexivity. }
        specialize (Hs (fexp prec emax E - E)).
        destruct (shr (shr_record_of_loc 0 loc_Exact) E (fexp prec emax E - E)) as [mrs'' e''].
        cbn [fst] in Hs. rewrite Hs. reflexivity.
      * rewrite Hcanon by lia. rewrite Z.sub_diag. cbn [shr].
        rewrite shr_record_of_loc_m. reflexivity.
    + assert (Hm1e : m1 = 2 ^ prec) by lia.
      assert (Hd : Zdigits2 m1 = prec + 1).
      { apply Zdigits2_unique; [lia|]. replace (prec + 1 - 1) with prec by lia.
        rewrite Hm1e. split; [lia|]. apply Z.pow_lt_mono_r; lia. }
      rewrite Hd.
      assert (Hf : fexp prec emax (prec + 1 + E) - E = 1).
      { pose proof (fexp_ge_emin (Zdigits2 mx + ex)). fold E in H.
        unfold fexp. lia. }
      rewrite Hf.
      pose proof (shr_spec (shr_record_of_loc m1 loc_Exact) E 1) as S2.
      rewrite shr_record_of_loc_m in S2. specialize (S2 ltac:(lia) ltac:(lia)).
      destruct (shr (shr_record_of_loc m1 loc_Exact) E 1) as [mrs'' e''].
      destruct S2 as (-> & -> & _). reflexivity.
Qed.

Lemma good_s_false k x : good_s prec emax false k x = good prec emax k x.
Proof using Type.
  destruct x as [[]|[]| |[] m e]; reflexivity.
Qed.

Lemma finish_good_s sx m e k :
  0 <= m -> (0 < m -> fexp prec emax (Zdigits2 m + e) = e) ->
  Zdigits2 m + e <= k -> k <= emax ->
  good_s prec emax sx k (finish prec emax sx m e) = true.
Proof using Hprec Hemax.
  intros Hm Hc Hk Hke. unfold finish.
  destruct m as [|p|p]; [apply eqb_reflx| |lia].
  specialize (Hc ltac:(lia)). cbn [Zdigits2] in Hc, Hk.
  assert (He : e <= emax - prec).
  { pose proof (emin_le).
    unfold fexp in Hc. unfold SpecFloat.emin in *. lia. }
  destruct (Z.leb_spec e (emax - prec)); [|lia].
  unfold good_s, bounded, canonical_mantissa, mag.
  rewrite eqb_reflx, Hc, Z.eqb_refl. cbn [andb].
  apply andb_true_iff. split; apply Z.leb_le; lia.
Qed.

(** Rounding keeps the sign, and gives a finite number of the format, one
    binade above its input at most. *)
Lemma binary_round_aux_good_s sx mx ex lx k :
  0 <= mx -> ex <= fexp prec emax (Zdigits2 mx + ex) ->
  Zdigits2 mx + ex <= k -> emin prec emax <= k -> k + 1 <= emax ->
  good_s prec emax sx (k + 1) (binary_round_aux prec emax sx mx ex lx) = true.
Proof using Hprec Hemax.
  intros Hmx Hex Hk Hkmin Hkmax.
  destruct (binary_round_aux_spec sx mx ex lx Hmx Hex)
    as (m1 & Hm1 & Hle & _ & Hcanon & ->).
  set (E := fexp prec emax (Zdigits2 mx + ex)) in *.
  set (M := mx / 2 ^ (E - ex)) in *.
  assert (Hn : 0 <= E - ex) by lia.
  assert (Hp2 : 0 < 2 ^ (E - ex)) by (apply Z.pow_pos_nonneg; lia).
  assert (HM0 : 0 <= M) by (apply Z.div_pos; lia).
  assert (Hmag : Zdigits2 m1 + E <= k + 1).
  { destruct (Z.eq_dec M 0) as [HMz|HMz].
    - assert (Hd1 : Zdigits2 m1 <= 1).
      { apply Zdigits2_le; [lia | lia | change (2 ^ 1) with 2; lia]. }
      unfold E, fexp. lia.
    - assert (Hmxpos : 0 < mx).
      { destruct (Z.eq_dec mx 0); [|lia]. subst mx. unfold M in HMz.
        rewrite Z.div_0_l in HMz; lia. }
      assert (Hnd : E - ex < Zdigits2 mx).
      { destruct (Z.lt_ge_cases (E - ex) (Zdigits2 mx)); [assumption|].
        exfalso. apply HMz. apply div_pow2_small; lia. }
      pose proof (Zdigits2_div_pow2 mx (E - ex) Hmxpos ltac:(lia)) as HdM.
      fold M in HdM.
      assert (Hd1 : Zdigits2 m1 <= Zdigits2 M + 1).
      { apply Zdigits2_le; [lia | lia |].
        pose proof (Zdigits2_bounds M ltac:(lia)) as [_ Hhi].
        rewrite Z.pow_add_r by lia.
        change (2 ^ 1) with 2. lia. }
      lia. }
  unfold rounded. destruct (Z.ltb_spec m1 (2 ^ prec)) as [Hlt|Hge].
  - apply finish_good_s; try lia; intros Hpos; apply Hcanon; lia.
  - assert (Hm1e : m1 = 2 ^ prec) by lia.
    assert (Hd : Zdigits2 m1 = prec + 1).
    { apply Zdigits2_unique; [lia|]. replace (prec + 1 - 1) with prec by lia.
      rewrite Hm1e. split; [lia|]. apply Z.pow_lt_mono_r; lia. }
    assert (Hhalf : m1 / 2 = 2 ^ (prec - 1)).
    { rewrite Hm1e. replace prec with (prec - 1 + 1) at 1 by lia.
      rewrite Z.pow_add_r by lia. change (2 ^ 1) with 2.
      apply Z.div_mul. lia. }
    assert (Hdh : Zdigits2 (m1 / 2) = prec).
    { rewrite Hhalf. apply Zdigits2_unique; [lia|]. split; [lia|].
      apply Z.pow_lt_mono_r; lia. }
    apply finish_good_s.
    + rewrite Hhalf. apply Z.pow_nonneg. lia.
    + intros _. rewrite Hdh.
      pose proof (fexp_ge_emin (Zdigits2 mx + ex)). fold E in H.
      unfold fexp in *. lia.
    + lia.
    + lia.
Qed.

Lemma binary_round_aux_good mx ex lx k :
  0 <= mx -> ex <= fexp prec emax (Zdigits2 mx + ex) ->
  Zdigits2 mx + ex <= k -> emin prec emax <= k -> k + 1 <= emax ->
  good prec emax (k + 1) (binary_round_aux prec emax false mx ex lx) = true.
Proof using Hprec Hemax.
  intros. rewrite <- good_s_false. apply binary_round_aux_good_s; assumption.
Qed.

Lemma binary_round_good_s sx m e k :
  mag m e <= k -> emin prec emax <= k -> k + 1 <= emax ->
  good_s prec emax sx (k + 1) (binary_round prec emax sx m e) = true.
Proof using Hprec Hemax.
  intros Hk Hkmin Hkmax. unfold binary_round.
  pose proof (shl_align_spec m e (fexp prec emax (Z.pos (digits2_pos m) + e))) as S.
  destruct (shl_align m e (fexp prec emax (Z.pos (digits2_pos m) + e))) as [mz ez].
  destruct S as (S1 & S2 & S3 & _ & S4 & S5).
  apply binary_round_aux_good_s; try lia.
  - rewrite S5. exact S2.
  - rewrite S5. exact Hk.
Qed.

Lemma binary_round_good m e k :
  mag m e <= k -> emin prec emax <= k -> k + 1 <= emax ->
  good prec emax (k + 1) (binary_round prec emax false m e) = true.
Proof using Hprec Hemax.
  intros. rewrite <- good_s_false. apply binary_round_good_s; assumption.
Qed.

Lemma good_mono k k' x : k <= k' -> good prec emax k x = true -> good prec emax k' x = true.
Proof using Hprec Hemax.
  intros Hk. unfold good. destruct x as [[]|[]| |[] m e]; try discriminate; auto.
  rewrite !andb_true_iff, !Z.leb_le. intros [H1 H2]. split; [assumption | lia].
Qed.

Lemma SFadd_good x y k :
  good prec emax k x = true -> good prec emax k y = true ->
  emin prec emax <= k -> k + 2 <= emax ->
  good prec emax (k + 2) (SFadd prec emax x y) = true.
Proof using Hprec Hemax.
  intros Hx Hy Hkmin Hkmax.
  destruct x as [[]|[]| |[] mx ex]; try discriminate;
    destruct y as [[]|[]| |[] my ey]; try discriminate.
  - reflexivity.
  - cbn [SFadd]. apply good_mono with k; [lia | assumption].
  - cbn [SFadd]. apply good_mono with k; [lia | assumption].
  - cbn [SFadd cond_Zopp].
    unfold good in Hx, Hy. apply andb_true_iff in Hx, Hy.
    destruct Hx as [_ Hx], Hy as [_ Hy]. apply Z.leb_le in Hx, Hy. unfold mag in *.
    pose proof (shl_align_spec mx ex (Z.min ex ey)) as Sx.
    pose proof (shl_align_spec my ey (Z.min ex ey)) as Sy.
    destruct (shl_align mx ex (Z.min ex ey)) as [ax ezx].
    destruct (shl_align my ey (Z.min ex ey)) as [ay ezy].
    destruct Sx as (_ & _ & Sx3 & _ & _ & Sx5), Sy as (_ & _ & Sy3 & _ & _ & Sy5).
    specialize (Sx3 ltac:(lia)). specialize (Sy3 ltac:(lia)). subst ezx ezy.
    cbn [fst Z.add binary_normalize].
    replace (k + 2) with (k + 1 + 1) by lia.
    apply binary_round_good; try lia.
    unfold mag. change (Z.pos (digits2_pos (ax + ay))) with (Zdigits2 (Z.pos (ax + ay))).
    cbn [Zdigits2] in Sx5, Sy5.
    pose proof (Zdigits2_bounds (Z.pos ax) ltac:(lia)) as [_ Hax].
    pose proof (Zdigits2_bounds (Z.pos ay) ltac:(lia)) as [_ Hay].
    cbn [Zdigits2] in Hax, Hay.
    set (ez := Z.min ex ey) in *.
    assert (Hd : Zdigits2 (Z.pos (ax + ay)) <= k - ez + 1); [|lia].
    apply Zdigits2_le; [lia | lia |].
    rewrite Pos2Z.inj_add, Z.pow_add_r by lia. change (2 ^ 1) with 2.
    assert (2 ^ Z.pos (digits2_pos ax) <= 2 ^ (k - ez)) by (apply Z.pow_le_mono_r; lia).
    assert (2 ^ Z.pos (digits2_pos ay) <= 2 ^ (k - ez)) by (apply Z.pow_le_mono_r; lia).
    lia.
Qed.

Lemma good_s_fin sx k x : good_s prec emax sx k x = true -> fin prec emax k x = true.
Proof using Type.
  unfold fin. destruct sx; intros ->; [apply orb_true_r | reflexivity].
Qed.

(** A difference of two non-negative numbers is finite. *)
Lemma SFsub_fin x y k :
  good prec emax k x = true -> good prec emax k y = true ->
  emin prec emax <= k -> k + 1 <= emax ->
  fin prec emax (k + 1) (SFsub prec emax x y) = true.
Proof using Hprec Hemax.
  intros Hx Hy Hkmin Hkmax.
  destruct x as [[]|[]| |[] mx ex]; try discriminate;
    destruct y as [[]|[]| |[] my ey]; try discriminate.
  - reflexivity.
  - cbn [SFsub negb]. apply good_s_fin with true.
    unfold good in Hy. unfold good_s. cbn [Bool.eqb].
    apply andb_true_iff in Hy. destruct Hy as [-> Hy]. cbn [andb].
    apply Z.leb_le. apply Z.leb_le in Hy. lia.
  - cbn [SFsub]. apply good_s_fin with false. rewrite good_s_false.
    apply good_mono with k; [lia | assumption].
  - cbn [SFsub cond_Zopp].
    unfold good in Hx, Hy. apply andb_true_iff in Hx, Hy.
    destruct Hx as [_ Hx], Hy as [_ Hy]. apply Z.leb_le in Hx, Hy. unfold mag in *.
    pose proof (shl_align_spec mx ex (Z.min ex ey)) as Sx.
    pose proof (shl_align_spec my ey (Z.min ex ey)) as Sy.
    destruct (shl_align mx ex (Z.min ex ey)) as [ax ezx].
    destruct (shl_align my ey (Z.min ex ey)) as [ay ezy].
    destruct Sx as (_ & _ & Sx3 & _ & _ & Sx5), Sy as (_ & _ & Sy3 & _ & _ & Sy5).
    specialize (Sx3 ltac:(lia)). specialize (Sy3 ltac:(lia)). subst ezx ezy.
    cbn [fst]. cbn [Zdigits2] in Sx5, Sy5.
    pose proof (Zdigits2_bounds (Z.pos ax) ltac:(lia)) as [_ Hax].
    pose proof (Zdigits2_bounds (Z.pos ay) ltac:(lia)) as [_ Hay].
    cbn [Zdigits2] in Hax, Hay.
    set (ez := Z.min ex ey) in *.
    assert (Hpa : 2 ^ Z.pos (digits2_pos ax) <= 2 ^ (k - ez))
      by (apply Z.pow_le_mono_r; lia).
    assert (Hpb : 2 ^ Z.pos (digits2_pos ay) <= 2 ^ (k - ez))
      by (apply Z.pow_le_mono_r; lia).
    destruct (Z.pos ax - Z.pos ay) as [|p|p] eqn:Ed; cbn [binary_normalize].
    + reflexivity.
    + apply good_s_fin with false. apply binary_round_good_s; try lia.
      unfold mag. change (Z.pos (digits2_pos p)) with (Zdigits2 (Z.pos p)).
      assert (Zdigits2 (Z.pos p) <= k - ez); [|lia].
      apply Zdigits2_le; lia.
    + apply good_s_fin with true. apply binary_round_good_s; try lia.
      unfold mag. change (Z.pos (digits2_pos p)) with (Zdigits2 (Z.pos p)).
      assert (Zdigits2 (Z.pos p) <= k - ez); [|lia].
      apply Zdigits2_le; lia.
Qed.

(** The square of a finite number is non-negative and finite. *)
Lemma SFmul_self_good x k :
  fin prec emax k x = true -> emin prec emax <= 2 * k -> 2 * k + 1 <= emax ->
  good prec emax (2 * k + 1) (SFmul prec emax x x) = true.
Proof using Hprec Hemax.
  intros Hx Hkmin Hkmax.
  assert (Hshape : match x with
                   | S754_zero _ => True
                   | S754_finite _ m e => bounded prec emax m e = true /\ mag m e <= k
                   | _ => False
                   end).
  { unfold fin, good_s in Hx. destruct x as [s|s| |s m e]; try discriminate; [exact I|].
    destruct s; cbn [Bool.eqb andb orb] in Hx;
      rewrite ?orb_false_r in Hx; apply andb_true_iff in Hx;
      destruct Hx as [H1 H2]; apply Z.leb_le in H2; auto. }
  destruct x as [s|s| |s m e]; try contradiction.
  - destruct s; reflexivity.
  - destruct Hshape as [Hb Hk]. cbn [SFmul]. rewrite xorb_nilpotent.
    unfold bounded, canonical_mantissa in Hb. apply andb_true_iff in Hb.
    destruct Hb as [Hc _]. apply Z.eqb_eq in Hc. unfold mag in Hk.
    pose proof (Zdigits2_bounds (Z.pos m) ltac:(lia)) as [Hlo Hhi].
    cbn [Zdigits2] in Hlo, Hhi.
    set (d := Z.pos (digits2_pos m)) in *.
    assert (Hd : 1 <= d) by (unfold d; lia).
    assert (Hup : Zdigits2 (Z.pos (m * m)) <= d + d).
    { apply Zdigits2_le; [lia | lia |]. rewrite Pos2Z.inj_mul, Z.pow_add_r by lia. nia. }
    assert (Hdn : d + d - 1 <= Zdigits2 (Z.pos (m * m))).
    { apply Zdigits2_ge; [lia|]. rewrite Pos2Z.inj_mul.
      replace (d + d - 1 - 1) with ((d - 1) + (d - 1)) by lia.
      rewrite Z.pow_add_r by lia. nia. }
    apply binary_round_aux_good; try lia.
    unfold fexp, emin in *. lia.
Qed.

Lemma sqrt_digits n :
  0 < n -> Zdigits2 (Z.sqrt n) = (Zdigits2 n + 1) / 2.
Proof using Type.
  intros Hn. pose proof (Zdigits2_bounds n Hn) as [Hlo Hhi].
  pose proof (Zdigits2_bounds n Hn) as _.
  set (X := Zdigits2 n) in *.
  assert (HX : 1 <= X).
  { unfold X. rewrite Zdigits2_log2 by lia. pose proof (Z.log2_nonneg n). lia. }
  pose proof (Z.sqrt_spec n ltac:(lia)) as [Hs1 Hs2].
  change (Zdigits2 (Z.sqrt n) = (X + 1) / 2). clearbody X.
  assert (Hh : 1 <= (X + 1) / 2) by dlia.
  apply Zdigits2_unique; [lia|]. split.
  - apply Z.sqrt_le_square; [lia | apply Z.pow_nonneg; lia |].
    rewrite <- Z.pow_add_r by lia.
    assert (2 ^ ((X + 1) / 2 - 1 + ((X + 1) / 2 - 1)) <= 2 ^ (X - 1))
      by (apply Z.pow_le_mono_r; dlia).
    lia.
  - assert (Hq : 0 <= Z.sqrt n) by apply Z.sqrt_nonneg.
    assert (Hpw : 2 ^ X <= 2 ^ ((X + 1) / 2 + (X + 1) / 2))
      by (apply Z.pow_le_mono_r; dlia).
    rewrite Z.pow_add_r in Hpw by lia.
    assert (0 < 2 ^ ((X + 1) / 2)) by (apply Z.pow_pos_nonneg; lia).
    nia.
Qed.

Lemma SFsqrt_good x k :
  good prec emax k x = true -> 1 <= k -> emin prec emax <= k -> k + 1 <= emax ->
  good prec emax (k + 1) (SFsqrt prec emax x) = true.
Proof using Hprec Hemax.
  intros Hx Hk1 Hkmin Hkmax.
  destruct x as [[]|[]| |[] m e]; try discriminate; [reflexivity|].
  unfold good in Hx. apply andb_true_iff in Hx. destruct Hx as [_ Hx].
  apply Z.leb_le in Hx. unfold mag in Hx.
  cbn [SFsqrt]. unfold SFsqrt_core_binary. cbn [Zdigits2].
  set (d := Z.pos (digits2_pos m)) in *.
  set (e' := Z.min (fexp prec emax (Z.div2 (d + e + 1))) (Z.div2 e)).
  assert (He' : e' = Z.min (fexp prec emax ((d + e + 1) / 2)) (e / 2)).
  { unfold e'. rewrite !Z.div2_div. reflexivity. }
  clearbody e'.
  assert (Hs : 0 <= e - 2 * e') by dlia.
  set (m' := match e - 2 * e' with
             | 0 => Z.pos m
             | Z.pos _ => Z.shiftl (Z.pos m) (e - 2 * e')
             | Z.neg _ => 0
             end).
  assert (Hm' : m' = Z.pos m * 2 ^ (e - 2 * e')).
  { unfold m'. destruct (e - 2 * e') as [|p|p] eqn:Es.
    - change (2 ^ 0) with 1. lia.
    - apply Z.shiftl_mul_pow2. lia.
    - lia. }
  clearbody m'.
  assert (Hp2 : 0 < 2 ^ (e - 2 * e')) by (apply Z.pow_pos_nonneg; lia).
  assert (Hm'pos : 0 < m') by nia.
  assert (Hdm' : Zdigits2 m' = d + (e - 2 * e')).
  { rewrite Hm', Zdigits2_log2 by lia. rewrite Z.log2_mul_pow2 by lia.
    unfold d. change (Z.pos (digits2_pos m)) with (Zdigits2 (Z.pos m)).
    rewrite Zdigits2_log2 by lia. lia. }
  pose proof (Z.sqrtrem_spec m' ltac:(lia)) as Hsr.
  pose proof (Z.sqrtrem_sqrt m') as Hsq.
  destruct (Z.sqrtrem m') as [q r]. cbn [fst] in Hsq. subst q.
  pose proof (sqrt_digits m' Hm'pos) as Hdq. rewrite Hdm' in Hdq.
  assert (Hmagq : Zdigits2 (Z.sqrt m') + e' = (d + e + 1) / 2) by dlia.
  apply binary_round_aux_good;
    [apply Z.sqrt_nonneg | rewrite Hmagq; lia | rewrite Hmagq; dlia | lia | lia].
Qed.

(** The quotient of two numbers of the format, the first not above the
    second, rounds to a value not above 1: the settled mantissa [m1] at
    exponent [E] satisfies [m1 * 2^E <= 1]. *)
Lemma lex_value mx ex my ey :
  bounded prec emax mx ex = true -> bounded prec emax my ey = true ->
  ex < ey \/ (ex = ey /\ Z.pos mx <= Z.pos my) ->
  ex <= ey /\ Z.pos mx <= Z.pos my * 2 ^ (ey - ex).
Proof using Hprec Hemax.
  unfold bounded, canonical_mantissa. rewrite !andb_true_iff, !Z.eqb_eq.
  intros [Cx _] [Cy _] [Hlt | [-> Hle]].
  - split; [lia|].
    assert (Hmag : Z.pos (digits2_pos mx) + ex < Z.pos (digits2_pos my) + ey).
    { destruct (Z.lt_ge_cases (Z.pos (digits2_pos mx) + ex) (Z.pos (digits2_pos my) + ey));
        [assumption|].
      pose proof (fexp_mono (Z.pos (digits2_pos my) + ey) (Z.pos (digits2_pos mx) + ex)).
      lia. }
    pose proof (Zdigits2_bounds (Z.pos mx) ltac:(lia)) as [_ Hx].
    pose proof (Zdigits2_bounds (Z.pos my) ltac:(lia)) as [Hy _].
    cbn [Zdigits2] in Hx, Hy.
    assert (2 ^ Z.pos (digits2_pos mx)
            <= 2 ^ (Z.pos (digits2_pos my) - 1 + (ey - ex)))
      by (apply Z.pow_le_mono_r; lia).
    rewrite Z.pow_add_r in H by lia.
    assert (0 < 2 ^ (ey - ex)) by (apply Z.pow_pos_nonneg; lia).
    nia.
  - rewrite Z.sub_diag. change (2 ^ 0) with 1. lia.
Qed.

Lemma new_location_exact nb : new_location nb 0 = loc_Exact.
Proof using Type.
  unfold new_location, new_location_even, new_location_odd.
  destruct (Z.even nb); reflexivity.
Qed.

Lemma SFdiv_core_le_one mx ex my ey :
  ex <= ey -> Z.pos mx <= Z.pos my * 2 ^ (ey - ex) ->
  let '(q, e', l) := SFdiv_core_binary prec emax (Z.pos mx) ex (Z.pos my) ey in
  0 <= q /\ e' <= fexp prec emax (Zdigits2 q + e') /\
  e' <= 0 /\ q <= 2 ^ (- e') /\ (q = 2 ^ (- e') -> l = loc_Exact).
Proof using Hprec Hemax.
  intros Hex Hval. unfold SFdiv_core_binary. cbn [Zdigits2].
  set (d1 := Z.pos (digits2_pos mx)). set (d2 := Z.pos (digits2_pos my)).
  set (e' := Z.min (fexp prec emax (d1 + ex - (d2 + ey))) (ex - ey)).
  assert (He'1 : e' <= fexp prec emax (d1 + ex - (d2 + ey))) by (unfold e'; lia).
  assert (He'2 : e' <= ex - ey) by (unfold e'; lia).
  clearbody e'.
  set (m' := match ex - ey - e' with
             | 0 => Z.pos mx
             | Z.pos _ => Z.shiftl (Z.pos mx) (ex - ey - e')
             | Z.neg _ => 0
             end).
  assert (Hm' : m' = Z.pos mx * 2 ^ (ex - ey - e')).
  { unfold m'. destruct (ex - ey - e') as [|p|p] eqn:Es.
    - change (2 ^ 0) with 1. lia.
    - apply Z.shiftl_mul_pow2. lia.
    - lia. }
  clearbody m'.
  pose proof (Z_div_mod m' (Z.pos my) ltac:(lia)) as Hdm.
  destruct (Z.div_eucl m' (Z.pos my)) as [q r]. destruct Hdm as [Hdm Hr].
  assert (Hps : 0 < 2 ^ (ex - ey - e')) by (apply Z.pow_pos_nonneg; lia).
  assert (Hpe : 0 < 2 ^ (ey - ex)) by (apply Z.pow_pos_nonneg; lia).
  assert (Hq0 : 0 <= q) by nia.
  assert (Hsplit : 2 ^ (- e') = 2 ^ (ey - ex) * 2 ^ (ex - ey - e')).
  { rewrite <- Z.pow_add_r by lia. f_equal. lia. }
  assert (Hm'le : m' <= Z.pos my * 2 ^ (- e')) by (rewrite Hsplit, Hm'; nia).
  assert (Hqle : q <= 2 ^ (- e')) by nia.
  pose proof (Zdigits2_bounds (Z.pos mx) ltac:(lia)) as [Hx1 Hx2].
  pose proof (Zdigits2_bounds (Z.pos my) ltac:(lia)) as [Hy1 Hy2].
  cbn [Zdigits2] in Hx1, Hx2, Hy1, Hy2. fold d1 in Hx1, Hx2. fold d2 in Hy1, Hy2.
  repeat split; try assumption; try lia.
  - (* enough digits *)
    pose proof (fexp_ge_emin (Zdigits2 q + e')) as Hge.
    destruct (Z.le_gt_cases e' (emin prec emax)) as [Hlow | Hhigh]; [lia|].
    assert (Hf : fexp prec emax (d1 + ex - (d2 + ey)) = d1 + ex - (d2 + ey) - prec)
      by (unfold fexp in *; lia).
    assert (Hs : d2 - d1 + prec <= ex - ey - e') by lia.
    assert (Hd1 : 1 <= d1) by (unfold d1; lia).
    assert (Hd2 : 1 <= d2) by (unfold d2; lia).
    assert (Hm'ge : 2 ^ (d2 + (prec - 1)) <= m').
    { rewrite Hm'.
      assert (2 ^ (d2 + (prec - 1)) <= 2 ^ (d1 - 1 + (ex - ey - e')))
        by (apply Z.pow_le_mono_r; lia).
      rewrite (Z.pow_add_r 2 (d1 - 1)) in H by lia. nia. }
    assert (Hqge : 2 ^ (prec - 1) <= q).
    { rewrite Z.pow_add_r in Hm'ge by lia.
      assert (0 < 2 ^ (prec - 1)) by (apply Z.pow_pos_nonneg; lia).
      nia. }
    assert (Hqge' : 2 ^ (d1 + (ex - ey - e') - d2 - 1) <= q).
    { assert (Hlow : 2 ^ (d1 - 1 + (ex - ey - e')) <= m').
      { rewrite Hm', Z.pow_add_r by lia. nia. }
      replace (d1 - 1 + (ex - ey - e')) with (d2 + (d1 + (ex - ey - e') - d2 - 1)) in Hlow by lia.
      rewrite Z.pow_add_r in Hlow by lia.
      assert (0 < 2 ^ (d1 + (ex - ey - e') - d2 - 1)) by (apply Z.pow_pos_nonneg; lia).
      nia. }
    pose proof (Zdigits2_ge q (d1 + (ex - ey - e') - d2) ltac:(lia) Hqge') as Hdq.
    unfold fexp. lia.
  - (* an exact quotient *)
    intros Hq1. assert (r = 0) by nia. subst r. apply new_location_exact.
Qed.

Lemma SFdiv_le_one mx ex my ey :
  bounded prec emax mx ex = true -> bounded prec emax my ey = true ->
  SFltb (S754_finite false my ey) (S754_finite false mx ex) = false ->
  exists m1 E,
    SFdiv prec emax (S754_finite false mx ex) (S754_finite false my ey)
    = rounded prec emax false m1 E /\
    0 <= m1 <= 2 ^ (- E) /\ E <= 0 /\ emin prec emax <= E /\ m1 <= 2 ^ prec /\
    (0 < m1 < 2 ^ prec -> fexp prec emax (Zdigits2 m1 + E) = E).
Proof using Hprec Hemax.
  intros Bx By Hlt.
  assert (Hlex : ex < ey \/ (ex = ey /\ Z.pos mx <= Z.pos my)).
  { destruct (Z.lt_total ex ey) as [H|[H|H]]; [lia | |].
    - right. split; [assumption|]. destruct (Z.le_gt_cases (Z.pos mx) (Z.pos my)); [assumption|].
      rewrite (proj2 (SFltb_finite my ey mx ex)) in Hlt by lia. discriminate.
    - rewrite (proj2 (SFltb_finite my ey mx ex)) in Hlt by lia. discriminate. }
  destruct (lex_value mx ex my ey Bx By Hlex) as [Hex Hval].
  pose proof (SFdiv_core_le_one mx ex my ey Hex Hval) as Hcore.
  cbn [SFdiv xorb].
  destruct (SFdiv_core_binary prec emax (Z.pos mx) ex (Z.pos my) ey) as [[q e'] l].
  destruct Hcore as (Hq0 & Hdig & He'0 & Hq1 & Hexact).
  destruct (binary_round_aux_spec false q e' l Hq0 Hdig)
    as (m1 & Hm1 & Hle & Hex1 & Hcanon & ->).
  set (E := fexp prec emax (Zdigits2 q + e')) in *.
  assert (HE0 : E <= 0).
  { assert (Hdq : Zdigits2 q <= - e' + 1).
    { apply Zdigits2_le; [lia | lia |].
      rewrite Z.pow_add_r by lia. change (2 ^ 1) with 2.
      assert (0 < 2 ^ (- e')) by (apply Z.pow_pos_nonneg; lia). lia. }
    unfold E, fexp, emin. lia. }
  assert (Hp : 0 < 2 ^ (E - e')) by (apply Z.pow_pos_nonneg; lia).
  assert (Hsplit : 2 ^ (- e') = 2 ^ (- E) * 2 ^ (E - e')).
  { rewrite <- Z.pow_add_r by lia. f_equal. lia. }
  assert (HM : q / 2 ^ (E - e') <= 2 ^ (- E)).
  { apply Z.div_le_upper_bound; [lia|]. rewrite Z.mul_comm, <- Hsplit. exact Hq1. }
  assert (HM0 : 0 <= q / 2 ^ (E - e')) by (apply Z.div_pos; lia).
  exists m1, E. split; [reflexivity|].
  split; [|split; [exact HE0|split; [apply fexp_ge_emin|split; [exact Hle|exact Hcanon]]]].
  split; [lia|].
  destruct (Z.eq_dec (q / 2 ^ (E - e')) (2 ^ (- E))) as [Heq|Hne]; [|lia].
  assert (Hqeq : q = 2 ^ (- e')).
  { pose proof (Z.mul_div_le q (2 ^ (E - e')) Hp). rewrite Heq in H.
    rewrite Z.mul_comm, <- Hsplit in H. lia. }
  rewrite Hex1; [lia | apply Hexact; exact Hqeq |].
  rewrite Hqeq, Hsplit. apply Z.mod_mul. lia.
Qed.

End Format.

(** ** The two formats at hand *)

Lemma F32_params : 0 < F32.prec /\ F32.prec < F32.emax.
Proof. unfold F32.prec, F32.emax. lia. Qed.

Lemma F64_params : 0 < F64.prec /\ F64.prec < F64.emax.
Proof. unfold F64.prec, F64.emax. lia. Qed.

(** A settled mantissa with [m1 * 2^E <= 1] gives a [float] in [0,1]. *)
Lemma within_one_rounded m1 E :
  0 <= m1 <= 2 ^ (- E) -> E <= 0 -> emin 24 128 <= E -> m1 <= 2 ^ 24 ->
  (0 < m1 < 2 ^ 24 -> fexp 24 128 (Zdigits2 m1 + E) = E) ->
  within F32.zero F32.one (rounded 24 128 false m1 E) = true.
Proof.
  intros Hm1 HE Hmin Hle Hcanon. unfold rounded.
  change (2 ^ 24) with 16777216 in *.
  destruct (Z.ltb_spec m1 16777216) as [Hlt|Hge].
  - destruct m1 as [|p|p]; [reflexivity| |lia].
    specialize (Hcanon ltac:(lia)).
    assert (HE23 : E <= -23).
    { destruct (Z.le_gt_cases E (-23)) as [|Hbig]; [assumption|exfalso].
      assert (Hd : Zdigits2 (Z.pos p) <= 23).
      { apply Zdigits2_le; [lia | lia |].
        assert (2 ^ (- E) <= 2 ^ 22) by (apply Z.pow_le_mono_r; lia).
        change (2 ^ 22) with 4194304 in H. change (2 ^ 23) with 8388608. lia. }
      unfold fexp, emin in *. lia. }
    unfold finish. destruct (Z.leb_spec E (128 - 24)); [|lia].
    unfold within. apply andb_true_iff. split; [reflexivity|].
    apply SFleb_finite.
    destruct (Z.eq_dec E (-23)) as [->|]; [|lia].
    change (2 ^ (- -23)) with 8388608 in Hm1. lia.
  - assert (Hm1e : m1 = 16777216) by lia. subst m1.
    assert (HE24 : E <= -24).
    { destruct (Z.le_gt_cases E (-24)) as [|Hbig]; [assumption|exfalso].
      assert (2 ^ (- E) <= 2 ^ 23) by (apply Z.pow_le_mono_r; lia).
      change (2 ^ 23) with 8388608 in H. lia. }
    change (16777216 / 2) with 8388608. unfold finish.
    destruct (Z.leb_spec (E + 1) (128 - 24)); [|lia].
    unfold within. apply andb_true_iff. split; [reflexivity|].
    apply SFleb_finite. lia.
Qed.

(** Division of a [float] by one that is not below it, both non-negative and
    of the format, the divisor not zero: the quotient is in [0,1]. *)
Lemma F32_div_within x y kx ky :
  good 24 128 kx x = true -> good 24 128 ky y = true ->
  F32.ltb F32.zero y = true -> F32.ltb y x = false ->
  within F32.zero F32.one (F32.div x y) = true.
Proof.
  intros Gx Gy Hpos Hle.
  destruct y as [[]|[]| |[] my ey]; try discriminate.
  destruct x as [[]|[]| |[] mx ex]; try discriminate; [reflexivity|].
  unfold good in Gx, Gy. apply andb_true_iff in Gx, Gy.
  destruct Gx as [Bx _], Gy as [By _].
  destruct F32_params as [H1 H2].
  destruct (SFdiv_le_one 24 128 H1 H2 mx ex my ey Bx By Hle)
    as (m1 & E & Hdiv & Hm1 & HE & Hmin & Hle24 & Hcanon).
  unfold F32.div, F32.prec, F32.emax. rewrite Hdiv.
  apply within_one_rounded; assumption.
Qed.

(** Conversion to [float] of a [double] between 0 and pi stays between 0 and
    pi as a [float]. *)
Lemma F32_round_le_pi y :
  valid_binary 53 1024 y = true ->
  SFleb (S754_zero false) y = true -> SFleb y pi_d = true ->
  within F32.zero pi_f (F32.round y) = true.
Proof.
  intros Hv H0 Hpi.
  destruct y as [s|s| |s m e]; try discriminate.
  - destruct s; reflexivity.
  - destruct s; discriminate.
  - destruct s; [discriminate|]. clear H0.
    apply SFleb_finite in Hpi.
    cbn [valid_binary] in Hv. unfold bounded, canonical_mantissa in Hv.
    apply andb_true_iff in Hv. destruct Hv as [Hc _]. apply Z.eqb_eq in Hc.
    cbn [F32.round]. unfold binary_round, F32.prec, F32.emax.
    pose proof (shl_align_spec m e (fexp 24 128 (Z.pos (digits2_pos m) + e))) as S.
    destruct (shl_align m e (fexp 24 128 (Z.pos (digits2_pos m) + e))) as [mz ez].
    destruct S as (_ & _ & _ & S4 & S5 & S6).
    assert (Hee : e <= fexp 24 128 (Z.pos (digits2_pos m) + e))
      by (unfold fexp, emin in *; lia).
    specialize (S4 Hee). subst ez.
    rewrite Z.sub_diag in S5. change (2 ^ 0) with 1 in S5.
    assert (mz = m) by lia. subst mz. clear S5 S6.
    destruct F32_params as [H1 H2].
    destruct (binary_round_aux_spec 24 128 H1 H2 false (Z.pos m) e loc_Exact
                ltac:(lia) Hee)
      as (m1 & Hm1 & Hle & _ & Hcanon & ->).
    cbn [Zdigits2] in *.
    assert (Hp : 0 < 2 ^ (fexp 24 128 (Z.pos (digits2_pos m) + e) - e)) by (apply Z.pow_pos_nonneg; lia).
    assert (HM0 : 0 <= Z.pos m / 2 ^ (fexp 24 128 (Z.pos (digits2_pos m) + e) - e)) by (apply Z.div_pos; lia).
    unfold rounded. change (2 ^ 24) with 16777216 in *.
    destruct Hpi as [Hlt | [He Hm]].
    + assert (HE : fexp 24 128 (Z.pos (digits2_pos m) + e) <= -23) by (unfold fexp, emin in *; lia).
      destruct (Z.ltb_spec m1 16777216) as [Hlt1|Hge1].
      * destruct m1 as [|p|p]; [reflexivity| |lia].
        unfold finish. destruct (Z.leb_spec (fexp 24 128 (Z.pos (digits2_pos m) + e)) (128 - 24)); [|lia].
        unfold within. apply andb_true_iff. split; [reflexivity|].
        apply SFleb_finite. lia.
      * assert (m1 = 16777216) by lia. subst m1.
        change (16777216 / 2) with 8388608. unfold finish.
        destruct (Z.leb_spec (fexp 24 128 (Z.pos (digits2_pos m) + e) + 1) (128 - 24)); [|lia].
        unfold within. apply andb_true_iff. split; [reflexivity|].
        apply SFleb_finite. lia.
    + assert (HD : Z.pos (digits2_pos m) + e = 2) by (unfold fexp, emin in Hc; lia).
      assert (HE : fexp 24 128 (Z.pos (digits2_pos m) + e) = -22)
        by (rewrite HD; reflexivity).
      rewrite HE in *. subst e.
      change (-22 - -51) with 29 in *.
      assert (HM : Z.pos m / 2 ^ 29 <= 13176794).
      { change 13176794 with (7074237752028440 / 2 ^ 29).
        apply Z.div_le_mono; [reflexivity | assumption]. }
      destruct (Z.ltb_spec m1 16777216) as [Hlt1|Hge1]; [|lia].
      destruct m1 as [|p|p]; [reflexivity| |lia].
      unfold finish. destruct (Z.leb_spec (-22) (128 - 24)); [|lia].
      unfold within. apply andb_true_iff. split; [reflexivity|].
      apply SFleb_finite. lia.
Qed.

Lemma SFltb_finite_false m e m' e' :
  SFltb (S754_finite false m e) (S754_finite false m' e') = false <->
  e' < e \/ (e = e' /\ Z.pos m' <= Z.pos m).
Proof.
  destruct (SFltb (S754_finite false m e) (S754_finite false m' e')) eqn:E.
  - apply SFltb_finite in E. split; [discriminate | lia].
  - split; [intros _ | reflexivity].
    destruct (Z.lt_total e e') as [H|[H|H]]; [| |lia].
    + rewrite (proj2 (SFltb_finite m e m' e')) in E by lia. discriminate.
    + destruct (Z.le_gt_cases (Z.pos m') (Z.pos m)); [lia|].
      rewrite (proj2 (SFltb_finite m e m' e')) in E by lia. discriminate.
Qed.

(** [x <= y <= z] and [x < y <= z] among non-negative numbers, with "not
    below" read off [SFltb]. *)
Lemma not_below_trans k x y z :
  good 24 128 k x = true -> good 24 128 k y = true -> good 24 128 k z = true ->
  F32.ltb y x = false -> F32.ltb z y = false -> F32.ltb z x = false.
Proof.
  unfold F32.ltb.
  destruct x as [[]|[]| |[] mx ex]; try discriminate;
    destruct y as [[]|[]| |[] my ey]; try discriminate;
    destruct z as [[]|[]| |[] mz ez]; try discriminate;
    intros _ _ _; try reflexivity; try discriminate.
  rewrite !SFltb_finite_false. lia.
Qed.

Lemma below_not_below k x y z :
  good 24 128 k x = true -> good 24 128 k y = true -> good 24 128 k z = true ->
  F32.ltb x y = true -> F32.ltb z y = false -> F32.ltb z x = false.
Proof.
  unfold F32.ltb.
  destruct x as [[]|[]| |[] mx ex]; try discriminate;
    destruct y as [[]|[]| |[] my ey]; try discriminate;
    destruct z as [[]|[]| |[] mz ez]; try discriminate;
    intros _ _ _; try reflexivity; try discriminate.
  rewrite SFltb_finite, !SFltb_finite_false. lia.
Qed.

Lemma not_below_refl k x : good 24 128 k x = true -> F32.ltb x x = false.
Proof.
  unfold F32.ltb. destruct x as [[]|[]| |[] mx ex]; try discriminate; intros _.
  - reflexivity.
  - apply SFltb_finite_false. lia.
Qed.

(** The running maximum ends not below its start nor any tracked value. *)
Lemma max_over_spec k ds :
  forall m,
    good 24 128 k m = true -> Forall (fun d => good 24 128 k d = true) ds ->
    good 24 128 k (max_over ds m) = true /\
    F32.ltb (max_over ds m) m = false /\
    Forall (fun d => F32.ltb (max_over ds m) d = false) ds.
Proof.
  induction ds as [|d ds IH]; intros m Gm Gds.
  - cbn. split; [assumption|]. split; [eapply not_below_refl; eassumption | constructor].
  - inversion Gds as [|? ? Gd Gds']; subst.
    cbn [max_over fold_left]. fold (max_over ds (track_max d m)).
    unfold track_max. destruct (F32.ltb m d) eqn:E.
    + destruct (IH d Gd Gds') as (G & Hd & Hall).
      split; [assumption|]. split; [|constructor; assumption].
      apply below_not_below with k d; assumption.
    + destruct (IH m Gm Gds') as (G & Hm & Hall).
      split; [assumption|]. split; [assumption|]. constructor; [|assumption].
      apply not_below_trans with k m; assumption.
Qed.

Lemma all_bytes_In c : In c all_bytes.
Proof.
  unfold all_bytes. apply in_flat_map. exists (N.to_nat (Byte.to_N c)). split.
  - apply in_seq. pose proof (Byte.to_N_bounded c). lia.
  - rewrite Nnat.N2Nat.id, Byte.of_to_N. now left.
Qed.

(** Every channel value is a [double] in [0,2). *)
Lemma chan_good c : good 53 1024 1 (chan c) = true.
Proof.
  assert (H : forallb (fun x => good 53 1024 1 (chan x)) all_bytes = true)
    by (vm_compute; reflexivity).
  rewrite forallb_forall in H. apply H, all_bytes_In.
Qed.

(** Every square of a channel difference is a finite non-negative [double]. *)
Lemma chan_sq_good c0 c1 : good 53 1024 5 (chan_sq c0 c1) = true.
Proof.
  destruct F64_params as [H1 H2]. unfold chan_sq, diff_sq. cbv zeta.
  apply (SFmul_self_good 53 1024 H1 H2 _ 2); try (unfold emin; lia).
  apply (SFsub_fin 53 1024 H1 H2 _ _ 1); try apply chan_good; unfold emin; lia.
Qed.

Lemma F32_round_good x k :
  good 53 1024 k x = true -> -149 <= k -> k + 1 <= 128 ->
  good 24 128 (k + 1) (F32.round x) = true.
Proof.
  intros Gx Hk1 Hk2. destruct x as [[]|[]| |[] m e]; try discriminate; [reflexivity|].
  unfold good in Gx. apply andb_true_iff in Gx. destruct Gx as [_ Gx].
  apply Z.leb_le in Gx. cbn [F32.round].
  destruct F32_params as [H1 H2].
  apply (binary_round_good F32.prec F32.emax H1 H2); unfold emin, F32.prec, F32.emax; lia.
Qed.

(** A colour distance is a finite non-negative [float], not a NaN. *)
Lemma color_distance_good p0 p1 : good 24 128 11 (color_distance p0 p1) = true.
Proof.
  change (color_distance p0 p1)
    with (F32.round (F64.sqrt (F64.add (F64.add (chan_sq (r p0) (r p1))
                                                (chan_sq (g p0) (g p1)))
                                       (chan_sq (b_ p0) (b_ p1))))).
  destruct F64_params as [H1 H2].
  pose proof (chan_sq_good (r p0) (r p1)) as Gr.
  pose proof (chan_sq_good (g p0) (g p1)) as Gg.
  pose proof (chan_sq_good (b_ p0) (b_ p1)) as Gb.
  assert (G2 : good 53 1024 7 (F64.add (chan_sq (r p0) (r p1)) (chan_sq (g p0) (g p1))) = true).
  { apply (SFadd_good 53 1024 H1 H2 _ _ 5); try assumption; unfold emin; lia. }
  assert (G3 : good 53 1024 9 (F64.add (F64.add (chan_sq (r p0) (r p1))
                                                 (chan_sq (g p0) (g p1)))
                                        (chan_sq (b_ p0) (b_ p1))) = true).
  { apply (SFadd_good 53 1024 H1 H2 _ _ 7); try assumption; try (unfold emin; lia).
    apply (good_mono 53 1024 H1 H2 5 7); [lia | assumption]. }
  assert (G4 : good 53 1024 10 (F64.sqrt (F64.add (F64.add (chan_sq (r p0) (r p1))
                                                           (chan_sq (g p0) (g p1)))
                                                  (chan_sq (b_ p0) (b_ p1)))) = true).
  { apply (SFsqrt_good 53 1024 H1 H2 _ 9); try assumption; unfold emin; lia. }
  apply (F32_round_good _ 10); [assumption | lia | lia].
Qed.

Lemma cell_tracked_good pts wd c :
  Forall (fun d => good 24 128 11 d = true) (cell_tracked pts wd c).
Proof.
  destruct c as [col row]. unfold cell_tracked, cell_dists.
  destruct (col =? 0); repeat constructor; apply color_distance_good.
Qed.

Lemma dir_edge_w acos pts nms wd mx col row d :
  w (dir_edge acos pts nms wd mx col row d) = F32.one \/
  exists dist, In dist (cell_tracked pts wd (col, row)) /\
               w (dir_edge acos pts nms wd mx col row d) = F32.div dist mx.
Proof.
  unfold dir_edge, cell_tracked, cell_dists.
  destruct d; destruct (col =? 0); cbn [w];
    try (left; reflexivity);
    right; eexists; (split; [|reflexivity]); cbn [In]; tauto.
Qed.

Lemma angle_within acos pts nms i j :
  acos_in_range acos -> within F32.zero pi_f (angle acos pts nms i j) = true.
Proof.
  intros Hacos. unfold angle. destruct (isnan (z (pt pts i))); [reflexivity|].
  destruct (Hacos (F64.round (Dot3 (normal (nm nms i)) (normal (nm nms j)))))
    as [Hnan | (Hv & H0 & Hpi)].
  - rewrite Hnan. reflexivity.
  - destruct (isnan (acos (F64.round (Dot3 (normal (nm nms i)) (normal (nm nms j))))));
      [reflexivity|].
    cbn [negb]. apply F32_round_le_pi; assumption.
Qed.

Lemma acos_coarse_in_range : acos_in_range acos_coarse.
Proof.
  intros x. unfold acos_coarse.
  destruct (SFcompare x d_one) as [[]|]; destruct (SFcompare x d_mone) as [[]|];
    (left; reflexivity) || (right; repeat split).
Qed.

(** C3, as the claim has it, fails twice.  On the uniformly coloured grid the
    right edge of the first cell has a NaN weight, which is not in [0,1]; on a
    grid with a normal turned over, that edge has w2 = pi, above 1.58. *)
Lemma C3_counterexample :
  (exists gr' es n e,
      BuildFromPointCloud acos_coarse cloud32 nms32 Graph_default = Returns (gr', es, n) /\
      In e es /\ within F32.zero F32.one (w e) = false) /\
  (exists gr' es n e,
      BuildFromPointCloud acos_coarse cloud22 nms22 Graph_default = Returns (gr', es, n) /\
      In e es /\ w2 e = Some pi_f /\ within F32.zero f1_58 pi_f = false /\
      within F32.zero F32.one (w e) = true).
Proof.
  split.
  - eexists _, _, _, (dir_edge acos_coarse _ _ _ _ 0 0 Right).
    split; [apply BuildFromPointCloud_eq, grid_ok_32|]. split.
    + apply grid_edges_In. exists 0, 0, Right.
      split; [left; reflexivity|]. split; [|reflexivity]. vm_compute. reflexivity.
    + rewrite dir_edge_Right. cbn [w]. vm_compute. reflexivity.
  - eexists _, _, _, (dir_edge acos_coarse _ _ _ _ 0 0 Right).
    split; [apply BuildFromPointCloud_eq|].
    + unfold grid_ok. simpl. repeat split; try reflexivity; lia.
    + split.
      * apply grid_edges_In. exists 0, 0, Right.
        split; [left; reflexivity|]. split; [|reflexivity]. vm_compute. reflexivity.
      * rewrite dir_edge_Right. cbn [w w2].
        split; [vm_compute; reflexivity|]. split; vm_compute; reflexivity.
Qed.

(** C3, amended: on a well-formed grid, with an [acos] that returns a NaN or a
    number in [0, pi], every edge of the output has w2 in [0, pi], the 1.57
    sentinel included and never a NaN, and, when the global maximum colour
    distance is positive, w in [0,1]. *)
Theorem C3_weight_ranges acos cloud nms gr :
  acos_in_range acos -> grid_ok cloud nms ->
  exists gr' es n,
    BuildFromPointCloud acos cloud nms gr = Returns (gr', es, n) /\
    forall e, In e es ->
      (exists v, w2 e = Some v /\ within F32.zero pi_f v = true) /\
      (F32.ltb F32.zero (max_color_of (points cloud) (width cloud) (height cloud)) = true ->
       within F32.zero F32.one (w e) = true).
Proof.
  intros Hacos Hok. eexists _, _, _.
  split; [apply BuildFromPointCloud_eq; assumption|].
  intros e He. apply grid_edges_In in He.
  destruct He as (col & row & d & Hc & _ & ->). split.
  - destruct (dir_edge_w2 acos (points cloud) (points nms) (width cloud)
                (max_color_of (points cloud) (width cloud) (height cloud)) col row d)
      as (j & -> & _).
    eexists. split; [reflexivity|]. apply angle_within. assumption.
  - intros Hpos.
    destruct (dir_edge_w acos (points cloud) (points nms) (width cloud)
                (max_color_of (points cloud) (width cloud) (height cloud)) col row d)
      as [-> | (dist & Hin & ->)]; [reflexivity|].
    assert (Gall : Forall (fun x => good 24 128 11 x = true)
                     (flat_map (cell_tracked (points cloud) (width cloud))
                               (cells (width cloud) (height cloud)))).
    { apply Forall_forall. intros x Hx. apply in_flat_map in Hx.
      destruct Hx as (c & _ & Hx).
      pose proof (cell_tracked_good (points cloud) (width cloud) c) as G.
      rewrite Forall_forall in G. apply G. assumption. }
    destruct (max_over_spec 11 _ F32.zero eq_refl Gall) as (Gmx & _ & Hall).
    fold (max_color_of (points cloud) (width cloud) (height cloud)) in Gmx, Hall.
    rewrite Forall_forall in Hall, Gall.
    assert (Hd : In dist (flat_map (cell_tracked (points cloud) (width cloud))
                                   (cells (width cloud) (height cloud)))).
    { apply in_flat_map. exists (col, row). split; assumption. }
    apply F32_div_within with 11 11; auto.
Qed.

Lemma C3_witness :
  exists gr' es n,
    BuildFromPointCloud acos_coarse cloud22 nms22 Graph_default = Returns (gr', es, n) /\
    forall e, In e es ->
      (exists v, w2 e = Some v /\ within F32.zero pi_f v = true) /\
      (F32.ltb F32.zero (max_color_of (points cloud22) (width cloud22) (height cloud22)) = true ->
       within F32.zero F32.one (w e) = true).
Proof.
  apply (C3_weight_ranges acos_coarse cloud22 nms22 Graph_default acos_coarse_in_range).
  unfold grid_ok. simpl. repeat split; try reflexivity; lia.
Defined.

(** * Further properties of the code *)

(** ** Further properties of the relation-based builder *)

Lemma filter_none {A} (f : A -> bool) l :
  (forall x, In x l -> f x = false) -> filter f l = [].
Proof.
  induction l as [|x l IH]; intros H; simpl; [reflexivity|].
  rewrite (H x) by now left. apply IH. intros y Hy. apply H. now right.
Qed.

Lemma links0_repaired N rels i :
  1 <= i < N -> links0 (repaired N rels) i = true.
Proof.
  intros Hi. unfold repaired. rewrite links0_app.
  destruct (links0 rels i) eqn:E; [reflexivity|]. cbn [orb].
  apply links0_In. exists (synthetic i). split; [|split; reflexivity].
  apply in_map, unlinked_In. auto.
Qed.

Lemma unlinked_none N rels :
  (forall i, 1 <= i < N -> links0 rels i = true) -> unlinked N rels = [].
Proof.
  intros H. unfold unlinked. apply filter_none. intros i Hi.
  apply zseq_In in Hi. rewrite H by lia. reflexivity.
Qed.

Lemma repaired_linked N rels :
  (forall i, 1 <= i < N -> links0 rels i = true) -> repaired N rels = rels.
Proof.
  intros H. unfold repaired. rewrite unlinked_none by assumption.
  apply app_nil_r.
Qed.

(** X1: a second call of BuildFromSVM on the same builder finds every node
    linked and synthesizes nothing: the relation list stays as the first call
    left it, and the edges of that list are appended once more to the edges
    of the first call. *)
Theorem BuildFromSVM_second_call (gr : Graph) :
  Z.of_nat (length (relations gr)) + 2 * Z.max 0 (nodes gr - 1) <= UINT_MAX ->
  forallb has_probability (relations gr) = true ->
  exists g1 es1 n1 g2 n2,
    BuildFromSVM gr = Returns (g1, es1, n1) /\
    BuildFromSVM g1 = Returns (g2, es1 ++ map edge_of (relations g1), n2) /\
    relations g2 = relations g1 /\
    relations g1 = repaired (nodes gr) (relations gr) /\
    es1 = edges gr ++ map edge_of (relations g1).
Proof.
  intros Hlen Hp.
  pose proof (unlinked_length (nodes gr) (relations gr)) as Hu.
  assert (Hfit : fits (nodes gr) (relations gr)) by (unfold fits; lia).
  assert (Hp' : forallb has_probability (repaired (nodes gr) (relations gr)) = true)
    by now rewrite repaired_has_probability.
  rewrite BuildFromSVM_eq by assumption.
  rewrite emit_edges_ok by assumption. cbn [bind].
  eexists _, _, _, _, _. split; [reflexivity|].
  rewrite BuildFromSVM_eq; cbn [nodes relations edges pcl_cloud normals].
  - rewrite (repaired_linked (nodes gr) (repaired (nodes gr) (relations gr)))
      by (intros i Hi; now apply links0_repaired).
    rewrite emit_edges_ok by assumption. cbn [bind].
    split; [reflexivity|]. split; [reflexivity|]. split; reflexivity.
  - unfold fits, repaired. rewrite length_app, length_map. lia.
Qed.

Lemma BuildFromSVM_second_call_witness :
  exists g1 es1 n1 g2 n2,
    BuildFromSVM (Graph_of 3 [rel09]) = Returns (g1, es1, n1) /\
    BuildFromSVM g1 = Returns (g2, es1 ++ map edge_of (relations g1), n2) /\
    relations g2 = relations g1 /\
    relations g1 = repaired 3 [rel09] /\
    es1 = [] ++ map edge_of (relations g1).
Proof.
  apply (BuildFromSVM_second_call (Graph_of 3 [rel09])).
  - simpl. unfold UINT_MAX. lia.
  - reflexivity.
Defined.

Lemma zseq_sorted n : forall i, StronglySorted Z.lt (zseq i n).
Proof.
  induction n as [|n IH]; intros i; simpl; constructor; [apply IH|].
  apply Forall_forall. intros k Hk. apply zseq_In in Hk. lia.
Qed.

Lemma StronglySorted_filter {A} (R : A -> A -> Prop) (f : A -> bool) l :
  StronglySorted R l -> StronglySorted R (filter f l).
Proof.
  induction 1 as [|x l Hs IH Hall]; simpl; [constructor|].
  destruct (f x); [|assumption]. constructor; [assumption|].
  rewrite Forall_forall in *. intros y Hy. apply filter_In in Hy. apply Hall, Hy.
Qed.

(** X2: on a fresh builder the edges of the input relations come first, in
    input order; the synthesized edges follow in strictly increasing order of
    the node they link, each from node 0 with type 1 and weight 1.0. *)
Theorem BuildFromSVM_output_order (gr : Graph) :
  edges gr = [] ->
  fits (nodes gr) (relations gr) ->
  forallb has_probability (relations gr) = true ->
  exists gr' n miss,
    BuildFromSVM gr
    = Returns (gr', map edge_of (relations gr)
                    ++ map (fun i => mkEdge 0 i 1 F32.one None) miss, n) /\
    StronglySorted Z.lt miss /\
    (forall i, In i miss <-> 1 <= i < nodes gr /\ links0 (relations gr) i = false).
Proof.
  intros He Hfit Hp. exists (mkGraph (nodes gr) (repaired (nodes gr) (relations gr))
                               (map edge_of (repaired (nodes gr) (relations gr)))
                               (pcl_cloud gr) (normals gr)).
  eexists _, (unlinked (nodes gr) (relations gr)).
  split; [|split].
  - rewrite (BuildFromSVM_fresh gr He Hfit Hp). unfold repaired.
    rewrite map_app, map_map. reflexivity.
  - unfold unlinked. apply StronglySorted_filter, zseq_sorted.
  - intros i. apply unlinked_In.
Qed.

Lemma BuildFromSVM_output_order_witness :
  exists gr' n miss,
    BuildFromSVM (Graph_of 3 [rel09])
    = Returns (gr', map edge_of [rel09]
                    ++ map (fun i => mkEdge 0 i 1 F32.one None) miss, n) /\
    StronglySorted Z.lt miss /\
    (forall i, In i miss <-> 1 <= i < 3 /\ links0 [rel09] i = false).
Proof.
  apply (BuildFromSVM_output_order (Graph_of 3 [rel09])).
  - reflexivity.
  - unfold fits. simpl. unfold UINT_MAX. lia.
  - reflexivity.
Defined.

(** X3: when every node of [1,N) already has a relation from node 0 (so also
    when N <= 1, and on the empty builder), BuildFromSVM adds no relation and
    appends exactly one edge per input relation to the edges it holds. *)
Theorem BuildFromSVM_nothing_to_repair (gr : Graph) :
  (forall i, 1 <= i < nodes gr -> links0 (relations gr) i = true) ->
  fits (nodes gr) (relations gr) ->
  forallb has_probability (relations gr) = true ->
  exists gr' es n,
    BuildFromSVM gr = Returns (gr', es, n) /\
    relations gr' = relations gr /\
    es = edges gr ++ map edge_of (relations gr) /\
    edges gr' = es.
Proof.
  intros Hl Hfit Hp. rewrite BuildFromSVM_eq by assumption.
  rewrite repaired_linked by assumption.
  rewrite emit_edges_ok by assumption. cbn [bind].
  eexists _, _, _. split; [reflexivity|]. repeat split.
Qed.

Lemma BuildFromSVM_nothing_to_repair_witness :
  exists gr' es n,
    BuildFromSVM (Graph_of 2 [rel09]) = Returns (gr', es, n) /\
    relations gr' = [rel09] /\ es = [] ++ map edge_of [rel09] /\ edges gr' = es.
Proof.
  apply (BuildFromSVM_nothing_to_repair (Graph_of 2 [rel09])).
  - intros i Hi. change (nodes (Graph_of 2 [rel09])) with 2 in Hi.
    assert (E : i = 1) by lia. subst i. reflexivity.
  - unfold fits. simpl. unfold UINT_MAX. lia.
  - reflexivity.
Defined.

Lemma filter_map_length {A B} (f : A -> B) (p : B -> bool) l :
  length (filter p (map f l)) = length (filter (fun x => p (f x)) l).
Proof.
  induction l as [|x l IH]; simpl; [reflexivity|].
  destruct (p (f x)); simpl; now rewrite IH.
Qed.

Lemma filter_eq_NoDup (y : Z) l :
  NoDup l ->
  length (filter (fun i => i =? y) l) = if existsb (fun i => i =? y) l then 1%nat else 0%nat.
Proof.
  induction 1 as [|x l Hnin Hnd IH]; simpl; [reflexivity|].
  destruct (Z.eqb_spec x y) as [->|Hne]; simpl.
  - rewrite filter_none; [reflexivity|].
    intros k Hk. destruct (Z.eqb_spec k y); [subst; contradiction | reflexivity].
  - exact IH.
Qed.

(** X4: BuildFromSVM neither merges duplicates nor reads a relation
    backwards.  On a fresh builder the number of edges from [x] to [y] is the
    number of input relations from [x] to [y], plus one when [x] is node 0,
    [y] is a node of [1,N) and no input relation runs from 0 to [y]. *)
Theorem BuildFromSVM_multiplicity (gr : Graph) (x y : Z) :
  edges gr = [] ->
  fits (nodes gr) (relations gr) ->
  forallb has_probability (relations gr) = true ->
  exists gr' es n,
    BuildFromSVM gr = Returns (gr', es, n) /\
    length (filter (ends x y) es)
    = (length (filter (joins x y) (relations gr))
       + if ((x =? 0) && (1 <=? y) && (y <? nodes gr))%Z
            && negb (existsb (joins 0 y) (relations gr))
         then 1 else 0)%nat.
Proof.
  intros He Hfit Hp. eexists _, _, _.
  split; [apply BuildFromSVM_fresh; assumption|].
  unfold repaired. rewrite map_app, filter_app, length_app. f_equal.
  - rewrite filter_map_length. reflexivity.
  - rewrite map_map, filter_map_length.
    unfold ends, edge_of, synthetic. cbn [a b id_0 id_1].
    destruct (Z.eqb_spec x 0) as [->|Hx].
    + cbn [Z.eqb andb].
      rewrite (filter_eq_NoDup y) by apply unlinked_NoDup.
      change (existsb (joins 0 y) (relations gr)) with (links0 (relations gr) y).
      destruct (existsb (fun i => i =? y) (unlinked (nodes gr) (relations gr))) eqn:E.
      * apply existsb_exists in E. destruct E as (k & Hk & Hky).
        apply Z.eqb_eq in Hky. subst k. apply unlinked_In in Hk.
        destruct Hk as [Hr Hl]. rewrite Hl.
        destruct (Z.leb_spec 1 y); [|lia]. destruct (Z.ltb_spec y (nodes gr)); [|lia].
        reflexivity.
      * destruct (Z.leb_spec 1 y); [|reflexivity].
        destruct (Z.ltb_spec y (nodes gr)); [|reflexivity].
        destruct (links0 (relations gr) y) eqn:El; [reflexivity|].
        exfalso. apply not_true_iff_false in E. apply E.
        apply existsb_exists. exists y. split; [|apply Z.eqb_refl].
        apply unlinked_In. split; [lia | assumption].
    + rewrite filter_none; [reflexivity|]. intros k _.
      destruct (Z.eqb_spec 0 x); [lia | reflexivity].
Qed.

Lemma BuildFromSVM_multiplicity_witness :
  exists gr' es n,
    BuildFromSVM (Graph_of 3 [rel09; rel20; rel09]) = Returns (gr', es, n) /\
    length (filter (ends 0 2) es)
    = (length (filter (joins 0 2) [rel09; rel20; rel09])
       + if ((0 =? 0) && (1 <=? 2) && (2 <? 3))%Z
            && negb (existsb (joins 0 2) [rel09; rel20; rel09])
         then 1 else 0)%nat.
Proof.
  apply (BuildFromSVM_multiplicity (Graph_of 3 [rel09; rel20; rel09]) 0 2).
  - reflexivity.
  - unfold fits. simpl. unfold UINT_MAX. lia.
  - reflexivity.
Defined.

(** ** What the relation-based builder reads *)

Lemma read_of_links0 rels rels' i :
  map read_of rels = map read_of rels' -> links0 rels i = links0 rels' i.
Proof.
  revert rels'. induction rels as [|rl rels IH]; intros [|rl' rels'] H;
    try discriminate; [reflexivity|].
  cbn [map] in H. unfold read_of at 1 3 in H. injection H as H0 H1 _ Ht.
  unfold links0 in *. cbn [existsb]. rewrite (IH rels' Ht). now rewrite H0, H1.
Qed.

Lemma read_of_edge_of rels rels' :
  map read_of rels = map read_of rels' -> map edge_of rels = map edge_of rels'.
Proof.
  revert rels'. induction rels as [|rl rels IH]; intros [|rl' rels'] H;
    try discriminate; [reflexivity|].
  cbn [map] in *. unfold read_of at 1 3 in H. injection H as H0 H1 Hp Ht.
  rewrite (IH rels' Ht). f_equal. unfold edge_of.
  rewrite H0, H1. f_equal.
  destruct (rel_probability rl), (rel_probability rl'); cbn in Hp |- *; congruence.
Qed.

Lemma read_of_has_probability rels rels' :
  map read_of rels = map read_of rels' ->
  forallb has_probability rels = forallb has_probability rels'.
Proof.
  revert rels'. induction rels as [|rl rels IH]; intros [|rl' rels'] H;
    try discriminate; [reflexivity|].
  cbn [map forallb] in *. unfold read_of at 1 3 in H. injection H as _ _ Hp Ht.
  rewrite (IH rels' Ht). f_equal. unfold has_probability.
  destruct (rel_probability rl), (rel_probability rl'); cbn in Hp; congruence.
Qed.

(** X5: of a relation BuildFromSVM reads the two node ids and entry 0 of the
    probability vector, nothing else: two builders whose relations agree on
    these (and that hold the same edges, for the same number of nodes) return
    the same edges, whatever the ground truths, the types and the further
    probabilities are. *)
Theorem BuildFromSVM_unused_fields (gr gr' : Graph) :
  nodes gr' = nodes gr -> edges gr' = edges gr ->
  map read_of (relations gr') = map read_of (relations gr) ->
  fits (nodes gr) (relations gr) ->
  forallb has_probability (relations gr) = true ->
  exists g g' es n,
    BuildFromSVM gr = Returns (g, es, n) /\
    BuildFromSVM gr' = Returns (g', es, n).
Proof.
  intros Hn He Hr Hfit Hp.
  assert (Hlen : length (relations gr') = length (relations gr)).
  { apply (f_equal (@length _)) in Hr. now rewrite !length_map in Hr. }
  assert (Hfit' : fits (nodes gr') (relations gr')).
  { unfold fits in *. rewrite Hn, Hlen. exact Hfit. }
  assert (Hp' : forallb has_probability (relations gr') = true)
    by now rewrite (read_of_has_probability _ _ Hr).
  assert (Hu : unlinked (nodes gr') (relations gr') = unlinked (nodes gr) (relations gr)).
  { unfold unlinked. rewrite Hn. apply filter_ext. intros i.
    now rewrite (read_of_links0 _ _ i Hr). }
  rewrite !BuildFromSVM_eq by assumption.
  rewrite !emit_edges_ok by (now rewrite repaired_has_probability).
  cbn [bind]. eexists _, _, _, _. split; [reflexivity|].
  unfold repaired. rewrite He, Hu, !map_app, (read_of_edge_of _ _ Hr). reflexivity.
Qed.

Lemma BuildFromSVM_unused_fields_witness :
  exists g g' es n,
    BuildFromSVM (Graph_of 3 [rel09]) = Returns (g, es, n) /\
    BuildFromSVM (Graph_of 3 [rel09_other]) = Returns (g', es, n).
Proof.
  apply (BuildFromSVM_unused_fields (Graph_of 3 [rel09]) (Graph_of 3 [rel09_other]));
    try reflexivity.
  unfold fits. simpl. unfold UINT_MAX. lia.
Defined.

(** ** Further properties of the geometry-based builder *)

Lemma dir_edge_b acos pts nms wd mx col row d :
  b (dir_edge acos pts nms wd mx col row d)
  = match d with
    | Right => GetIdx wd (col + 1) row
    | Bottom => GetIdx wd col (row + 1)
    | BottomRight => GetIdx wd (col + 1) (row + 1)
    | BottomLeft => if col =? 0 then GetIdx wd (col + 1) (row + 1)
                    else GetIdx wd (col - 1) (row + 1)
    end.
Proof.
  unfold dir_edge, GetIdx. destruct (cell_dists pts wd col row) as [[[d0 d1] d2] d3].
  destruct d; try destruct (col =? 0); cbn [b]; lia.
Qed.

Lemma dir_edge_type acos pts nms wd mx col row d :
  type (dir_edge acos pts nms wd mx col row d) = 1.
Proof.
  unfold dir_edge. destruct (cell_dists pts wd col row) as [[[d0 d1] d2] d3].
  destruct d; try destruct (col =? 0); reflexivity.
Qed.

(** X6: every edge of BuildFromPointCloud joins a visited cell to one of its
    grid neighbours to the right, below, or diagonally below: the target is a
    point of the grid, in the same or the next row and at most one column
    away, so no edge wraps around the end of a row; the type is 1. *)
Theorem BuildFromPointCloud_edges_join_neighbours acos cloud nms gr :
  grid_ok cloud nms ->
  let wd := width cloud in
  let ht := height cloud in
  exists gr' es n,
    BuildFromPointCloud acos cloud nms gr = Returns (gr', es, n) /\
    forall e, In e es ->
      exists col row col' row',
        a e = GetIdx wd col row /\ b e = GetIdx wd col' row' /\
        0 <= col < wd - 1 /\ 0 <= row < ht - 1 /\
        0 <= col' < wd /\ 0 <= row' < ht /\
        ((col' = col + 1 /\ row' = row) \/
         (col' = col /\ row' = row + 1) \/
         (col' = col + 1 /\ row' = row + 1) \/
         (col' = col - 1 /\ row' = row + 1)) /\
        0 <= a e < b e /\ b e < wd * ht /\ type e = 1.
Proof.
  intros Hok wd ht. pose proof Hok as (Hwd & Hht & Hlen & Hnms & Hint).
  eexists _, _, _. split; [apply BuildFromPointCloud_eq; assumption|].
  intros e He. apply grid_edges_In in He.
  destruct He as (col & row & d & Hc & _ & ->).
  apply cells_In in Hc. fold wd ht in Hc. destruct Hc as [Hcol Hrow].
  rewrite dir_edge_a, dir_edge_b, dir_edge_type. fold wd.
  exists col, row.
  destruct d; [exists (col + 1), row | exists col, (row + 1)
               | exists (col + 1), (row + 1) |].
  4: { destruct (Z.eqb_spec col 0);
         [exists (col + 1), (row + 1) | exists (col - 1), (row + 1)];
         unfold GetIdx; repeat split; try lia; try nia. }
  all: unfold GetIdx; repeat split; try lia; try nia.
Qed.

Lemma BuildFromPointCloud_edges_join_neighbours_witness :
  exists gr' es n,
    BuildFromPointCloud acos_coarse cloud32 nms32 Graph_default = Returns (gr', es, n) /\
    forall e, In e es ->
      exists col row col' row',
        a e = GetIdx 3 col row /\ b e = GetIdx 3 col' row' /\
        0 <= col < 3 - 1 /\ 0 <= row < 2 - 1 /\
        0 <= col' < 3 /\ 0 <= row' < 2 /\
        ((col' = col + 1 /\ row' = row) \/
         (col' = col /\ row' = row + 1) \/
         (col' = col + 1 /\ row' = row + 1) \/
         (col' = col - 1 /\ row' = row + 1)) /\
        0 <= a e < b e /\ b e < 3 * 2 /\ type e = 1.
Proof.
  apply (BuildFromPointCloud_edges_join_neighbours acos_coarse cloud32 nms32
           Graph_default grid_ok_32).
Defined.

Lemma flat_map_length_le {A B} (f : A -> list B) (k : nat) l :
  (forall x, (length (f x) <= k)%nat) -> (length (flat_map f l) <= k * length l)%nat.
Proof.
  intros H. induction l as [|x l IH]; simpl; [lia|].
  rewrite length_app. specialize (H x). lia.
Qed.

Lemma flat_map_length_const {A B} (f : A -> list B) (k : nat) l :
  (forall x, In x l -> length (f x) = k) -> length (flat_map f l) = (k * length l)%nat.
Proof.
  intros H. induction l as [|x l IH]; simpl; [lia|].
  rewrite length_app, IH, (H x); [lia | now left |].
  intros y Hy. apply H. now right.
Qed.

Lemma cells_length wd ht :
  length (cells wd ht) = (Z.to_nat (wd - 1) * Z.to_nat (ht - 1))%nat.
Proof.
  unfold cells.
  rewrite (flat_map_length_const _ (Z.to_nat (wd - 1))).
  - now rewrite zseq_length.
  - intros row _. now rewrite length_map, zseq_length.
Qed.

Lemma cell_out_length acos pts nms wd mx c :
  (length (cell_out acos pts nms wd mx c) <= 4)%nat.
Proof.
  unfold cell_out, directions, dir_out. destruct c as [col row]. cbn [flat_map].
  rewrite !length_app.
  repeat match goal with
         | |- context [if ?g then _ else _] => destruct g
         end; simpl; lia.
Qed.

(** X7: BuildFromPointCloud emits at most four edges per visited cell, so at
    most 4 (width-1) (height-1) in all; a cloud of a single row or of a single
    column yields no edge at all. *)
Theorem BuildFromPointCloud_edge_count acos cloud nms gr :
  grid_ok cloud nms ->
  let wd := width cloud in
  let ht := height cloud in
  exists gr' es n,
    BuildFromPointCloud acos cloud nms gr = Returns (gr', es, n) /\
    Z.of_nat (length es) <= 4 * (wd - 1) * (ht - 1) /\
    (4 * (wd - 1) * (ht - 1) <= UINT_MAX -> n = Z.of_nat (length es)) /\
    (wd = 1 \/ ht = 1 -> es = [] /\ n = 0).
Proof.
  intros Hok wd ht. pose proof Hok as (Hwd & Hht & Hlen & Hnms & Hint).
  eexists _, _, _. split; [apply BuildFromPointCloud_eq; assumption|].
  fold wd ht.
  assert (Hb : Z.of_nat (length (grid_edges acos (points cloud) (points nms) wd ht))
               <= 4 * (wd - 1) * (ht - 1)).
  { unfold grid_edges.
    pose proof (flat_map_length_le
                  (cell_out acos (points cloud) (points nms) wd
                            (max_color_of (points cloud) wd ht)) 4 (cells wd ht)
                  (cell_out_length acos _ _ _ _)) as H.
    rewrite cells_length in H. fold wd ht in Hwd, Hht. nia. }
  split; [exact Hb|]. split.
  - intros Hfit. apply u32_small. lia.
  - intros H1.
    assert (Hz : length (grid_edges acos (points cloud) (points nms) wd ht) = 0%nat)
      by (fold wd ht in Hwd, Hht; nia).
    rewrite Hz. apply length_zero_iff_nil in Hz. rewrite Hz. split; reflexivity.
Qed.

Lemma BuildFromPointCloud_edge_count_witness :
  exists gr' es n,
    BuildFromPointCloud acos_coarse cloud32 nms32 Graph_default = Returns (gr', es, n) /\
    Z.of_nat (length es) <= 4 * (3 - 1) * (2 - 1) /\
    (4 * (3 - 1) * (2 - 1) <= UINT_MAX -> n = Z.of_nat (length es)) /\
    (3 = 1 \/ 2 = 1 -> es = [] /\ n = 0).
Proof.
  apply (BuildFromPointCloud_edge_count acos_coarse cloud32 nms32
           Graph_default grid_ok_32).
Defined.

Lemma StronglySorted_app {A} (R : A -> A -> Prop) l1 l2 :
  StronglySorted R l1 -> StronglySorted R l2 ->
  (forall x y, In x l1 -> In y l2 -> R x y) ->
  StronglySorted R (l1 ++ l2).
Proof.
  intros H1 H2 H. induction H1 as [|x l1 Hs IH Hall]; simpl; [assumption|].
  constructor.
  - apply IH. intros u v Hu Hv. apply H; simpl; auto.
  - apply Forall_app. split; [assumption|].
    apply Forall_forall. intros v Hv. apply H; simpl; auto.
Qed.

Lemma StronglySorted_flat_map {A B} (P : A -> A -> Prop) (R : B -> B -> Prop)
    (f : A -> list B) l :
  StronglySorted P l ->
  (forall x, In x l -> StronglySorted R (f x)) ->
  (forall x y u v, In x l -> In y l -> P x y -> In u (f x) -> In v (f y) -> R u v) ->
  StronglySorted R (flat_map f l).
Proof.
  intros Hs. induction Hs as [|x l Hs IH Hall]; intros Hin Hx; simpl; [constructor|].
  apply StronglySorted_app.
  - apply Hin. now left.
  - apply IH.
    + intros y Hy. apply Hin. now right.
    + intros y y' u v Hy Hy'. apply Hx; now right.
  - intros u v Hu Hv. apply in_flat_map in Hv. destruct Hv as (y & Hy & Hv).
    rewrite Forall_forall in Hall.
    apply (Hx x y); simpl; auto.
Qed.

Lemma StronglySorted_map {A B} (R : B -> B -> Prop) (f : A -> B) l :
  StronglySorted (fun x y => R (f x) (f y)) l -> StronglySorted R (map f l).
Proof.
  induction 1 as [|x l Hs IH Hall]; simpl; constructor; [assumption|].
  rewrite Forall_forall in *. intros y Hy. apply in_map_iff in Hy.
  destruct Hy as (u & <- & Hu). now apply Hall.
Qed.

Lemma zseq_sorted_from n :
  forall i, 0 <= i -> StronglySorted (fun r r' => 0 <= r < r') (zseq i n).
Proof.
  induction n as [|n IH]; intros i Hi; simpl; constructor; [apply IH; lia|].
  apply Forall_forall. intros k Hk. apply zseq_In in Hk. lia.
Qed.

Lemma cells_sorted wd ht :
  1 <= wd ->
  StronglySorted (fun c c' => GetIdx wd (fst c) (snd c) < GetIdx wd (fst c') (snd c'))
                 (cells wd ht).
Proof.
  intros Hwd. unfold cells.
  apply (StronglySorted_flat_map (fun r r' => 0 <= r < r')).
  - apply zseq_sorted_from. lia.
  - intros row _. apply StronglySorted_map. cbn [fst snd].
    pose proof (zseq_sorted (Z.to_nat (wd - 1)) 0) as H.
    induction H as [|x l Hs IH Hall]; constructor; [assumption|].
    rewrite Forall_forall in *. intros y Hy. specialize (Hall y Hy).
    unfold GetIdx. lia.
  - intros row row' u v _ _ Hr Hu Hv.
    apply in_map_iff in Hu, Hv.
    destruct Hu as (cu & <- & Hu), Hv as (cv & <- & Hv).
    apply zseq_In in Hu, Hv. cbn [fst snd]. unfold GetIdx. nia.
Qed.

Lemma StronglySorted_same {A} (R : A -> A -> Prop) l :
  (forall x y, In x l -> In y l -> R x y) -> StronglySorted R l.
Proof.
  induction l as [|x l IH]; intros H; constructor.
  - apply IH. intros u v Hu Hv. apply H; now right.
  - apply Forall_forall. intros y Hy. apply H; [now left | now right].
Qed.

Lemma cell_out_a acos pts nms wd mx col row e :
  In e (cell_out acos pts nms wd mx (col, row)) -> a e = GetIdx wd col row.
Proof.
  unfold cell_out. intros He. apply in_flat_map in He.
  destruct He as (d & _ & He). unfold dir_out in He.
  destruct (gate pts (GetIdx wd col row) (neighbour wd (GetIdx wd col row) d));
    [|destruct He].
  destruct He as [<- | []]. apply dir_edge_a.
Qed.

(** X8: the edges of BuildFromPointCloud come out in row-major order of the
    point they leave: along the output the field [a] never decreases. *)
Theorem BuildFromPointCloud_edges_sorted acos cloud nms gr :
  grid_ok cloud nms ->
  exists gr' es n,
    BuildFromPointCloud acos cloud nms gr = Returns (gr', es, n) /\
    StronglySorted Z.le (map a es).
Proof.
  intros Hok. pose proof Hok as (Hwd & Hht & Hlen & Hnms & Hint).
  eexists _, _, _. split; [apply BuildFromPointCloud_eq; assumption|].
  apply StronglySorted_map. unfold grid_edges.
  apply (StronglySorted_flat_map
           (fun c c' => GetIdx (width cloud) (fst c) (snd c)
                        < GetIdx (width cloud) (fst c') (snd c'))).
  - apply cells_sorted. assumption.
  - intros [col row] _. apply StronglySorted_same. intros u v Hu Hv.
    apply cell_out_a in Hu, Hv. lia.
  - intros [col row] [col' row'] u v _ _ Hlt Hu Hv.
    apply cell_out_a in Hu, Hv. cbn [fst snd] in Hlt. lia.
Qed.

Lemma BuildFromPointCloud_edges_sorted_witness :
  exists gr' es n,
    BuildFromPointCloud acos_coarse cloud32 nms32 Graph_default = Returns (gr', es, n) /\
    StronglySorted Z.le (map a es).
Proof.
  apply (BuildFromPointCloud_edges_sorted acos_coarse cloud32 nms32
           Graph_default grid_ok_32).
Defined.

Lemma at_nil {A} (i : Z) : at_ (@nil A) i = Undefined.
Proof. unfold at_. destruct (i <? 0); [reflexivity|]. now destruct (Z.to_nat i). Qed.

Lemma at_end {A} (v : list A) : at_ v (Z.of_nat (length v)) = Undefined.
Proof.
  unfold at_. destruct (Z.ltb_spec (Z.of_nat (length v)) 0); [reflexivity|].
  rewrite Nat2Z.id.
  destruct (nth_error v (length v)) eqn:E; [|reflexivity].
  assert (H' : nth_error v (length v) <> None) by congruence.
  apply nth_error_Some in H'. lia.
Qed.

Lemma for_from_pos {St} (body : Z -> St -> outcome St) i n s :
  0 < n ->
  for_from i (Z.to_nat n) body s
  = bind (body i s) (for_from (i + 1) (Z.to_nat (n - 1)) body).
Proof.
  intros Hn. replace n with (Z.succ (n - 1)) at 1 by lia.
  rewrite Z2Nat.inj_succ by lia. reflexivity.
Qed.

Lemma curv_scan_past_end pts nms n :
  forall i s,
    0 <= i <= Z.of_nat (length pts) -> Z.of_nat (length pts) < i + Z.of_nat n ->
    i + Z.of_nat n <= Z.of_nat (length nms) ->
    for_from i n (curv_step pts nms) s = Undefined.
Proof.
  induction n as [|n IH]; intros i s Hi Hn Hm; [lia|].
  cbn [for_from]. unfold curv_step at 1.
  destruct (Z.eq_dec i (Z.of_nat (length pts))) as [->|Hne].
  - rewrite at_end. reflexivity.
  - rewrite (at_nth pts i pt0) by lia. cbn [bind].
    destruct (negb (isnan (z (nth (Z.to_nat i) pts pt0)))).
    + rewrite (at_nth nms i nm0) by lia. cbn [bind]. apply IH; lia.
    + cbn [bind]. apply IH; lia.
Qed.

(** X9: the curvature scan runs over the normals and reads the point of the
    same index without a bounds check: with more normals than points the call
    reads past the end of the points, which is undefined behaviour. *)
Theorem BuildFromPointCloud_more_normals_than_points acos cloud nms gr :
  (length (points cloud) < length (points nms))%nat ->
  Z.of_nat (length (points nms)) <= UINT_MAX ->
  BuildFromPointCloud acos cloud nms gr = Undefined.
Proof.
  intros Hlt Hfit. unfold BuildFromPointCloud, max_curvature. cbv zeta.
  rewrite usize_fits by assumption. cbn [bind].
  rewrite Nat2Z.id, curv_scan_past_end; [reflexivity| | |]; lia.
Qed.

Lemma BuildFromPointCloud_more_normals_than_points_witness :
  BuildFromPointCloud acos_coarse cloud32 (mkCloud (repeat nm1 7) 3 2) Graph_default
  = Undefined.
Proof.
  apply (BuildFromPointCloud_more_normals_than_points acos_coarse cloud32
           (mkCloud (repeat nm1 7) 3 2) Graph_default).
  - simpl. lia.
  - simpl. unfold UINT_MAX. lia.
Defined.

(** X10: an empty cloud is not handled.  With no point and no normal, and a
    header other than one row or one column (width 0 and height 0, say), the
    loop bounds [height-1] and [width-1] wrap around and the first pass reads
    [points[0]] of an empty vector: undefined behaviour. *)
Theorem BuildFromPointCloud_empty_cloud acos cloud nms gr :
  points cloud = [] -> points nms = [] ->
  u32 (width cloud - 1) <> 0 -> u32 (height cloud - 1) <> 0 ->
  BuildFromPointCloud acos cloud nms gr = Undefined.
Proof.
  intros Hp Hn Hw Hh. unfold BuildFromPointCloud, max_curvature. cbv zeta.
  rewrite Hp, Hn. cbn [usize length Z.of_nat Z.leb Z.compare UINT_MAX bind
                        Z.to_nat for_from].
  unfold for_grid at 1.
  assert (H0 : forall x, u32 x <> 0 -> 0 < u32 x).
  { intros x Hx. unfold u32 in *. pose proof (Z.mod_pos_bound x 4294967296). lia. }
  rewrite for_from_pos by auto.
  rewrite for_from_pos by auto.
  unfold color_cell at 1. rewrite at_nil. reflexivity.
Qed.

Lemma BuildFromPointCloud_empty_cloud_witness :
  BuildFromPointCloud acos_coarse (mkCloud [] 0 0) (mkCloud [] 0 0) Graph_default
  = Undefined.
Proof.
  apply (BuildFromPointCloud_empty_cloud acos_coarse (mkCloud [] 0 0) (mkCloud [] 0 0)
           Graph_default); try reflexivity; vm_compute; discriminate.
Defined.

(** X11: the two builders share the edge vector of the object.
    BuildFromPointCloud empties it, BuildFromSVM does not: a relation build
    after a geometry build returns the geometry edges followed by the relation
    edges, while a geometry build after a relation build returns the geometry
    edges alone.  Each builder leaves the other's inputs in place. *)
Theorem builders_compose acos cloud nms gr :
  grid_ok cloud nms ->
  fits (nodes gr) (relations gr) ->
  forallb has_probability (relations gr) = true ->
  let pc := grid_edges acos (points cloud) (points nms) (width cloud) (height cloud) in
  let sv := map edge_of (repaired (nodes gr) (relations gr)) in
  exists g1 n1 g2 n2 g3 n3 g4,
    BuildFromPointCloud acos cloud nms gr = Returns (g1, pc, n1) /\
    BuildFromSVM g1 = Returns (g2, pc ++ sv, n2) /\
    BuildFromSVM gr = Returns (g3, edges gr ++ sv, n3) /\
    BuildFromPointCloud acos cloud nms g3 = Returns (g4, pc, n1) /\
    (pcl_cloud g2 = Some cloud /\ normals g2 = Some nms) /\
    (nodes g4 = nodes gr /\ relations g4 = repaired (nodes gr) (relations gr)).
Proof.
  intros Hok Hfit Hp pc sv.
  assert (Hp' : forallb has_probability (repaired (nodes gr) (relations gr)) = true)
    by now rewrite repaired_has_probability.
  eexists _, _, _, _, _, _, _.
  split; [apply BuildFromPointCloud_eq; assumption|].
  split.
  { rewrite BuildFromSVM_eq by assumption.
    cbn [nodes relations edges pcl_cloud normals].
    rewrite emit_edges_ok by assumption. cbn [bind]. reflexivity. }
  split.
  { rewrite BuildFromSVM_eq by assumption.
    rewrite emit_edges_ok by assumption. cbn [bind]. reflexivity. }
  split; [apply BuildFromPointCloud_eq; assumption|].
  split; split; reflexivity.
Qed.

Lemma builders_compose_witness :
  let pc := grid_edges acos_coarse (points cloud32) (points nms32) 3 2 in
  let sv := map edge_of (repaired 3 [rel09]) in
  exists g1 n1 g2 n2 g3 n3 g4,
    BuildFromPointCloud acos_coarse cloud32 nms32 (Graph_of 3 [rel09])
    = Returns (g1, pc, n1) /\
    BuildFromSVM g1 = Returns (g2, pc ++ sv, n2) /\
    BuildFromSVM (Graph_of 3 [rel09]) = Returns (g3, [] ++ sv, n3) /\
    BuildFromPointCloud acos_coarse cloud32 nms32 g3 = Returns (g4, pc, n1) /\
    (pcl_cloud g2 = Some cloud32 /\ normals g2 = Some nms32) /\
    (nodes g4 = 3 /\ relations g4 = repaired 3 [rel09]).
Proof.
  apply (builders_compose acos_coarse cloud32 nms32 (Graph_of 3 [rel09]) grid_ok_32).
  - unfold fits. simpl. unfold UINT_MAX. lia.
  - reflexivity.
Defined.

Section Unused.

Variable acos : float -> float.
Variables (pts pts' : list PointXYZRGB) (nms nms' : list Normal).
Hypothesis Hpts : map seen pts' = map seen pts.
Hypothesis Hnms : map normal nms' = map normal nms.

Lemma seen_pt i : seen (pt pts' i) = seen (pt pts i).
Proof using Hpts.
  unfold pt. rewrite <- !(map_nth seen). now rewrite Hpts.
Qed.

Lemma normal_nm i : normal (nm nms' i) = normal (nm nms i).
Proof using Hnms.
  unfold nm. rewrite <- !(map_nth normal). now rewrite Hnms.
Qed.

Lemma z_pt i : z (pt pts' i) = z (pt pts i).
Proof using Hpts. pose proof (seen_pt i) as H. unfold seen in H. congruence. Qed.

Lemma color_distance_pt i j :
  color_distance (pt pts' i) (pt pts' j) = color_distance (pt pts i) (pt pts j).
Proof using Hpts.
  pose proof (seen_pt i) as Hi. pose proof (seen_pt j) as Hj.
  unfold seen in Hi, Hj. injection Hi as _ Hr Hg Hb. injection Hj as _ Hr' Hg' Hb'.
  unfold color_distance. now rewrite Hr, Hg, Hb, Hr', Hg', Hb'.
Qed.

Lemma gate_pt i j : gate pts' i j = gate pts i j.
Proof using Hpts. unfold gate. now rewrite !z_pt. Qed.

Lemma cell_dists_pt wd col row : cell_dists pts' wd col row = cell_dists pts wd col row.
Proof using Hpts. unfold cell_dists. cbv zeta. now rewrite !color_distance_pt. Qed.

Lemma max_color_of_pt wd ht : max_color_of pts' wd ht = max_color_of pts wd ht.
Proof using Hpts.
  unfold max_color_of. f_equal. apply flat_map_ext. intros [col row].
  unfold cell_tracked. now rewrite cell_dists_pt.
Qed.

Lemma angle_pt i j : angle acos pts' nms' i j = angle acos pts nms i j.
Proof using Hpts Hnms. unfold angle. now rewrite z_pt, !normal_nm. Qed.

Lemma grid_edges_pt wd ht :
  grid_edges acos pts' nms' wd ht = grid_edges acos pts nms wd ht.
Proof using Hpts Hnms.
  unfold grid_edges. rewrite max_color_of_pt. apply flat_map_ext. intros [col row].
  unfold cell_out. apply flat_map_ext. intros d.
  unfold dir_out, dir_edge. rewrite gate_pt, cell_dists_pt, !angle_pt. reflexivity.
Qed.

End Unused.

(** X12: of a point BuildFromPointCloud uses the depth and the colour only,
    of a normal the vector only.  The coordinates x and y, the curvature (its
    maximum is computed and printed, then dropped) and the header of the
    normal cloud have no influence on the edges. *)
Theorem BuildFromPointCloud_unused_fields acos cloud cloud' nms nms' gr :
  grid_ok cloud nms ->
  width cloud' = width cloud -> height cloud' = height cloud ->
  map seen (points cloud') = map seen (points cloud) ->
  map normal (points nms') = map normal (points nms) ->
  exists g g' es n,
    BuildFromPointCloud acos cloud nms gr = Returns (g, es, n) /\
    BuildFromPointCloud acos cloud' nms' gr = Returns (g', es, n).
Proof.
  intros Hok Hw Hh Hp Hn. pose proof Hok as (Hwd & Hht & Hlen & Hnms & Hint).
  assert (Hok' : grid_ok cloud' nms').
  { unfold grid_ok. rewrite Hw, Hh.
    apply (f_equal (@length _)) in Hp, Hn. rewrite !length_map in Hp, Hn.
    repeat split; try assumption; try lia; congruence. }
  eexists _, _, _, _.
  split; [apply BuildFromPointCloud_eq; assumption|].
  rewrite (BuildFromPointCloud_eq acos cloud' nms' gr Hok'). cbv zeta.
  rewrite Hw, Hh, (grid_edges_pt acos _ _ _ _ Hp Hn). reflexivity.
Qed.

Lemma BuildFromPointCloud_unused_fields_witness :
  exists g g' es n,
    BuildFromPointCloud acos_coarse cloud32 nms32 Graph_default = Returns (g, es, n) /\
    BuildFromPointCloud acos_coarse (mkCloud (repeat pt_moved 6) 3 2)
                        (mkCloud (repeat nm_curved 6) 0 0) Graph_default
    = Returns (g', es, n).
Proof.
  apply (BuildFromPointCloud_unused_fields acos_coarse cloud32
           (mkCloud (repeat pt_moved 6) 3 2) nms32 (mkCloud (repeat nm_curved 6) 0 0)
           Graph_default grid_ok_32); reflexivity.
Defined.

(** ** Normals that are missing *)

Lemma plain_bind {A B} (m : outcome A) (k : A -> outcome B) :
  plain m -> (forall v, plain (k v)) -> plain (bind m k).
Proof.
  intros [[v ->] | ->] Hk; cbn [bind]; [apply Hk | right; reflexivity].
Qed.

Lemma plain_Returns {A} (v : A) : plain (Returns v).
Proof. left. eauto. Qed.

Lemma plain_Undefined {A} : plain (@Undefined A).
Proof. right. reflexivity. Qed.

Lemma plain_at {A} (v : list A) i : plain (at_ v i).
Proof.
  unfold at_. destruct (i <? 0); [apply plain_Undefined|].
  destruct (nth_error v (Z.to_nat i)); [apply plain_Returns | apply plain_Undefined].
Qed.

Lemma plain_normal_angle acos pts nms i j : plain (normal_angle acos pts nms i j).
Proof.
  unfold normal_angle. apply plain_bind; [apply plain_at|]. intros p0.
  apply plain_bind; [|intros; apply plain_Returns].
  destruct (isnan (z p0)); [apply plain_Returns|].
  apply plain_bind; [apply plain_at|]. intros n0.
  apply plain_bind; [apply plain_at|]. intros n1. apply plain_Returns.
Qed.

Lemma plain_depth_gate pts i j : plain (depth_gate pts i j).
Proof.
  unfold depth_gate. apply plain_bind; [apply plain_at|]. intros p0.
  apply plain_bind; [apply plain_at|]. intros p1. apply plain_Returns.
Qed.

Lemma plain_edge_cell acos pts nms wd cd mx col row es :
  plain (edge_cell acos pts nms wd cd mx col row es).
Proof.
  unfold edge_cell. cbv zeta.
  apply plain_bind.
  { unfold cd_read. destruct (cd (GetIdx wd col row));
      [apply plain_Returns | apply plain_Undefined]. }
  intros [[[d0 d1] d2] d3].
  repeat (first [ apply plain_bind; [first [apply plain_normal_angle | apply plain_depth_gate]|];
                  intros ?
                | apply plain_Returns
                | apply plain_Undefined
                | match goal with
                  | |- plain (if ?c then _ else _) => destruct c
                  end ]).
Qed.

Lemma mfold_reaches_undefined {St A} (f : A -> St -> outcome St) (c0 : A) l :
  (forall c s, plain (f c s)) -> (forall s, f c0 s = Undefined) ->
  In c0 l -> forall s, mfold f l s = Undefined.
Proof.
  intros Hp H0. induction l as [|x l IH]; intros Hin s; [destruct Hin|].
  cbn [mfold]. destruct (Hp x s) as [[s' E] | E]; rewrite E; cbn [bind];
    [|reflexivity].
  destruct Hin as [-> | Hin]; [rewrite H0 in E; discriminate | now apply IH].
Qed.

Lemma at_past {A} (v : list A) i : Z.of_nat (length v) <= i -> at_ v i = Undefined.
Proof.
  intros H. unfold at_. destruct (Z.ltb_spec i 0); [reflexivity|].
  destruct (nth_error v (Z.to_nat i)) eqn:E; [|reflexivity].
  assert (H' : nth_error v (Z.to_nat i) <> None) by congruence.
  apply nth_error_Some in H'. lia.
Qed.

Lemma curv_scan_within pts nms n :
  forall i s, 0 <= i -> i + Z.of_nat n <= Z.of_nat (length nms) ->
              (length nms <= length pts)%nat ->
              exists v, for_from i n (curv_step pts nms) s = Returns v.
Proof.
  induction n as [|n IH]; intros i s Hi Hn Hle; cbn [for_from]; [eauto|].
  unfold curv_step at 1. rewrite (at_nth pts i pt0) by lia. cbn [bind].
  destruct (negb (isnan (z (nth (Z.to_nat i) pts pt0)))).
  - rewrite (at_nth nms i nm0) by lia. cbn [bind]. apply IH; lia.
  - cbn [bind]. apply IH; lia.
Qed.

(** The two passes, for normals of any length not above that of the points:
    the first pass fills the colour distances, the second runs over the
    cells. *)
Lemma BuildFromPointCloud_passes acos cloud nms gr :
  1 <= width cloud -> 1 <= height cloud ->
  Z.of_nat (length (points cloud)) = width cloud * height cloud ->
  width cloud * height cloud < 2147483648 ->
  (length (points nms) <= length (points cloud))%nat ->
  exists cd,
    (forall col row, In (col, row) (cells (width cloud) (height cloud)) ->
       cd (GetIdx (width cloud) col row)
       = Some (cell_dists (points cloud) (width cloud) col row)) /\
    BuildFromPointCloud acos cloud nms gr
    = do es <- mfold (fun c => edge_cell acos (points cloud) (points nms) (width cloud) cd
                                 (max_color_of (points cloud) (width cloud) (height cloud))
                                 (fst c) (snd c))
                     (cells (width cloud) (height cloud)) [];
      Returns (mkGraph (nodes gr) (relations gr) es (Some cloud) (Some nms),
               es, u32 (Z.of_nat (length es))).
Proof.
  intros Hwd Hht Hlen Hint Hle.
  unfold BuildFromPointCloud, max_curvature. cbv zeta.
  rewrite usize_fits by (unfold UINT_MAX; lia). cbn [bind]. rewrite Nat2Z.id.
  destruct (curv_scan_within (points cloud) (points nms) (length (points nms))
              0 F32.zero ltac:(lia) ltac:(lia) Hle) as [v ->].
  cbn [bind].
  assert (Hw : 1 <= width cloud <= UINT_MAX) by (unfold UINT_MAX; nia).
  assert (Hh : 1 <= height cloud <= UINT_MAX) by (unfold UINT_MAX; nia).
  rewrite !for_grid_mfold by assumption.
  destruct (color_pass acos (points cloud) (map (fun _ => nm0) (points cloud))
              (width cloud) (height cloud) Hwd Hht Hlen (length_map _ _) Hint
              (cells (width cloud) (height cloud)) cd_empty F32.zero (fun c H => H))
    as (cd' & -> & Hnew & _).
  cbn [bind]. rewrite for_grid_mfold by assumption.
  exists cd'. split; [exact Hnew | reflexivity].
Qed.

(** X13: a visited cell of valid depth needs its normal.  If the normals end
    before the index of such a cell, the normals-angle block reads
    [normals->points[idx]] past the end: the call has undefined behaviour. *)
Theorem BuildFromPointCloud_missing_normal acos cloud nms gr col row :
  1 <= width cloud -> 1 <= height cloud ->
  Z.of_nat (length (points cloud)) = width cloud * height cloud ->
  width cloud * height cloud < 2147483648 ->
  0 <= col < width cloud - 1 -> 0 <= row < height cloud - 1 ->
  isnan (z (pt (points cloud) (GetIdx (width cloud) col row))) = false ->
  Z.of_nat (length (points nms)) <= GetIdx (width cloud) col row ->
  BuildFromPointCloud acos cloud nms gr = Undefined.
Proof.
  intros Hwd Hht Hlen Hint Hc Hr Hz Hn.
  assert (Hidx : 0 <= GetIdx (width cloud) col row < width cloud * height cloud)
    by (unfold GetIdx; nia).
  destruct (BuildFromPointCloud_passes acos cloud nms gr Hwd Hht Hlen Hint ltac:(lia))
    as (cd & Hcd & ->).
  rewrite (mfold_reaches_undefined _ (col, row)); [reflexivity | | |].
  - intros c s. apply plain_edge_cell.
  - intros s. cbn [fst snd]. unfold edge_cell. cbv zeta. unfold cd_read.
    rewrite Hcd by (apply cells_In; tauto).
    destruct (cell_dists (points cloud) (width cloud) col row) as [[[d0 d1] d2] d3].
    cbn [bind]. unfold normal_angle at 1.
    rewrite (at_nth (points cloud) _ pt0) by lia. cbn [bind].
    fold (pt (points cloud) (GetIdx (width cloud) col row)). rewrite Hz.
    rewrite at_past by assumption. reflexivity.
  - apply cells_In. tauto.
Qed.

Lemma BuildFromPointCloud_missing_normal_witness :
  BuildFromPointCloud acos_coarse cloud32 (mkCloud [] 3 2) Graph_default = Undefined.
Proof.
  apply (BuildFromPointCloud_missing_normal acos_coarse cloud32 (mkCloud [] 3 2)
           Graph_default 0 0); simpl; try reflexivity; lia.
Defined.




(** ** The first pass *)

Lemma max_over_In ds : forall m, max_over ds m = m \/ In (max_over ds m) ds.
Proof.
  induction ds as [|d ds IH]; intros m; [left; reflexivity|].
  cbn [max_over fold_left]. fold (max_over ds (track_max d m)).
  destruct (IH (track_max d m)) as [E | Hin].
  - rewrite E. unfold track_max. destruct (F32.ltb m d); [right; now left | now left].
  - right. now right.
Qed.

(** X15: the first pass stores, for every visited cell, the colour distances
    to the right, lower and lower-right neighbours and, off column 0, to the
    lower-left one; at column 0 it stores the constant 1.0 instead, which
    takes no part in the maximum.  The maximum it leaves in [max_color] is +0
    or one of the distances it compared, and none of them is above it. *)
Theorem color_pass_maximum (cloud : PointCloud PointXYZRGB) :
  1 <= width cloud -> 1 <= height cloud ->
  Z.of_nat (length (points cloud)) = width cloud * height cloud ->
  width cloud * height cloud < 2147483648 ->
  let pts := points cloud in
  let wd := width cloud in
  let ht := height cloud in
  let tracked := flat_map (cell_tracked pts wd) (cells wd ht) in
  exists cd mx,
    for_grid wd ht (color_cell pts wd) (cd_empty, F32.zero) = Returns (cd, mx) /\
    (mx = F32.zero \/ In mx tracked) /\
    (forall d, In d tracked -> F32.ltb mx d = false) /\
    (forall col row, 0 <= col < wd - 1 -> 0 <= row < ht - 1 ->
       let idx := GetIdx wd col row in
       cd idx = Some (color_distance (pt pts idx) (pt pts (idx + 1)),
                      color_distance (pt pts idx) (pt pts (idx + wd)),
                      color_distance (pt pts idx) (pt pts (idx + wd + 1)),
                      if col =? 0 then F32.one
                      else color_distance (pt pts idx) (pt pts (idx + wd - 1))) /\
       forall d, In d (cell_tracked pts wd (col, row)) <->
                 d = color_distance (pt pts idx) (pt pts (idx + 1)) \/
                 d = color_distance (pt pts idx) (pt pts (idx + wd)) \/
                 d = color_distance (pt pts idx) (pt pts (idx + wd + 1)) \/
                 (col <> 0 /\ d = color_distance (pt pts idx) (pt pts (idx + wd - 1)))).
Proof.
  intros Hwd Hht Hlen Hint pts wd ht tracked.
  assert (Hw : 1 <= wd <= UINT_MAX) by (unfold UINT_MAX, wd; nia).
  assert (Hh : 1 <= ht <= UINT_MAX) by (unfold UINT_MAX, ht; nia).
  rewrite for_grid_mfold by assumption.
  destruct (color_pass (fun x => x) pts (map (fun _ => nm0) pts) wd ht Hwd Hht Hlen
              (length_map _ _) Hint (cells wd ht) cd_empty F32.zero (fun c H => H))
    as (cd & Hrun & Hnew & _).
  exists cd, (max_over tracked F32.zero). split; [exact Hrun|].
  assert (Gall : Forall (fun x => good 24 128 11 x = true) tracked).
  { apply Forall_forall. intros x Hx. apply in_flat_map in Hx.
    destruct Hx as (c & _ & Hx).
    pose proof (cell_tracked_good pts wd c) as G.
    rewrite Forall_forall in G. now apply G. }
  destruct (max_over_spec 11 tracked F32.zero eq_refl Gall) as (_ & _ & Hall).
  split; [apply max_over_In|]. split.
  - rewrite Forall_forall in Hall. exact Hall.
  - intros col row Hc Hr idx. unfold idx. split.
    + rewrite Hnew by (apply cells_In; tauto). reflexivity.
    + intros d. unfold cell_tracked, cell_dists.
      destruct (Z.eqb_spec col 0); cbn [In]; intuition congruence.
Qed.

Lemma color_pass_maximum_witness :
  exists cd mx,
    for_grid 2 2 (color_cell (points cloud22) 2) (cd_empty, F32.zero) = Returns (cd, mx) /\
    (mx = F32.zero \/
     In mx (flat_map (cell_tracked (points cloud22) 2) (cells 2 2))) /\
    (forall d, In d (flat_map (cell_tracked (points cloud22) 2) (cells 2 2)) ->
               F32.ltb mx d = false) /\
    (forall col row, 0 <= col < 2 - 1 -> 0 <= row < 2 - 1 ->
       let idx := GetIdx 2 col row in
       cd idx = Some (color_distance (pt (points cloud22) idx) (pt (points cloud22) (idx + 1)),
                      color_distance (pt (points cloud22) idx) (pt (points cloud22) (idx + 2)),
                      color_distance (pt (points cloud22) idx)
                                     (pt (points cloud22) (idx + 2 + 1)),
                      if col =? 0 then F32.one
                      else color_distance (pt (points cloud22) idx)
                                          (pt (points cloud22) (idx + 2 - 1))) /\
       forall d, In d (cell_tracked (points cloud22) 2 (col, row)) <->
                 d = color_distance (pt (points cloud22) idx) (pt (points cloud22) (idx + 1)) \/
                 d = color_distance (pt (points cloud22) idx) (pt (points cloud22) (idx + 2)) \/
                 d = color_distance (pt (points cloud22) idx)
                                    (pt (points cloud22) (idx + 2 + 1)) \/
                 (col <> 0 /\
                  d = color_distance (pt (points cloud22) idx)
                                     (pt (points cloud22) (idx + 2 - 1)))).
Proof.
  apply (color_pass_maximum cloud22); simpl; lia.
Defined.

(** ** The largest colour distance *)

Lemma div_eucl_mul m k : 0 < m -> Z.div_eucl (m * k) m = (k, 0).
Proof.
  intros Hm. pose proof (Z.div_mul k m ltac:(lia)) as Hq.
  pose proof (Z.mod_mul k m ltac:(lia)) as Hr.
  rewrite Z.mul_comm in Hq, Hr. unfold Z.div, Z.modulo in Hq, Hr.
  destruct (Z.div_eucl (m * k) m) as [q r]. cbn [fst snd] in Hq, Hr. congruence.
Qed.

Lemma F32_div_self s m e :
  F32.div (S754_finite s m e) (S754_finite s m e) = F32.one.
Proof.
  unfold F32.div, SFdiv, SFdiv_core_binary.
  replace (Zdigits2 (Z.pos m) + e - (Zdigits2 (Z.pos m) + e)) with 0 by lia.
  rewrite Z.sub_diag.
  change (Z.min (fexp F32.prec F32.emax 0) 0) with (-24).
  change (0 - -24) with 24.
  rewrite Z.shiftl_mul_pow2 by lia.
  rewrite div_eucl_mul by lia. rewrite new_location_exact.
  rewrite xorb_nilpotent. vm_compute. reflexivity.
Qed.

Lemma dir_edge_weight acos pts nms wd mx col row d :
  (d = BottomLeft -> col <> 0) ->
  let e := dir_edge acos pts nms wd mx col row d in
  a e = GetIdx wd col row /\ b e = neighbour wd (GetIdx wd col row) d /\
  w e = F32.div (dist_of (cell_dists pts wd col row) d) mx.
Proof.
  intros Hd. unfold dir_edge, dist_of.
  destruct (cell_dists pts wd col row) as [[[d0 d1] d2] d3].
  destruct d; cbn [neighbour]; try (repeat split; reflexivity).
  destruct (Z.eqb_spec col 0) as [E|E]; [now destruct Hd | repeat split; reflexivity].
Qed.

(** X16: the weights are normalised exactly.  When [max_color] is above
    zero, some visited cell has, in some direction, a colour distance equal to
    [max_color]; and every candidate edge whose colour distance equals
    [max_color] and that passes the depth test is returned with the weight
    1.0 sharp, the quotient of a number by itself. *)
Theorem BuildFromPointCloud_largest_distance_weighs_one acos cloud nms gr :
  grid_ok cloud nms ->
  let pts := points cloud in
  let wd := width cloud in
  let ht := height cloud in
  let mx := max_color_of pts wd ht in
  F32.ltb F32.zero mx = true ->
  exists gr' es n,
    BuildFromPointCloud acos cloud nms gr = Returns (gr', es, n) /\
    (exists col row d,
        0 <= col < wd - 1 /\ 0 <= row < ht - 1 /\ (d = BottomLeft -> col <> 0) /\
        dist_of (cell_dists pts wd col row) d = mx) /\
    (forall col row d,
        0 <= col < wd - 1 -> 0 <= row < ht - 1 -> (d = BottomLeft -> col <> 0) ->
        dist_of (cell_dists pts wd col row) d = mx ->
        gate pts (GetIdx wd col row) (neighbour wd (GetIdx wd col row) d) = true ->
        exists e, In e es /\ a e = GetIdx wd col row /\
                  b e = neighbour wd (GetIdx wd col row) d /\ w e = F32.one).
Proof.
  intros Hok pts wd ht mx Hpos.
  eexists _, _, _. split; [apply BuildFromPointCloud_eq; assumption|].
  assert (Gall : Forall (fun x => good 24 128 11 x = true)
                        (flat_map (cell_tracked pts wd) (cells wd ht))).
  { apply Forall_forall. intros x Hx. apply in_flat_map in Hx.
    destruct Hx as (c & _ & Hx).
    pose proof (cell_tracked_good pts wd c) as G.
    rewrite Forall_forall in G. now apply G. }
  destruct (max_over_spec 11 _ F32.zero eq_refl Gall) as (Gmx & _ & _).
  fold (max_color_of pts wd ht) in Gmx. fold mx in Gmx.
  assert (Hself : F32.div mx mx = F32.one).
  { destruct mx as [[]|[]| |[] m e]; try discriminate. apply F32_div_self. }
  split.
  - assert (Hin : In mx (flat_map (cell_tracked pts wd) (cells wd ht))).
    { assert (Hm : max_over (flat_map (cell_tracked pts wd) (cells wd ht)) F32.zero = mx)
        by reflexivity.
      clearbody mx.
      pose proof (max_over_In (flat_map (cell_tracked pts wd) (cells wd ht)) F32.zero) as H.
      rewrite Hm in H.
      destruct H as [E | H]; [rewrite E in Hpos; discriminate | exact H]. }
    apply in_flat_map in Hin. destruct Hin as ([col row] & Hc & Hin).
    apply cells_In in Hc. destruct Hc as [Hc Hr].
    unfold cell_tracked in Hin.
    destruct (cell_dists pts wd col row) as [[[d0 d1] d2] d3] eqn:Ed.
    exists col, row. rewrite Ed.
    destruct (Z.eqb_spec col 0) as [E0|E0]; cbn [In] in Hin;
      destruct Hin as [H|[H|[H|H]]];
      try (exists Right; repeat split; try assumption; try discriminate; lia);
      try (exists Bottom; repeat split; try assumption; try discriminate; lia);
      try (exists BottomRight; repeat split; try assumption; try discriminate; lia);
      try contradiction.
    destruct H as [H|[]].
    exists BottomLeft. repeat split; try assumption; lia.
  - intros col row d Hc Hr Hd Hdist G.
    destruct (dir_edge_weight acos pts (points nms) wd mx col row d Hd) as (Ha & Hb & Hw).
    eexists. split; [|split; [exact Ha | split; [exact Hb|]]].
    + apply grid_edges_In. exists col, row, d.
      split; [apply cells_In; tauto|]. split; [exact G | reflexivity].
    + rewrite Hw, Hdist. exact Hself.
Qed.

Lemma BuildFromPointCloud_largest_distance_weighs_one_witness :
  exists gr' es n,
    BuildFromPointCloud acos_coarse cloud22 nms22 Graph_default = Returns (gr', es, n) /\
    (exists col row d,
        0 <= col < 2 - 1 /\ 0 <= row < 2 - 1 /\ (d = BottomLeft -> col <> 0) /\
        dist_of (cell_dists (points cloud22) 2 col row) d
        = max_color_of (points cloud22) 2 2) /\
    (forall col row d,
        0 <= col < 2 - 1 -> 0 <= row < 2 - 1 -> (d = BottomLeft -> col <> 0) ->
        dist_of (cell_dists (points cloud22) 2 col row) d
        = max_color_of (points cloud22) 2 2 ->
        gate (points cloud22) (GetIdx 2 col row) (neighbour 2 (GetIdx 2 col row) d) = true ->
        exists e, In e es /\ a e = GetIdx 2 col row /\
                  b e = neighbour 2 (GetIdx 2 col row) d /\ w e = F32.one).
Proof.
  apply (BuildFromPointCloud_largest_distance_weighs_one acos_coarse cloud22 nms22
           Graph_default).
  - unfold grid_ok. simpl. repeat split; try reflexivity; lia.
  - vm_compute. reflexivity.
Defined.

(** ** Depth gate *)

Lemma binary_round_aux_sign prec emax sx mx ex lx :
  match binary_round_aux prec emax sx mx ex lx with
  | S754_zero s | S754_infinity s | S754_finite s _ _ => s = sx
  | S754_nan => True
  end.
Proof.
  unfold binary_round_aux.
  destruct (shr_fexp prec emax mx ex lx) as [mrs' e'].
  destruct (shr_fexp prec emax _ e' loc_Exact) as [mrs'' e''].
  destruct (shr_m mrs''); [reflexivity| |exact I].
  destruct (e'' <=? emax - prec); reflexivity.
Qed.

(** Nothing is strictly below a zero or a negative number once its sign is
    dropped. *)
Lemma SFltb_abs_nonpos x y :
  match y with
  | S754_zero _ | S754_infinity true | S754_finite true _ _ | S754_nan => True
  | _ => False
  end ->
  SFltb (SFabs x) y = false.
Proof.
  destruct x as [[]|[]| |[] mx ex], y as [[]|[]| |[] my ey];
    intros H; try contradiction; reflexivity.
Qed.

Lemma gate_source_positive pts i j :
  gate pts i j = true -> F32.ltb F32.zero (z (pt pts i)) = true.
Proof.
  unfold gate. intros H. apply andb_true_iff in H. destruct H as [H Hlt].
  apply andb_true_iff in H. destruct H as [Hn _].
  unfold fabs, F32.ltb, F32.mul in *.
  destruct (z (pt pts i)) as [s|[]| |[] m e]; try discriminate; try reflexivity;
    rewrite SFltb_abs_nonpos in Hlt; try discriminate; try exact I.
  unfold z_adapt, SFmul. cbn [xorb].
  match goal with
  | |- context [binary_round_aux ?p ?x ?sx ?mx ?ex ?lx] =>
      pose proof (binary_round_aux_sign p x sx mx ex lx) as Hs;
      destruct (binary_round_aux p x sx mx ex lx) as [s|s| |s m' e'];
      try subst s; exact I
  end.
Qed.

Lemma gate_target_valid pts i j : gate pts i j = true -> isnan (z (pt pts j)) = false.
Proof.
  unfold gate. intros H. apply andb_true_iff in H. destruct H as [H _].
  apply andb_true_iff in H. destruct H as [_ H]. now apply negb_true_iff in H.
Qed.

Lemma dir_edge_b_neighbour acos pts nms wd mx col row d :
  b (dir_edge acos pts nms wd mx col row d) = neighbour wd (GetIdx wd col row) d \/
  col = 0.
Proof.
  unfold dir_edge. destruct (cell_dists pts wd col row) as [[[d0 d1] d2] d3].
  destruct d; try (left; reflexivity).
  destruct (Z.eqb_spec col 0); [right; assumption | left; reflexivity].
Qed.

(** X17: an edge leaves only a point of strictly positive depth: with a
    source depth that is zero, negative or not a number the test
    [z_dist < z_adapt * z] fails for all four directions.  The point it leads
    to has a valid depth too, except possibly for an edge that leaves
    column 0, where the test of the bottom-left block reads another point. *)
Theorem BuildFromPointCloud_sources_have_positive_depth acos cloud nms gr :
  grid_ok cloud nms ->
  exists gr' es n,
    BuildFromPointCloud acos cloud nms gr = Returns (gr', es, n) /\
    forall e, In e es ->
      F32.ltb F32.zero (z (pt (points cloud) (a e))) = true /\
      isnan (z (pt (points cloud) (a e))) = false /\
      (isnan (z (pt (points cloud) (b e))) = false \/ a e mod width cloud = 0).
Proof.
  intros Hok. pose proof Hok as (Hwd & _). eexists _, _, _.
  split; [apply BuildFromPointCloud_eq; assumption|].
  intros e He. apply grid_edges_In in He.
  destruct He as (col & row & d & _ & G & ->).
  rewrite dir_edge_a. pose proof (gate_source_positive _ _ _ G) as Hp.
  split; [exact Hp|]. split.
  - destruct (z (pt (points cloud) (GetIdx (width cloud) col row))); try reflexivity.
    discriminate.
  - destruct (dir_edge_b_neighbour acos (points cloud) (points nms) (width cloud)
                (max_color_of (points cloud) (width cloud) (height cloud)) col row d)
      as [-> | ->].
    + left. apply (gate_target_valid _ _ _ G).
    + right. unfold GetIdx. rewrite Z.add_0_r. apply Z.mod_mul. lia.
Qed.

Lemma BuildFromPointCloud_sources_have_positive_depth_witness :
  exists gr' es n,
    BuildFromPointCloud acos_coarse cloud32 nms32 Graph_default = Returns (gr', es, n) /\
    forall e, In e es ->
      F32.ltb F32.zero (z (pt (points cloud32) (a e))) = true /\
      isnan (z (pt (points cloud32) (a e))) = false /\
      (isnan (z (pt (points cloud32) (b e))) = false \/ a e mod width cloud32 = 0).
Proof.
  apply (BuildFromPointCloud_sources_have_positive_depth acos_coarse cloud32 nms32
           Graph_default grid_ok_32).
Defined.

(** ** The angle is never a NaN *)

Lemma rounded_not_nan prec emax sx m1 E :
  0 <= m1 -> isnan (rounded prec emax sx m1 E) = false.
Proof.
  intros H. unfold rounded, finish.
  destruct (m1 <? 2 ^ prec).
  - destruct m1; [reflexivity | destruct (E <=? emax - prec); reflexivity | lia].
  - pose proof (Z.div_pos m1 2 H ltac:(lia)) as H2.
    destruct (m1 / 2); [reflexivity | destruct (E + 1 <=? emax - prec); reflexivity | lia].
Qed.

Lemma binary_round_not_nan prec emax s m e :
  0 < prec -> prec < emax -> isnan (binary_round prec emax s m e) = false.
Proof.
  intros Hprec Hemax. unfold binary_round.
  pose proof (shl_align_spec m e (fexp prec emax (Z.pos (digits2_pos m) + e))) as S.
  destruct (shl_align m e (fexp prec emax (Z.pos (digits2_pos m) + e))) as [mz ez].
  destruct S as (S1 & S2 & S3 & _ & S4 & S5).
  destruct (binary_round_aux_spec prec emax Hprec Hemax s (Z.pos mz) ez loc_Exact)
    as (m1 & Hm1 & _ & _ & _ & ->).
  - lia.
  - rewrite S5. exact S2.
  - apply rounded_not_nan.
    assert (0 <= Z.pos mz / 2 ^ (fexp prec emax (Zdigits2 (Z.pos mz) + ez) - ez)).
    { apply Z.div_pos; [lia|]. apply Z.pow_pos_nonneg; [lia|].
      rewrite S5. cbn [Zdigits2]. lia. }
    lia.
Qed.

Lemma angle_not_nan acos pts nms i j : isnan (angle acos pts nms i j) = false.
Proof.
  unfold angle.
  set (ang := if isnan (z (pt pts i)) then F64.c1_57 else _).
  destruct ang as [s|s| |s m e]; try reflexivity.
  cbn [isnan negb F32.round].
  apply binary_round_not_nan; unfold F32.prec, F32.emax; lia.
Qed.

(** X18: whatever [acos] returns, the secondary weight of an emitted edge is
    assigned and is never a NaN: a NaN angle is replaced by 1.57, and the
    conversion of any other [double] to [float] yields a number or an
    infinity. *)
Theorem BuildFromPointCloud_w2_never_nan acos cloud nms gr :
  grid_ok cloud nms ->
  exists gr' es n,
    BuildFromPointCloud acos cloud nms gr = Returns (gr', es, n) /\
    forall e, In e es -> exists v, w2 e = Some v /\ isnan v = false.
Proof.
  intros Hok. eexists _, _, _.
  split; [apply BuildFromPointCloud_eq; assumption|].
  intros e He. apply grid_edges_In in He.
  destruct He as (col & row & d & _ & _ & ->).
  destruct (dir_edge_w2 acos (points cloud) (points nms) (width cloud)
              (max_color_of (points cloud) (width cloud) (height cloud)) col row d)
    as (j & -> & _).
  eexists. split; [reflexivity | apply angle_not_nan].
Qed.

Lemma BuildFromPointCloud_w2_never_nan_witness :
  exists gr' es n,
    BuildFromPointCloud (fun _ => S754_nan) cloud32 nms32 Graph_default
    = Returns (gr', es, n) /\
    forall e, In e es -> exists v, w2 e = Some v /\ isnan v = false.
Proof.
  apply (BuildFromPointCloud_w2_never_nan (fun _ => S754_nan) cloud32 nms32
           Graph_default grid_ok_32).
Defined.

(** ** Colour distance *)

Lemma SFsub_diag prec emax x : is_finite x = true -> SFsub prec emax x x = S754_zero false.
Proof.
  destruct x as [s|s| |s m e]; try discriminate. intros _.
  unfold SFsub. rewrite Z.sub_diag. reflexivity.
Qed.

Lemma good_cases prec emax k x :
  good prec emax k x = true -> x = S754_zero false \/ is_finite x = true.
Proof. destruct x as [[]|[]| |[] m e]; try discriminate; auto. Qed.

Lemma chan_sub_diag c : F64.sub (chan c) (chan c) = S754_zero false.
Proof.
  destruct (good_cases _ _ _ _ (chan_good c)) as [-> | H]; [reflexivity|].
  now apply SFsub_diag.
Qed.

Lemma color_distance_same p q :
  r p = r q -> g p = g q -> b_ p = b_ q -> color_distance p q = S754_zero false.
Proof.
  intros Hr Hg Hb. unfold color_distance. rewrite Hr, Hg, Hb. cbv zeta.
  rewrite !chan_sub_diag. reflexivity.
Qed.

Lemma max_over_zeros ds :
  Forall (fun d => d = S754_zero false) ds ->
  max_over ds (S754_zero false) = S754_zero false.
Proof.
  induction 1 as [|d ds Hd Hds IH]; [reflexivity|].
  subst d. cbn [max_over fold_left]. exact IH.
Qed.

Lemma pt_In pts i : 0 <= i < Z.of_nat (length pts) -> In (pt pts i) pts.
Proof. intros H. unfold pt. apply nth_In. lia. Qed.

Section Uniform.

Variables (pts : list PointXYZRGB) (wd ht : Z) (c : PointXYZRGB).
Hypothesis Hwd : 1 <= wd.
Hypothesis Hht : 1 <= ht.
Hypothesis Hlen : Z.of_nat (length pts) = wd * ht.
Hypothesis Hcol : Forall (fun p => r p = r c /\ g p = g c /\ b_ p = b_ c) pts.

Lemma uniform_distance i j :
  0 <= i < wd * ht -> 0 <= j < wd * ht ->
  color_distance (pt pts i) (pt pts j) = S754_zero false.
Proof using Hlen Hcol.
  intros Hi Hj. rewrite Forall_forall in Hcol.
  destruct (Hcol (pt pts i)) as (R1 & G1 & B1); [apply pt_In; lia|].
  destruct (Hcol (pt pts j)) as (R2 & G2 & B2); [apply pt_In; lia|].
  apply color_distance_same; congruence.
Qed.

Lemma uniform_cell_dists col row :
  0 <= col < wd - 1 -> 0 <= row < ht - 1 ->
  cell_dists pts wd col row
  = (S754_zero false, S754_zero false, S754_zero false,
     if col =? 0 then F32.one else S754_zero false).
Proof using All.
  intros Hc Hr. unfold cell_dists, GetIdx. cbv zeta.
  rewrite !uniform_distance by nia. reflexivity.
Qed.

Lemma uniform_max_color : max_color_of pts wd ht = S754_zero false.
Proof using All.
  unfold max_color_of. apply max_over_zeros.
  apply Forall_forall. intros d Hd. apply in_flat_map in Hd.
  destruct Hd as ([col row] & Hc & Hd). apply cells_In in Hc.
  unfold cell_tracked in Hd. rewrite uniform_cell_dists in Hd by tauto.
  destruct (col =? 0); cbn [In] in Hd; intuition congruence.
Qed.

End Uniform.

(** X19: when all points of the cloud have the same colour, every colour
    distance is +0, so is their maximum, and each weight [color_dist/max_color]
    is 0/0: every emitted edge has a NaN weight, except the bottom-left edge of
    a cell in column 0, whose weight is the constant 1.0. *)
Theorem BuildFromPointCloud_uniform_colour acos cloud nms gr c :
  grid_ok cloud nms ->
  Forall (fun p => r p = r c /\ g p = g c /\ b_ p = b_ c) (points cloud) ->
  exists gr' es n,
    BuildFromPointCloud acos cloud nms gr = Returns (gr', es, n) /\
    max_color_of (points cloud) (width cloud) (height cloud) = S754_zero false /\
    forall e, In e es ->
      isnan (w e) = true \/
      (w e = F32.one /\ a e mod width cloud = 0 /\ b e = a e + width cloud + 1).
Proof.
  intros Hok Hc. pose proof Hok as (Hwd & Hht & Hlen & Hnms & Hint).
  pose proof (uniform_max_color _ _ _ c Hwd Hht Hlen Hc) as Hmx.
  eexists _, _, _.
  split; [apply BuildFromPointCloud_eq; assumption|].
  split; [exact Hmx|].
  intros e He. apply grid_edges_In in He.
  destruct He as (col & row & d & Hcell & _ & ->).
  apply cells_In in Hcell. destruct Hcell as [Hcl Hrw].
  rewrite Hmx. unfold dir_edge.
  rewrite (uniform_cell_dists _ _ _ c Hwd Hht Hlen Hc col row Hcl Hrw).
  destruct d; cbn [w a b]; try (left; reflexivity).
  destruct (Z.eqb_spec col 0) as [->|Hne]; cbn [w a b].
  - right. split; [reflexivity|]. split; [|reflexivity].
    unfold GetIdx. rewrite Z.add_0_r. apply Z.mod_mul. lia.
  - left. reflexivity.
Qed.

Lemma BuildFromPointCloud_uniform_colour_witness :
  exists gr' es n,
    BuildFromPointCloud acos_coarse cloud32 nms32 Graph_default = Returns (gr', es, n) /\
    max_color_of (points cloud32) (width cloud32) (height cloud32) = S754_zero false /\
    forall e, In e es ->
      isnan (w e) = true \/
      (w e = F32.one /\ a e mod width cloud32 = 0 /\ b e = a e + width cloud32 + 1).
Proof.
  apply (BuildFromPointCloud_uniform_colour acos_coarse cloud32 nms32 Graph_default
           pt1 grid_ok_32).
  repeat constructor.
Defined.

(** ** A level surface *)

Section Level.

Variables (pts : list PointXYZRGB) (wd ht : Z) (z0 : float).
Hypothesis Hwd : 1 <= wd.
Hypothesis Hht : 1 <= ht.
Hypothesis Hlen : Z.of_nat (length pts) = wd * ht.
Hypothesis Hz : Forall (fun p => z p = z0) pts.
Hypothesis Hfin : is_finite z0 = true.
Hypothesis Hpos : F32.ltb F32.zero (F32.mul z_adapt z0) = true.

Lemma level_gate i j : 0 <= i < wd * ht -> 0 <= j < wd * ht -> gate pts i j = true.
Proof using Hlen Hz Hfin Hpos.
  intros Hi Hj. rewrite Forall_forall in Hz. unfold gate.
  rewrite (Hz (pt pts i)), (Hz (pt pts j)) by (apply pt_In; lia).
  unfold F32.sub. rewrite SFsub_diag by assumption.
  destruct z0; try discriminate. exact Hpos.
Qed.

Lemma level_cell_out acos nms mx col row :
  0 <= col < wd - 1 -> 0 <= row < ht - 1 ->
  cell_out acos pts nms wd mx (col, row)
  = map (dir_edge acos pts nms wd mx col row) directions.
Proof using All.
  intros Hc Hr. unfold cell_out, directions, dir_out, neighbour, GetIdx.
  cbn [flat_map map]. rewrite !level_gate by nia. reflexivity.
Qed.

End Level.

(** X20: on a level surface, all points at one finite depth z for which
    [z_adapt * z] is above zero, every visited cell passes the depth test in
    all four directions: the output has exactly 4 (width-1) (height-1) edges,
    and every visited cell is joined to its right, lower and lower-right
    neighbours, and to its lower-left one when it has one. *)
Theorem BuildFromPointCloud_level_surface acos cloud nms gr z0 :
  grid_ok cloud nms ->
  Forall (fun p => z p = z0) (points cloud) ->
  is_finite z0 = true ->
  F32.ltb F32.zero (F32.mul z_adapt z0) = true ->
  let wd := width cloud in
  let ht := height cloud in
  exists gr' es n,
    BuildFromPointCloud acos cloud nms gr = Returns (gr', es, n) /\
    Z.of_nat (length es) = 4 * (wd - 1) * (ht - 1) /\
    forall col row col' row',
      0 <= col < wd - 1 -> 0 <= row < ht - 1 ->
      (col' = col + 1 /\ row' = row) \/
      (col' = col /\ row' = row + 1) \/
      (col' = col + 1 /\ row' = row + 1) \/
      (col' = col - 1 /\ row' = row + 1 /\ 0 < col) ->
      exists e, In e es /\ a e = GetIdx wd col row /\ b e = GetIdx wd col' row'.
Proof.
  intros Hok Hz Hfin Hpos wd ht. pose proof Hok as (Hwd & Hht & Hlen & Hnms & Hint).
  fold wd ht in Hwd, Hht, Hlen, Hint.
  eexists _, _, _.
  split; [apply BuildFromPointCloud_eq; assumption|]. fold wd ht.
  split.
  - unfold grid_edges. rewrite (flat_map_length_const _ 4).
    + rewrite cells_length. nia.
    + intros [col row] Hc. apply cells_In in Hc.
      rewrite (level_cell_out _ _ _ z0 Hwd Hht Hlen Hz Hfin Hpos) by tauto.
      reflexivity.
  - intros col row col' row' Hc Hr Hd.
    assert (Hd' : exists d,
               b (dir_edge acos (points cloud) (points nms) wd
                           (max_color_of (points cloud) wd ht) col row d)
               = GetIdx wd col' row').
    { destruct Hd as [[-> ->]|[[-> ->]|[[-> ->]|(-> & -> & H0)]]];
        [exists Right | exists Bottom | exists BottomRight | exists BottomLeft];
        rewrite dir_edge_b; try reflexivity.
      destruct (Z.eqb_spec col 0); [lia | reflexivity]. }
    destruct Hd' as (d & Hb).
    eexists. split; [|split; [apply dir_edge_a | exact Hb]].
    apply grid_edges_In. exists col, row, d.
    split; [apply cells_In; tauto|]. split; [|reflexivity].
    apply (level_gate _ _ _ z0 Hlen Hz Hfin Hpos); unfold GetIdx;
      destruct d; cbn [neighbour]; nia.
Qed.

Lemma BuildFromPointCloud_level_surface_witness :
  exists gr' es n,
    BuildFromPointCloud acos_coarse cloud32 nms32 Graph_default = Returns (gr', es, n) /\
    Z.of_nat (length es) = 4 * (3 - 1) * (2 - 1) /\
    forall col row col' row',
      0 <= col < 3 - 1 -> 0 <= row < 2 - 1 ->
      (col' = col + 1 /\ row' = row) \/
      (col' = col /\ row' = row + 1) \/
      (col' = col + 1 /\ row' = row + 1) \/
      (col' = col - 1 /\ row' = row + 1 /\ 0 < col) ->
      exists e, In e es /\ a e = GetIdx 3 col row /\ b e = GetIdx 3 col' row'.
Proof.
  apply (BuildFromPointCloud_level_surface acos_coarse cloud32 nms32 Graph_default
           F32.one grid_ok_32).
  - repeat constructor.
  - reflexivity.
  - vm_compute. reflexivity.
Defined.

(** ** An edge as a function of its end points *)

Lemma dir_edge_w2_ends acos pts nms wd mx col row d :
  let e := dir_edge acos pts nms wd mx col row d in
  w2 e = Some (angle acos pts nms (a e) (b e)).
Proof.
  unfold dir_edge. destruct (cell_dists pts wd col row) as [[[d0 d1] d2] d3].
  destruct d; try reflexivity. destruct (col =? 0); reflexivity.
Qed.

Lemma gate_source_valid pts i j : gate pts i j = true -> isnan (z (pt pts i)) = false.
Proof.
  unfold gate. intros H. apply andb_true_iff in H. destruct H as [H _].
  apply andb_true_iff in H. destruct H as [H _]. now apply negb_true_iff in H.
Qed.

Lemma dist_of_cell pts wd col row d :
  (d = BottomLeft -> col <> 0) ->
  dist_of (cell_dists pts wd col row) d
  = color_distance (pt pts (GetIdx wd col row))
                   (pt pts (neighbour wd (GetIdx wd col row) d)).
Proof.
  intros Hd. unfold cell_dists, dist_of. cbv zeta.
  destruct d; try reflexivity.
  destruct (Z.eqb_spec col 0); [now destruct Hd | reflexivity].
Qed.

(** X21: what an edge carries is computed from its two end points.  Its w2
    is the angle of the normals at a and b: acos of their dot product, turned
    into a float, or 1.57 when that is a NaN (the branch for an invalid source
    depth never reaches the output).  Its w is the colour distance of the
    points at a and b over [max_color], and the depth test holds between a
    and b; the one exception is the bottom-left edge of a cell in column 0,
    which leads to the lower-right neighbour, weighs 1.0, and passed the test
    against the point at a + width - 1. *)
Theorem BuildFromPointCloud_edge_from_end_points acos cloud nms gr :
  grid_ok cloud nms ->
  let pts := points cloud in
  let wd := width cloud in
  let ht := height cloud in
  exists gr' es n,
    BuildFromPointCloud acos cloud nms gr = Returns (gr', es, n) /\
    forall e, In e es ->
      w2 e = Some (let ang := acos (F64.round (Dot3 (normal (nm (points nms) (a e)))
                                                    (normal (nm (points nms) (b e))))) in
                   if negb (isnan ang) then F32.round ang else sentinel) /\
      ((w e = F32.div (color_distance (pt pts (a e)) (pt pts (b e)))
                      (max_color_of pts wd ht) /\
        gate pts (a e) (b e) = true) \/
       (a e mod wd = 0 /\ b e = a e + wd + 1 /\ w e = F32.one /\
        gate pts (a e) (a e + wd - 1) = true)).
Proof.
  intros Hok pts wd ht. pose proof Hok as (Hwd & _).
  eexists _, _, _. split; [apply BuildFromPointCloud_eq; assumption|].
  intros e He. apply grid_edges_In in He.
  destruct He as (col & row & d & _ & G & ->). fold pts wd ht in G |- *.
  split.
  - rewrite dir_edge_w2_ends. rewrite dir_edge_a. unfold angle.
    now rewrite (gate_source_valid _ _ _ G).
  - destruct (Z.eq_dec col 0) as [E0|E0]; [destruct d|].
    4: { right. subst col. unfold dir_edge.
         destruct (cell_dists pts wd 0 row) as [[[d0 d1] d2] d3].
         cbn [Z.eqb a b w]. repeat split; try reflexivity.
         - unfold GetIdx. rewrite Z.add_0_r. apply Z.mod_mul. fold wd in Hwd. lia.
         - exact G. }
    all: left;
      match goal with
      | |- context [dir_edge _ _ _ _ _ _ _ ?d'] =>
          assert (Hd : d' = BottomLeft -> col <> 0)
            by first [intros HBL; discriminate HBL | intros _; exact E0];
          destruct (dir_edge_weight acos pts (points nms) wd (max_color_of pts wd ht)
                      col row d' Hd) as (Ha & Hb & Hw);
          rewrite Ha, Hb, Hw, (dist_of_cell pts wd col row d' Hd)
      end;
      (split; [reflexivity | exact G]).
Qed.

Lemma BuildFromPointCloud_edge_from_end_points_witness :
  exists gr' es n,
    BuildFromPointCloud acos_coarse cloud22 nms22 Graph_default = Returns (gr', es, n) /\
    forall e, In e es ->
      w2 e = Some (let ang := acos_coarse
                                (F64.round (Dot3 (normal (nm (points nms22) (a e)))
                                                 (normal (nm (points nms22) (b e))))) in
                   if negb (isnan ang) then F32.round ang else sentinel) /\
      ((w e = F32.div (color_distance (pt (points cloud22) (a e)) (pt (points cloud22) (b e)))
                      (max_color_of (points cloud22) 2 2) /\
        gate (points cloud22) (a e) (b e) = true) \/
       (a e mod 2 = 0 /\ b e = a e + 2 + 1 /\ w e = F32.one /\
        gate (points cloud22) (a e) (a e + 2 - 1) = true)).
Proof.
  apply (BuildFromPointCloud_edge_from_end_points acos_coarse cloud22 nms22 Graph_default).
  unfold grid_ok. simpl. repeat split; try reflexivity; lia.
Defined.

(** ** Parallel edges *)

Lemma filter_flat_map {A B} (p : B -> bool) (f : A -> list B) l :
  filter p (flat_map f l) = flat_map (fun c => filter p (f c)) l.
Proof.
  induction l as [|c l IH]; [reflexivity|]. cbn [flat_map].
  now rewrite filter_app, IH.
Qed.

Lemma flat_map_all_nil {A B} (f : A -> list B) l :
  (forall c, In c l -> f c = []) -> flat_map f l = [].
Proof.
  induction l as [|c l IH]; intros H; [reflexivity|]. cbn [flat_map].
  rewrite (H c) by now left. apply IH. intros c' Hc'. apply H. now right.
Qed.

Lemma flat_map_one_source {A B} (key : A -> Z) (f : A -> list B) (k : nat) (x : Z) l :
  StronglySorted (fun c c' => key c < key c') l ->
  (forall c, In c l -> (length (f c) <= k)%nat) ->
  (forall c, In c l -> key c <> x -> f c = []) ->
  (length (flat_map f l) <= k)%nat.
Proof.
  intros Hs. induction Hs as [|c l Hs IH Hall]; intros Hk Hx; [simpl; lia|].
  cbn [flat_map]. rewrite length_app.
  destruct (Z.eq_dec (key c) x) as [E|E].
  - rewrite (flat_map_all_nil f l).
    + specialize (Hk c (or_introl eq_refl)). simpl. lia.
    + intros c' Hc'. apply Hx; [now right|].
      rewrite Forall_forall in Hall. specialize (Hall c' Hc'). lia.
  - rewrite (Hx c (or_introl eq_refl) E). cbn [length].
    apply IH; intros c' Hc'; [apply Hk | apply Hx]; now right.
Qed.

Lemma cell_out_ends acos pts nms wd mx col row x y :
  0 <= col < wd - 1 ->
  let n := length (filter (ends x y) (cell_out acos pts nms wd mx (col, row))) in
  (n <= 2)%nat /\
  (x mod wd <> 0 \/ y <> x + wd + 1 -> (n <= 1)%nat) /\
  (GetIdx wd col row <> x -> n = 0%nat).
Proof.
  intros Hc n. subst n.
  assert (Hmod : GetIdx wd col row mod wd = col).
  { unfold GetIdx. rewrite Z.add_comm, Z.mod_add by lia. apply Z.mod_small. lia. }
  unfold cell_out, directions, dir_out, dir_edge, neighbour. cbn [flat_map].
  destruct (cell_dists pts wd col row) as [[[d0 d1] d2] d3].
  generalize dependent (GetIdx wd col row). intros idx Hmod. rewrite app_nil_r.
  destruct (gate pts idx (idx + 1)); destruct (gate pts idx (idx + wd));
    destruct (gate pts idx (idx + wd + 1)); destruct (gate pts idx (idx + wd - 1));
    destruct (Z.eqb_spec col 0);
    cbn [app filter]; unfold ends; cbn [a b];
    destruct (Z.eqb_spec idx x) as [<-|Hne]; cbn [andb app filter length];
    repeat match goal with
           | |- context [?u =? ?v] => destruct (Z.eqb_spec u v); cbn [andb length]
           end;
    repeat split; intros; lia.
Qed.

Lemma filter_length_app_mid {A} (p : A -> bool) l1 m l2 :
  (length (filter p m) <= length (filter p (l1 ++ m ++ l2)))%nat.
Proof. rewrite !filter_app, !length_app. lia. Qed.

(** X22: between two points BuildFromPointCloud returns at most one edge,
    with one exception: a cell in column 0 is joined twice to its lower-right
    neighbour, once by the bottom-right block and once more by the
    bottom-left block, when the depth tests of both blocks pass.  So an
    ordered pair (a, b) occurs at most twice, and at most once unless a lies
    in column 0 and b = a + width + 1. *)
Theorem BuildFromPointCloud_parallel_edges acos cloud nms gr :
  grid_ok cloud nms ->
  let pts := points cloud in
  let wd := width cloud in
  let ht := height cloud in
  exists gr' es n,
    BuildFromPointCloud acos cloud nms gr = Returns (gr', es, n) /\
    (forall x y, (length (filter (ends x y) es) <= 2)%nat) /\
    (forall x y, x mod wd <> 0 \/ y <> x + wd + 1 ->
                 (length (filter (ends x y) es) <= 1)%nat) /\
    (forall row, 0 < wd - 1 -> 0 <= row < ht - 1 ->
       let idx := GetIdx wd 0 row in
       gate pts idx (idx + wd + 1) = true -> gate pts idx (idx + wd - 1) = true ->
       length (filter (ends idx (idx + wd + 1)) es) = 2%nat).
Proof.
  intros Hok pts wd ht. pose proof Hok as (Hwd & _). fold wd in Hwd.
  eexists _, _, _. split; [apply BuildFromPointCloud_eq; assumption|].
  fold pts wd ht.
  set (mx := max_color_of pts wd ht).
  assert (Hcell : forall x y c, In c (cells wd ht) ->
            let k := length (filter (ends x y)
                               (cell_out acos pts (points nms) wd mx c)) in
            (k <= 2)%nat /\
            (x mod wd <> 0 \/ y <> x + wd + 1 -> (k <= 1)%nat) /\
            (GetIdx wd (fst c) (snd c) <> x -> k = 0%nat)).
  { intros x y [col row] Hc. apply cells_In in Hc. apply cell_out_ends. tauto. }
  assert (H2 : forall x y,
             (length (filter (ends x y) (grid_edges acos pts (points nms) wd ht)) <= 2)%nat).
  { intros x y. unfold grid_edges. rewrite filter_flat_map.
    apply (flat_map_one_source (fun c => GetIdx wd (fst c) (snd c)) _ 2 x).
    - apply cells_sorted. assumption.
    - intros c Hc. apply (Hcell x y c Hc).
    - intros c Hc Hne. apply length_zero_iff_nil. now apply (Hcell x y c Hc). }
  split; [exact H2|]. split.
  - intros x y Hxy. unfold grid_edges. rewrite filter_flat_map.
    apply (flat_map_one_source (fun c => GetIdx wd (fst c) (snd c)) _ 1 x).
    + apply cells_sorted. assumption.
    + intros c Hc. now apply (Hcell x y c Hc).
    + intros c Hc Hne. apply length_zero_iff_nil. now apply (Hcell x y c Hc).
  - intros row Hw Hr idx G1 G2.
    destruct (col0_split acos pts (points nms) wd ht row Hw Hr) as (l1 & l2 & Hes).
    cbv zeta in Hes. fold idx in Hes. rewrite G2 in Hes.
    apply Nat.le_antisymm; [apply H2|].
    rewrite Hes.
    eapply Nat.le_trans; [|apply filter_length_app_mid].
    rewrite !filter_app, !length_app.
    unfold dir_out at 3. cbn [neighbour]. fold idx. rewrite G1.
    unfold dir_edge. destruct (cell_dists pts wd 0 row) as [[[d0 d1] d2] d3].
    fold idx. cbn [filter]. unfold ends, set_w. cbn [a b].
    rewrite !Z.eqb_refl. cbn [andb length]. lia.
Qed.

Lemma BuildFromPointCloud_parallel_edges_witness :
  exists gr' es n,
    BuildFromPointCloud acos_coarse cloud32 nms32 Graph_default = Returns (gr', es, n) /\
    (forall x y, (length (filter (ends x y) es) <= 2)%nat) /\
    (forall x y, x mod 3 <> 0 \/ y <> x + 3 + 1 ->
                 (length (filter (ends x y) es) <= 1)%nat) /\
    (forall row, 0 < 3 - 1 -> 0 <= row < 2 - 1 ->
       let idx := GetIdx 3 0 row in
       gate (points cloud32) idx (idx + 3 + 1) = true ->
       gate (points cloud32) idx (idx + 3 - 1) = true ->
       length (filter (ends idx (idx + 3 + 1)) es) = 2%nat).
Proof.
  apply (BuildFromPointCloud_parallel_edges acos_coarse cloud32 nms32 Graph_default
           grid_ok_32).
Defined.

(** ** Symmetries *)

Lemma SFmul_comm prec emax x y : SFmul prec emax x y = SFmul prec emax y x.
Proof.
  destruct x as [sx|sx| |sx mx ex], y as [sy|sy| |sy my ey]; unfold SFmul;
    try reflexivity; rewrite (xorb_comm sx sy); try reflexivity.
  now rewrite Pos.mul_comm, Z.add_comm.
Qed.

(** X23: [Dot3] does not depend on the order of its two vectors, also in
    floating point: the products commute and are summed in the same order
    (a NaN is one value here, whatever its payload). *)
Theorem Dot3_symmetric (v1 v2 : float * float * float) : Dot3 v1 v2 = Dot3 v2 v1.
Proof.
  destruct v1 as [[x1 y1] z1], v2 as [[x2 y2] z2]. unfold Dot3, F32.mul.
  now rewrite (SFmul_comm _ _ x1), (SFmul_comm _ _ y1), (SFmul_comm _ _ z1).
Qed.

Lemma binary_round_aux_opp prec emax s mx ex lx :
  binary_round_aux prec emax (negb s) mx ex lx
  = SFopp (binary_round_aux prec emax s mx ex lx).
Proof.
  unfold binary_round_aux.
  destruct (shr_fexp prec emax mx ex lx) as [mrs' e'].
  destruct (shr_fexp prec emax _ e' loc_Exact) as [mrs'' e''].
  destruct (shr_m mrs''); [reflexivity| |reflexivity].
  destruct (e'' <=? emax - prec); reflexivity.
Qed.

Lemma binary_normalize_opp prec emax n e :
  n <> 0 ->
  binary_normalize prec emax (- n) e false = SFopp (binary_normalize prec emax n e false).
Proof.
  intros Hn. destruct n as [|p|p]; [contradiction| |]; cbn [Z.opp binary_normalize];
    unfold binary_round;
    destruct (shl_align p e (fexp prec emax (Z.pos (digits2_pos p) + e))) as [mz ez].
  - apply (binary_round_aux_opp prec emax false).
  - apply (binary_round_aux_opp prec emax true).
Qed.

Lemma SFmul_self_opp prec emax d :
  SFmul prec emax (SFopp d) (SFopp d) = SFmul prec emax d d.
Proof. destruct d as [[]|[]| |[] m e]; reflexivity. Qed.

Lemma SFsub_swap prec emax k x y :
  good prec emax k x = true -> good prec emax k y = true ->
  SFsub prec emax y x = SFopp (SFsub prec emax x y) \/
  SFsub prec emax y x = SFsub prec emax x y.
Proof.
  destruct x as [[]|[]| |[] mx ex]; try discriminate;
    destruct y as [[]|[]| |[] my ey]; try discriminate; intros _ _.
  - right. reflexivity.
  - left. reflexivity.
  - left. reflexivity.
  - unfold SFsub. cbn [cond_Zopp]. rewrite (Z.min_comm ey ex).
    set (A := Z.pos (fst (shl_align mx ex (Z.min ex ey)))).
    set (B := Z.pos (fst (shl_align my ey (Z.min ex ey)))).
    destruct (Z.eq_dec (A - B) 0) as [E|E].
    + right. replace (B - A) with 0 by lia. now rewrite E.
    + left. replace (B - A) with (- (A - B)) by lia.
      now apply binary_normalize_opp.
Qed.

Lemma diff_sq_swap c0 c1 :
  F64.mul (F64.sub (chan c0) (chan c1)) (F64.sub (chan c0) (chan c1))
  = F64.mul (F64.sub (chan c1) (chan c0)) (F64.sub (chan c1) (chan c0)).
Proof.
  unfold F64.mul, F64.sub.
  destruct (SFsub_swap F64.prec F64.emax 1 (chan c0) (chan c1)
              (chan_good c0) (chan_good c1)) as [-> | ->].
  - symmetry. apply SFmul_self_opp.
  - reflexivity.
Qed.

(** X24: the colour distance is symmetric: swapping the two points changes
    the sign of each channel difference only, and the differences are
    squared. *)
Theorem color_distance_symmetric (p q : PointXYZRGB) :
  color_distance p q = color_distance q p.
Proof.
  unfold color_distance. cbv zeta.
  now rewrite (diff_sq_swap (r p)), (diff_sq_swap (g p)), (diff_sq_swap (b_ p)).
Qed.

(** ** Add3 on overlapping arrays *)

Lemma at_firstn_skipn {A} (mem : list A) (i j : Z) (v : A) :
  0 <= i < Z.of_nat (length mem) ->
  at_ (firstn (Z.to_nat i) mem ++ v :: skipn (S (Z.to_nat i)) mem) j
  = if j =? i then Returns v else at_ mem j.
Proof.
  intros Hi. unfold at_.
  destruct (Z.ltb_spec j 0) as [Hj|Hj].
  - destruct (Z.eqb_spec j i); [lia | reflexivity].
  - assert (Hl : length (firstn (Z.to_nat i) mem) = Z.to_nat i)
      by (rewrite length_firstn; lia).
    destruct (Z.eqb_spec j i) as [->|Hne].
    + rewrite nth_error_app2 by lia. rewrite Hl, Nat.sub_diag. reflexivity.
    + destruct (Z.lt_ge_cases j i) as [Hlt|Hge].
      * rewrite nth_error_app1 by lia.
        rewrite nth_error_firstn.
        destruct (Nat.ltb_spec (Z.to_nat j) (Z.to_nat i)); [reflexivity | lia].
      * rewrite nth_error_app2 by lia. rewrite Hl.
        replace (Z.to_nat j - Z.to_nat i)%nat with (S (Z.to_nat j - Z.to_nat i - 1)) by lia.
        cbn [nth_error]. rewrite nth_error_skipn.
        replace (S (Z.to_nat i) + (Z.to_nat j - Z.to_nat i - 1))%nat with (Z.to_nat j) by lia.
        reflexivity.
Qed.

Lemma poke_spec {T} (mem : list T) (i : Z) (v : T) :
  0 <= i < Z.of_nat (length mem) ->
  exists mem', poke mem i v = Returns mem' /\
               length mem' = length mem /\
               forall j, at_ mem' j = if j =? i then Returns v else at_ mem j.
Proof.
  intros Hi. unfold poke.
  destruct (Z.leb_spec 0 i); [|lia].
  destruct (Z.ltb_spec i (Z.of_nat (length mem))); [|lia]. cbn [andb].
  eexists. split; [reflexivity|]. split.
  - rewrite length_app, length_firstn. cbn [length]. rewrite length_skipn. lia.
  - intros j. now apply at_firstn_skipn.
Qed.

(** X25: [Add3] writes each component after reading the two it adds, and
    before reading the next ones.  So it may work in place: whenever the
    result array does not start one or two slots after the start of an
    operand (the same array as an operand, or arrays apart, in particular),
    the result holds the component-wise sums of the operands as they were
    before the call, and nothing else in the store changes. *)
Theorem Add3_in_place {T} (add : T -> T -> T) (mem : list T) (v1 v2 r : Z) (d : T) :
  0 <= v1 -> v1 + 2 < Z.of_nat (length mem) ->
  0 <= v2 -> v2 + 2 < Z.of_nat (length mem) ->
  0 <= r -> r + 2 < Z.of_nat (length mem) ->
  r - v1 <> 1 -> r - v1 <> 2 -> r - v2 <> 1 -> r - v2 <> 2 ->
  exists mem',
    Add3 add mem v1 v2 r = Returns mem' /\
    length mem' = length mem /\
    (forall k, 0 <= k < 3 ->
       nth (Z.to_nat (r + k)) mem' d
       = add (nth (Z.to_nat (v1 + k)) mem d) (nth (Z.to_nat (v2 + k)) mem d)) /\
    (forall j, 0 <= j -> ~ r <= j < r + 3 ->
       nth_error mem' (Z.to_nat j) = nth_error mem (Z.to_nat j)).
Proof.
  intros H1 H1' H2 H2' Hr Hr' Ha Hb Hc Hd. unfold Add3.
  rewrite (at_nth mem v1 d), (at_nth mem v2 d) by lia. cbn [bind].
  destruct (poke_spec mem r (add (nth (Z.to_nat v1) mem d) (nth (Z.to_nat v2) mem d)))
    as (m1 & -> & L1 & R1); [lia|]. cbn [bind].
  rewrite !R1.
  destruct (Z.eqb_spec (v1 + 1) r); [lia|]. destruct (Z.eqb_spec (v2 + 1) r); [lia|].
  rewrite (at_nth mem (v1 + 1) d), (at_nth mem (v2 + 1) d) by lia. cbn [bind].
  destruct (poke_spec m1 (r + 1) (add (nth (Z.to_nat (v1 + 1)) mem d)
                                      (nth (Z.to_nat (v2 + 1)) mem d)))
    as (m2 & -> & L2 & R2); [lia|]. cbn [bind].
  rewrite !R2, !R1.
  destruct (Z.eqb_spec (v1 + 2) (r + 1)); [lia|].
  destruct (Z.eqb_spec (v2 + 2) (r + 1)); [lia|].
  destruct (Z.eqb_spec (v1 + 2) r); [lia|]. destruct (Z.eqb_spec (v2 + 2) r); [lia|].
  rewrite (at_nth mem (v1 + 2) d), (at_nth mem (v2 + 2) d) by lia. cbn [bind].
  destruct (poke_spec m2 (r + 2) (add (nth (Z.to_nat (v1 + 2)) mem d)
                                      (nth (Z.to_nat (v2 + 2)) mem d)))
    as (m3 & -> & L3 & R3); [lia|].
  exists m3. split; [reflexivity|]. split; [congruence|].
  assert (Hread : forall j, 0 <= j < Z.of_nat (length mem) ->
                            Returns (nth (Z.to_nat j) m3 d) = at_ m3 j).
  { intros j Hj. symmetry. apply at_nth. lia. }
  split.
  - intros k Hk.
    assert (Hin : 0 <= r + k < Z.of_nat (length mem)) by lia.
    pose proof (Hread (r + k) Hin) as E. rewrite R3, R2, R1 in E.
    assert (Hk3 : k = 0 \/ k = 1 \/ k = 2) by lia.
    destruct Hk3 as [-> | [-> | ->]].
    + destruct (Z.eqb_spec (r + 0) (r + 2)); [lia|].
      destruct (Z.eqb_spec (r + 0) (r + 1)); [lia|].
      destruct (Z.eqb_spec (r + 0) r); [|lia].
      rewrite !Z.add_0_r. congruence.
    + destruct (Z.eqb_spec (r + 1) (r + 2)); [lia|].
      destruct (Z.eqb_spec (r + 1) (r + 1)); [|lia]. congruence.
    + destruct (Z.eqb_spec (r + 2) (r + 2)); [|lia]. congruence.
  - intros j Hj Hout.
    pose proof (R3 j) as E. rewrite R2, R1 in E.
    destruct (Z.eqb_spec j (r + 2)); [lia|].
    destruct (Z.eqb_spec j (r + 1)); [lia|].
    destruct (Z.eqb_spec j r); [lia|].
    unfold at_ in E. destruct (Z.ltb_spec j 0); [lia|].
    destruct (nth_error m3 (Z.to_nat j)), (nth_error mem (Z.to_nat j));
      congruence.
Qed.

Lemma Add3_in_place_witness :
  exists mem',
    Add3 Z.add [1; 10; 100; 1000] 0 0 0 = Returns mem' /\
    length mem' = 4%nat /\
    (forall k, 0 <= k < 3 ->
       nth (Z.to_nat (0 + k)) mem' 0
       = nth (Z.to_nat (0 + k)) [1; 10; 100; 1000] 0
         + nth (Z.to_nat (0 + k)) [1; 10; 100; 1000] 0) /\
    (forall j, 0 <= j -> ~ 0 <= j < 0 + 3 ->
       nth_error mem' (Z.to_nat j) = nth_error [1; 10; 100; 1000] (Z.to_nat j)).
Proof.
  apply (Add3_in_place Z.add [1; 10; 100; 1000] 0 0 0 0); simpl; lia.
Defined.
